(** * Smart Navigation Filter: the navigation graph engine

    A shallow embedding of [src/pathfinding.js] ([dijkstra],
    [findNearestExit], [generateDirections]), of [generateVoiceDirections]
    from [src/MapView3D.jsx] and of the node and edge tables of
    [src/data/buildingData.js], with the properties of the specification
    stated over them; and of the handlers around them: the vibration
    table and the step buttons of [src/MapView3D.jsx], the selection of
    the start and the destination in both views, the node under the
    pointer of [src/MapView.jsx] and the profile flags of [src/App.jsx].

    Modelling conventions.
    - JavaScript numbers are an abstract carrier [num] with the operations
      the code applies to them ([NumOps]), among them the test [is_inf]
      for the value [Infinity], which a sum or a product may overflow to.
      The solver's distance table holds that value as the constructor
      [Infinity] of [jsnum] and every other number under [Fin]; [NaN] is
      outside the model.  The order and arithmetic facts that the proofs
      use are collected in [NumLaws] and [InfLaws]; they are proved for
      the real numbers ([Real]), for rational arithmetic with a truncated
      square root ([Rat]), on which every definition evaluates, and for
      that arithmetic capped at the largest double ([Capped]), in which
      sums and products overflow.
    - A JavaScript object used as a map is an association list in insertion
      order ([obj]); [obj_keys] is the enumeration order of [for ... in]
      (array indices first, ascending, then the other keys in insertion
      order).  The tables of the code are created by [{}] and inherit from
      [Object.prototype].  [Proto.dijkstra] and [Proto.findNearestExit]
      are the two functions with the tables read and written as the code
      does it, a [TypeError] being one of the outcomes.  The definitions
      of [Section Solver] are the same functions on plain keys, those
      that name no member of [Object.prototype], where the tables are
      mere association lists; [dijkstra_plain_keys] and
      [findNearestExit_plain_keys] relate the two.  The direction
      synthesizers are given on such keys only.
    - [undefined] is [None]; the two [while] loops of [dijkstra] take fuel,
      and [None] as the outcome of [dijkstra] means that the fuel ran out
      ([dijkstra_total] shows that it never does). *)

From Stdlib Require Import Reals Lra.
From Stdlib Require Import Bool List String Ascii Arith NArith ZArith QArith Qabs Lia Lqa DecimalString.
Import ListNotations.

Local Open Scope string_scope.
Local Open Scope list_scope.
Local Close Scope Q_scope.
Local Open Scope nat_scope.

(* ================================================================== *)
(** ** Numbers *)

Class NumOps (num : Type) : Type := {
  zero : num;                      (* the literal 0 *)
  half : num;                      (* the literal 0.5 *)
  add : num -> num -> num;         (* a + b *)
  sub : num -> num -> num;         (* a - b *)
  mul : num -> num -> num;         (* a * b *)
  neg : num -> num;                (* -a *)
  Math_sqrt : num -> num;          (* Math.sqrt(a) *)
  Math_abs : num -> num;           (* Math.abs(a) *)
  ltb : num -> num -> bool;        (* a < b *)
  toFixed0 : num -> string;        (* a.toFixed(0) *)
  is_inf : num -> bool             (* a === Infinity *)
}.

(** [a <= b] as the code can observe it: [b < a] is false. *)
Definition le {num} `{NumOps num} (a b : num) : Prop := ltb b a = false.

Class NumLaws (num : Type) `{NumOps num} : Prop := {
  le_trans : forall a b c : num, le a b -> le b c -> le a c;
  lt_le : forall a b : num, ltb a b = true -> le a b;
  add_le_mono_l : forall a b w : num, le a b -> le (add a w) (add b w);
  le_add_r : forall a w : num, le zero w -> le a (add a w);
  sqrt_nonneg : forall a : num, le zero (Math_sqrt a);
  sq_sub_sym : forall a b : num, mul (sub a b) (sub a b) = mul (sub b a) (sub b a);
  abs_pos : forall a : num, ltb zero a = true -> Math_abs a = a;
  abs_nonpos : forall a : num, ltb zero a = false -> Math_abs a = neg a;
  lt_neg_half : forall a : num, ltb half (neg a) = ltb a (neg half);
  half_pos : ltb zero half = true;
  neg_half_neg : ltb (neg half) zero = true
}.

(** What the proofs use of the value [Infinity]: nothing is above it,
    and [0] is not it. *)
Class InfLaws (num : Type) `{NumOps num} : Prop := {
  inf_top : forall a b : num, is_inf b = true -> le a b;
  inf_up : forall a b : num, is_inf a = true -> le a b -> is_inf b = true;
  zero_fin : is_inf zero = false
}.

(** The values of the solver's distance table: [Infinity], and the
    numbers other than it ([jnum] puts a number in this form). *)
Inductive jsnum (num : Type) : Type :=
| Fin (r : num)
| Infinity.
Arguments Fin {num} r.
Arguments Infinity {num}.

(** The number [r] as a table value. *)
Definition jnum {num} `{NumOps num} (r : num) : jsnum num :=
  if is_inf r then Infinity else Fin r.

(** [a < b] on table values. *)
Definition jlt {num} `{NumOps num} (a b : jsnum num) : bool :=
  match a, b with
  | Fin r, Fin s => ltb r s
  | Fin _, Infinity => true
  | Infinity, _ => false
  end.

(** [a + b] on table values: the sum of two numbers may be [Infinity]. *)
Definition jadd {num} `{NumOps num} (a b : jsnum num) : jsnum num :=
  match a, b with
  | Fin r, Fin s => jnum (add r s)
  | _, _ => Infinity
  end.

(** [a < b] where either side may be [undefined]: the comparison is then
    false. *)
Definition jlt_opt {num} `{NumOps num} (a b : option (jsnum num)) : bool :=
  match a, b with
  | Some r, Some s => jlt r s
  | _, _ => false
  end.

(** [a === Infinity]. *)
Definition is_Infinity {num} (a : option (jsnum num)) : bool :=
  match a with
  | Some Infinity => true
  | _ => false
  end.

(* ================================================================== *)
(** ** JavaScript objects used as maps, and [Set] *)

Module Js.

Definition obj (V : Type) : Type := list (string * V).

(** [o[k]] *)
Fixpoint obj_get {V} (k : string) (o : obj V) : option V :=
  match o with
  | [] => None
  | (k', v) :: r => if String.eqb k' k then Some v else obj_get k r
  end.

(** [o[k] = v]: an existing key keeps its place, a new key goes last. *)
Fixpoint obj_set {V} (k : string) (v : V) (o : obj V) : obj V :=
  match o with
  | [] => [(k, v)]
  | (k', v') :: r =>
      if String.eqb k' k then (k', v) :: r else (k', v') :: obj_set k v r
  end.

(** [if (o[k]) o[k].push(v)] for an object of arrays. *)
Fixpoint obj_push {V} (k : string) (v : V) (o : obj (list V)) : obj (list V) :=
  match o with
  | [] => []
  | (k', l) :: r =>
      if String.eqb k' k then (k', l ++ [v]) :: r else (k', l) :: obj_push k v r
  end.

Definition own_keys {V} (o : obj V) : list string := map fst o.

Definition digit_of (c : ascii) : option N :=
  let n := N_of_ascii c in
  if (48 <=? n)%N && (n <=? 57)%N then Some (n - 48)%N else None.

Fixpoint digits_value (s : string) (acc : N) : option N :=
  match s with
  | EmptyString => Some acc
  | String c r =>
      match digit_of c with
      | Some d => digits_value r (acc * 10 + d)%N
      | None => None
      end
  end.

(** A key is an array index when it is the canonical decimal string of an
    integer below 2^32 - 1. *)
Definition array_index (k : string) : option N :=
  match k with
  | EmptyString => None
  | String c r =>
      if Ascii.eqb c "0"%char && negb (String.eqb r "") then None
      else match digits_value k 0%N with
           | Some n => if (n <=? 4294967294)%N then Some n else None
           | None => None
           end
  end.

Fixpoint insert_index (p : N * string) (l : list (N * string)) : list (N * string) :=
  match l with
  | [] => [p]
  | q :: r => if (fst p <=? fst q)%N then p :: l else q :: insert_index p r
  end.

Definition sort_index (l : list (N * string)) : list (N * string) :=
  fold_right insert_index [] l.

Fixpoint index_keys (ks : list string) : list (N * string) :=
  match ks with
  | [] => []
  | k :: r =>
      match array_index k with
      | Some n => (n, k) :: index_keys r
      | None => index_keys r
      end
  end.

Definition is_named (k : string) : bool :=
  match array_index k with
  | Some _ => false
  | None => true
  end.

(** The order in which [for (const k in o)] visits the keys of [o]. *)
Definition obj_keys {V} (o : obj V) : list string :=
  map snd (sort_index (index_keys (own_keys o))) ++ filter is_named (own_keys o).

(** [s.has(k)] for a [Set] kept as the list of its elements, newest first. *)
Definition set_has (k : string) (s : list string) : bool :=
  existsb (String.eqb k) s.

(** Truthiness of a string. *)
Definition truthy (s : string) : bool := negb (String.eqb s "").

(** [a || b] on strings. *)
Definition or_else (a b : string) : string := if truthy a then a else b.

(** [hay.includes(needle)] *)
Fixpoint includes (needle hay : string) : bool :=
  String.prefix needle hay
  || match hay with
     | EmptyString => false
     | String _ r => includes needle r
     end.

(** [s.replace(pat, rep)] for a string pattern: the first occurrence only. *)
Fixpoint replace_first (pat rep s : string) : string :=
  if String.prefix pat s
  then (rep ++ String.substring (String.length pat) (String.length s - String.length pat) s)%string
  else match s with
       | EmptyString => EmptyString
       | String c r => String c (replace_first pat rep r)
       end.

(** [s.replace(/_/g, ' ')] *)
Fixpoint underscores_to_spaces (s : string) : string :=
  match s with
  | EmptyString => EmptyString
  | String c r =>
      String (if Ascii.eqb c "_"%char then " "%char else c) (underscores_to_spaces r)
  end.

End Js.
Import Js.

(* ================================================================== *)
(** ** Data model *)

Record node (num : Type) : Type := mkNode {
  id : string;
  x : num;
  y : num;
  type : string;
  accessible : bool;
  label : option string
}.
Arguments mkNode {num}.
Arguments id {num}.
Arguments x {num}.
Arguments y {num}.
Arguments type {num}.
Arguments accessible {num}.
Arguments label {num}.

Record edge : Type := mkEdge {
  from : string;
  to : string;
  e_type : string;
  e_accessible : bool
}.

Record blocked_edge : Type := mkBlocked {
  b_from : string;
  b_to : string
}.

(** The value returned by [dijkstra] when it is not [null]; [distance] is
    [dist[endId]], which is [undefined] ([None]) for an unknown [endId]. *)
Record route (num : Type) : Type := mkRoute {
  path : list string;
  distance : option (jsnum num)
}.
Arguments mkRoute {num}.
Arguments path {num}.
Arguments distance {num}.

(** The value returned by [findNearestExit] when it is not [null]. *)
Record exit_route (num : Type) : Type := mkExitRoute {
  x_path : list string;
  x_distance : option (jsnum num);
  targetId : string;
  isRefuge : bool
}.
Arguments mkExitRoute {num}.
Arguments x_path {num}.
Arguments x_distance {num}.
Arguments targetId {num}.
Arguments isRefuge {num}.

(* ================================================================== *)
(** ** The solver on plain keys *)

(** [dijkstra] and [findNearestExit] where every key at which a table is
    read is the table's own or names no member of [Object.prototype]:
    [o[k]] is then [obj_get k o], and nothing raises.  The two functions
    on every key are [Proto.dijkstra] and [Proto.findNearestExit]
    below. *)
Section Solver.

Context {num : Type} `{NumOps num}.

(** [nodes.forEach(n => { adj[n.id] = []; nodeMap[n.id] = n; })] *)
Definition build_nodeMap (nodes : list (node num)) : obj (node num) :=
  fold_left (fun m n => obj_set (id n) n m) nodes [].

Definition init_adj (nodes : list (node num)) : obj (list (string * num)) :=
  fold_left (fun a n => obj_set (id n) [] a) nodes [].

Definition isBlocked (blockedEdges : list blocked_edge) (e : edge) : bool :=
  existsb (fun b =>
             (String.eqb (b_from b) (from e) && String.eqb (b_to b) (to e))
             || (String.eqb (b_from b) (to e) && String.eqb (b_to b) (from e)))
          blockedEdges.

(** [Math.sqrt((n1.x - n2.x) ** 2 + (n1.y - n2.y) ** 2)] *)
Definition euclid (n1 n2 : node num) : num :=
  Math_sqrt (add (mul (sub (x n1) (x n2)) (sub (x n1) (x n2)))
                 (mul (sub (y n1) (y n2)) (sub (y n1) (y n2)))).

(** The body of [edges.forEach]. *)
Definition add_edge (wheelchairMode : bool) (blockedEdges : list blocked_edge)
    (nodeMap : obj (node num)) (adj : obj (list (string * num))) (e : edge)
  : obj (list (string * num)) :=
  if wheelchairMode && negb (e_accessible e) then adj
  else if isBlocked blockedEdges e then adj
  else match obj_get (from e) nodeMap, obj_get (to e) nodeMap with
       | Some n1, Some n2 =>
           let dist := euclid n1 n2 in
           obj_push (to e) (from e, dist) (obj_push (from e) (to e, dist) adj)
       | _, _ => adj
       end.

Definition build_adj (nodes : list (node num)) (edges : list edge)
    (wheelchairMode : bool) (blockedEdges : list blocked_edge)
  : obj (list (string * num)) :=
  fold_left (add_edge wheelchairMode blockedEdges (build_nodeMap nodes))
            edges (init_adj nodes).

(** [nodes.forEach(n => { dist[n.id] = Infinity; }); dist[startId] = 0;] *)
Definition init_dist (startId : string) (nodes : list (node num)) : obj (jsnum num) :=
  obj_set startId (Fin zero)
          (fold_left (fun d n => obj_set (id n) Infinity d) nodes []).

Record state : Type := mkState {
  dist : obj (jsnum num);
  prev : obj string;
  visited : list string
}.

(** One round of the [for (const id in dist)] scan. *)
Definition scan_step (d : obj (jsnum num)) (vis : list string)
    (acc : option string * jsnum num) (k : string) : option string * jsnum num :=
  match obj_get k d with
  | Some dk => if negb (set_has k vis) && jlt dk (snd acc) then (Some k, dk) else acc
  | None => acc
  end.

Definition pick_min (d : obj (jsnum num)) (vis : list string) : option string * jsnum num :=
  fold_left (scan_step d vis) (obj_keys d) (None, Infinity).

(** One round of [for (const neighbor of (adj[minNode] || []))]. *)
Definition relax (minNode : string) (vis : list string)
    (dp : obj (jsnum num) * obj string) (nb : string * num)
  : obj (jsnum num) * obj string :=
  if set_has (fst nb) vis then dp
  else match obj_get minNode (fst dp) with
       | Some dm =>
           let newDist := jadd dm (Fin (snd nb)) in
           if jlt_opt (Some newDist) (obj_get (fst nb) (fst dp))
           then (obj_set (fst nb) newDist (fst dp), obj_set (fst nb) minNode (snd dp))
           else dp
       | None => dp   (* undefined + d is NaN, and NaN < d is false *)
       end.

Definition neighbours (adj : obj (list (string * num))) (k : string) : list (string * num) :=
  match obj_get k adj with
  | Some l => l
  | None => []
  end.

(** One pass through the body of [while (true)]: [inr] when it breaks. *)
Definition step (endId : string) (adj : obj (list (string * num))) (st : state)
  : state + state :=
  match fst (pick_min (dist st) (visited st)) with
  | None => inr st
  | Some minNode =>
      if negb (truthy minNode) || String.eqb minNode endId then inr st
      else
        let vis := minNode :: visited st in
        let dp := fold_left (relax minNode vis) (neighbours adj minNode)
                            (dist st, prev st) in
        inl (mkState (fst dp) (snd dp) vis)
  end.

Fixpoint dijkstra_loop (fuel : nat) (endId : string)
    (adj : obj (list (string * num))) (st : state) : option state :=
  match fuel with
  | 0 => None
  | S f =>
      match step endId adj st with
      | inr st' => Some st'
      | inl st' => dijkstra_loop f endId adj st'
      end
  end.

(** [while (current) { path.unshift(current); current = prev[current]; }] *)
Fixpoint walk_back (fuel : nat) (pv : obj string) (current : option string)
    (acc : list string) : option (list string) :=
  match fuel with
  | 0 => None
  | S f =>
      match current with
      | Some c => if truthy c then walk_back f pv (obj_get c pv) (c :: acc) else Some acc
      | None => Some acc
      end
  end.

Definition dijkstra (startId endId : string) (nodes : list (node num))
    (edges : list edge) (wheelchairMode : bool) (blockedEdges : list blocked_edge)
  : option (option (route num)) :=
  let adj := build_adj nodes edges wheelchairMode blockedEdges in
  let d0 := init_dist startId nodes in
  match dijkstra_loop (S (List.length d0)) endId adj (mkState d0 [] []) with
  | None => None
  | Some st =>
      if is_Infinity (obj_get endId (dist st)) then Some None
      else match walk_back (S (S (List.length (visited st)))) (prev st) (Some endId) [] with
           | None => None
           | Some p => Some (Some (mkRoute p (obj_get endId (dist st))))
           end
  end.

(** The body of the two [for ... of] loops of [findNearestExit];
    [None] is fuel exhaustion inside [dijkstra]. *)
Definition consider (startId : string) (nodes : list (node num)) (edges : list edge)
    (wheelchairMode : bool) (blockedEdges : list blocked_edge) (refugeFlag : bool)
    (best : option (option (exit_route num))) (target : node num)
  : option (option (exit_route num)) :=
  match best with
  | None => None
  | Some b =>
      match dijkstra startId (id target) nodes edges wheelchairMode blockedEdges with
      | None => None
      | Some None => Some b
      | Some (Some result) =>
          let better :=
            match b with
            | None => true
            | Some bb => jlt_opt (distance result) (x_distance bb)
            end in
          if better
          then Some (Some (mkExitRoute (path result) (distance result) (id target) refugeFlag))
          else Some b
      end
  end.

Definition findNearestExit (startId : string) (nodes : list (node num))
    (edges : list edge) (wheelchairMode : bool) (blockedEdges : list blocked_edge)
  : option (option (exit_route num)) :=
  let exits := filter (fun n => String.eqb (type n) "exit") nodes in
  match fold_left (consider startId nodes edges wheelchairMode blockedEdges false)
                  exits (Some None) with
  | None => None
  | Some best =>
      match best with
      | None =>
          if wheelchairMode then
            let refuges := filter (fun n => String.eqb (type n) "refuge") nodes in
            fold_left (consider startId nodes edges wheelchairMode blockedEdges true)
                      refuges (Some None)
          else Some None
      | Some _ => Some best
      end
  end.

End Solver.

(* ================================================================== *)
(** ** The direction synthesizers *)

(** A step of [generateDirections]. *)
Record direction : Type := mkDirection {
  text : string;
  d_distance : string;
  d_type : string
}.

(** A step of [generateVoiceDirections]. *)
Record voice_direction : Type := mkVoice {
  v_text : string;
  nodeId : string;
  v_type : string
}.

Section Directions.

Context {num : Type} `{NumOps num}.

(** [nodeMap[path[i]]], for an id that [nodeMap] owns or that names no
    member of [Object.prototype]. *)
Definition node_at (nodeMap : obj (node num)) (p : list string) (i : nat)
  : option (node num) :=
  match nth_error p i with
  | Some k => obj_get k nodeMap
  | None => None
  end.

(** [Math.abs(dx) > Math.abs(dy)] picks the axis, the sign picks the side. *)
Definition heading (dx dy : num) : string :=
  if ltb (Math_abs dy) (Math_abs dx)
  then (if ltb zero dx then "east" else "west")
  else (if ltb zero dy then "north" else "south").

(** [cross = dx * dy2 - dy * dx2] *)
Definition cross_of (dx dy dx2 dy2 : num) : num := sub (mul dx dy2) (mul dy dx2).

(** [dot = dx * dx2 + dy * dy2] *)
Definition dot_of (dx dy dx2 dy2 : num) : num := add (mul dx dx2) (mul dy dy2).

(** [curr.label || curr.id.replace('NODE_', '').replace(/_/g, ' ')] *)
Definition label_of (curr : node num) : string :=
  let fallback := underscores_to_spaces (replace_first "NODE_" "" (id curr)) in
  match label curr with
  | Some l => or_else l fallback
  | None => fallback
  end.

(** The body of the [for] loop of [generateDirections] at index [i];
    [None] when the body leaves by [continue]. *)
Definition direction_at (nodeMap : obj (node num)) (p : list string) (i : nat)
  : option direction :=
  let prev := node_at nodeMap p (i - 1) in
  let curr := node_at nodeMap p i in
  let next := if i <? List.length p - 1 then node_at nodeMap p (i + 1) else None in
  match prev, curr with
  | Some prev, Some curr =>
      let dx := sub (x curr) (x prev) in
      let dy := sub (y curr) (y prev) in
      let dist := toFixed0 (Math_sqrt (add (mul dx dx) (mul dy dy))) in
      let direction := heading dx dy in
      let turn :=
        match next with
        | Some next =>
            if i <? List.length p - 1 then
              let dx2 := sub (x next) (x curr) in
              let dy2 := sub (y next) (y curr) in
              let cross := cross_of dx dy dx2 dy2 in
              if ltb half (Math_abs cross)
              then (if ltb zero cross then "Turn left" else "Turn right")
              else "Continue straight"
            else ""
        | None => ""
        end in
      let label := label_of curr in
      if i =? List.length p - 1
      then Some (mkDirection ("Arrive at " ++ label)%string dist "arrive")
      else Some (mkDirection
                   (if truthy turn then (turn ++ " at " ++ label)%string
                    else ("Head " ++ direction ++ " — " ++ dist ++ "m")%string)
                   dist
                   (if includes "left" turn then "left"
                    else if includes "right" turn then "right"
                    else "straight"))
  | _, _ => None
  end.

Definition opt_list {A} (o : option A) : list A :=
  match o with
  | Some a => [a]
  | None => []
  end.

Definition generateDirections (p : list string) (nodes : list (node num))
  : list direction :=
  if List.length p <? 2 then []
  else
    let nodeMap := build_nodeMap nodes in
    flat_map (fun i => opt_list (direction_at nodeMap p i))
             (seq 1 (List.length p - 1)).

(** The advisory phrase of a node type, [''] when there is none. *)
Definition specialText_of (nodeType : string) : string :=
  if String.eqb nodeType "elevator" then "Take the elevator."
  else if String.eqb nodeType "stairs" then "Use the stairwell."
  else if String.eqb nodeType "ramp" then "Use the ramp."
  else if String.eqb nodeType "refuge" then "Proceed to the refuge area. Help is on the way."
  else "".

(** The step pushed by the two "straight" branches of
    [generateVoiceDirections]. *)
Definition straight_step (specialText k : string) : voice_direction :=
  if truthy specialText then mkVoice specialText k "special"
  else mkVoice "Continue straight." k "straight".

(** [curr.label || curr.type] *)
Definition voice_label (curr : node num) : string :=
  match label curr with
  | Some l => or_else l (type curr)
  | None => type curr
  end.

(** The body of the [for] loop of [generateVoiceDirections] at index [i];
    [None] when nothing is pushed. *)
Definition voice_at (nodeMap : obj (node num)) (p : list string) (i : nat)
  : option voice_direction :=
  let prev := node_at nodeMap p (i - 1) in
  let curr := node_at nodeMap p i in
  let next := if i <? List.length p - 1 then node_at nodeMap p (i + 1) else None in
  match prev, curr with
  | Some prev, Some curr =>
      let k := nth i p "" in
      let dx := sub (x curr) (x prev) in
      let dy := sub (y curr) (y prev) in
      let nodeType := type curr in
      let specialText := specialText_of nodeType in
      if i =? List.length p - 1 then
        let label := voice_label curr in
        let arriveText := ("You have arrived at " ++ label ++ ".")%string in
        let arriveText :=
          if String.eqb nodeType "exit"
          then ("You have reached " ++ label ++ ". Exit the building now.")%string
          else arriveText in
        let arriveText :=
          if String.eqb nodeType "refuge"
          then "You have reached the refuge area. Help is on the way."
          else arriveText in
        Some (mkVoice arriveText k "arrive")
      else
        match next with
        | Some next =>
            let dx2 := sub (x next) (x curr) in
            let dy2 := sub (y next) (y curr) in
            let cross := cross_of dx dy dx2 dy2 in
            let dot := dot_of dx dy dx2 dy2 in
            if ltb (Math_abs cross) half && ltb zero dot
            then Some (straight_step specialText k)
            else if ltb half cross
            then Some (mkVoice (or_else specialText "Turn left.") k "left")
            else if ltb cross (neg half)
            then Some (mkVoice (or_else specialText "Turn right.") k "right")
            else Some (straight_step specialText k)
        | None => None
        end
  | _, _ => None
  end.

(** [None] is the [TypeError] raised by [secondNode.x - startNode.x] when
    one of the first two ids does not resolve. *)
Definition generateVoiceDirections (p : list string) (nodes : list (node num))
  : option (list voice_direction) :=
  if List.length p <? 2 then Some []
  else
    let nodeMap := build_nodeMap nodes in
    match node_at nodeMap p 0, node_at nodeMap p 1 with
    | Some startNode, Some secondNode =>
        let startDx := sub (x secondNode) (x startNode) in
        let startDy := sub (y secondNode) (y startNode) in
        let startDir := heading startDx startDy in
        Some (mkVoice ("Route calculated. Head " ++ startDir ++ ".")%string (nth 0 p "") "start"
              :: flat_map (fun i => opt_list (voice_at nodeMap p i))
                          (seq 1 (List.length p - 1)))
    | _, _ => None
    end.

End Directions.

(* ================================================================== *)
(** ** Exact rational arithmetic as an instance of the numbers *)

Module Rat.

(** The square root of [n/d] truncated to six decimals:
    [floor (sqrt (n * d * 10^12)) / (d * 10^6)]. *)
Definition Qsqrt (q : Q) : Q :=
  Qmake (Z.sqrt (Qnum q * Zpos (Qden q) * 1000000000000))
        (Qden q * 1000000).

Definition Qltb (a b : Q) : bool := negb (Qle_bool b a).

(** The nearest integer to a rational that is not negative, the larger
    one on a tie. *)
Definition round_half_up (q : Q) : Z :=
  (2 * Qnum q + Zpos (Qden q)) / (2 * Zpos (Qden q)).

(** [q.toFixed(0)] for [|q| < 10^21]; the sign is printed when [q < 0],
    also in front of a zero. *)
Definition QtoFixed0 (q : Q) : string :=
  if Qltb q 0
  then ("-" ++ NilZero.string_of_int (Z.to_int (round_half_up (Qopp q))))%string
  else NilZero.string_of_int (Z.to_int (round_half_up q)).

#[export] Instance ops : NumOps Q := {|
  zero := 0%Q;
  half := 0.5%Q;
  add := Qplus;
  sub := Qminus;
  mul := Qmult;
  neg := Qopp;
  Math_sqrt := Qsqrt;
  Math_abs := Qabs;
  ltb := Qltb;
  toFixed0 := QtoFixed0;
  is_inf := fun _ => false         (* a rational is never [Infinity] *)
|}.

End Rat.

(* ================================================================== *)
(** ** The real numbers as an instance of the numbers *)

Module Real.

Definition Rltb (a b : R) : bool := if Rlt_dec a b then true else false.

(** The nearest integer, the larger one on a tie: [floor (r + 1/2)]. *)
Definition round_half_up (r : R) : Z := (up (r + / 2) - 1)%Z.

Definition RtoFixed0 (r : R) : string :=
  if Rltb r 0
  then ("-" ++ NilZero.string_of_int (Z.to_int (round_half_up (- r))))%string
  else NilZero.string_of_int (Z.to_int (round_half_up r)).

#[export] Instance ops : NumOps R := {|
  zero := 0%R;
  half := (/ 2)%R;
  add := Rplus;
  sub := Rminus;
  mul := Rmult;
  neg := Ropp;
  Math_sqrt := sqrt;
  Math_abs := Rabs;
  ltb := Rltb;
  toFixed0 := RtoFixed0;
  is_inf := fun _ => false
|}.

End Real.

(* ================================================================== *)
(** ** Rational arithmetic that overflows *)

(** The rationals with [Infinity] above them ([None]): a sum, a
    difference or a product above the largest double is [Infinity], as in
    the arithmetic of doubles.  Rounding is left out, and so are
    [-Infinity] and [NaN]: results are not capped from below, and where
    an operand is [Infinity] the sign of the other is not looked at. *)
Module Capped.

(** [Number.MAX_VALUE], which is 2^1024 - 2^971. *)
Definition MAX_VALUE : Q := (2 ^ 1024 - 2 ^ 971)%Z # 1.

Definition cap (q : Q) : option Q :=
  if Rat.Qltb MAX_VALUE q then None else Some q.

Definition lift2 (f : Q -> Q -> Q) (a b : option Q) : option Q :=
  match a, b with
  | Some u, Some v => cap (f u v)
  | _, _ => None
  end.

Definition lift (f : Q -> Q) (a : option Q) : option Q :=
  match a with
  | Some u => Some (f u)
  | None => None
  end.

Definition cneg (a : option Q) : option Q :=
  match a with
  | Some u => Some (Qopp u)
  | None => Some (Qopp MAX_VALUE)
  end.

Definition cltb (a b : option Q) : bool :=
  match a, b with
  | Some u, Some v => Rat.Qltb u v
  | Some _, None => true
  | None, _ => false
  end.

Definition ctoFixed0 (a : option Q) : string :=
  match a with
  | Some u => Rat.QtoFixed0 u
  | None => "Infinity"
  end.

#[export] Instance ops : NumOps (option Q) := {|
  zero := Some 0%Q;
  half := Some 0.5%Q;
  add := lift2 Qplus;
  sub := lift2 Qminus;
  mul := lift2 Qmult;
  neg := cneg;
  Math_sqrt := lift Rat.Qsqrt;
  Math_abs := lift Qabs;
  ltb := cltb;
  toFixed0 := ctoFixed0;
  is_inf := fun a => match a with Some _ => false | None => true end
|}.

End Capped.

(* ================================================================== *)
(** ** The building dataset ([src/data/buildingData.js]) *)

Definition NODES : list (node Q) := [
  mkNode "NODE_EXIT_A" 26%Q 4.65%Q "exit" true (Some "Exit A");
  mkNode "NODE_EXIT_B" 18%Q (-20)%Q "exit" true (Some "Exit B");
  mkNode "NODE_EXIT_C" (-10)%Q 20%Q "exit" true (Some "Exit C");
  mkNode "NODE_ELEVATOR" 19%Q (-12.5)%Q "elevator" true (Some "Elevator");
  mkNode "NODE_STAIRS_1" (-23)%Q 15.75%Q "stairs" false (Some "Stairs 1");
  mkNode "NODE_STAIRS_2" 15.5%Q (-11.75)%Q "stairs" false (Some "Stairs 2");
  mkNode "NODE_REFUGE_1" (-17)%Q 17%Q "refuge" true (Some "Refuge 1");
  mkNode "NODE_REFUGE_2" 15.5%Q (-17)%Q "refuge" true (Some "Refuge 2");
  mkNode "NODE_RAMP" 16%Q (-16)%Q "ramp" true (Some "Ramp");
  mkNode "NODE_NC_W" (-18)%Q 10%Q "intersection" true None;
  mkNode "NODE_NC_1" (-14)%Q 10%Q "intersection" true None;
  mkNode "NODE_NC_NW" (-10)%Q 10%Q "intersection" true None;
  mkNode "NODE_NC_2" (-5)%Q 10%Q "intersection" true None;
  mkNode "NODE_NC_C" (-2)%Q 10%Q "intersection" true None;
  mkNode "NODE_NC_3" 6%Q 10%Q "intersection" true None;
  mkNode "NODE_NC_E" 14%Q 10%Q "intersection" true None;
  mkNode "NODE_SC_W" (-18)%Q (-8)%Q "intersection" true None;
  mkNode "NODE_SC_1" (-12)%Q (-8)%Q "intersection" true None;
  mkNode "NODE_SC_2" (-7)%Q (-8)%Q "intersection" true None;
  mkNode "NODE_SC_C" (-2)%Q (-8)%Q "intersection" true None;
  mkNode "NODE_SC_3" 5%Q (-8)%Q "intersection" true None;
  mkNode "NODE_SC_4" 6%Q (-8)%Q "intersection" true None;
  mkNode "NODE_SC_E" 14%Q (-8)%Q "intersection" true None;
  mkNode "NODE_SC_SE" 18%Q (-8)%Q "intersection" true None;
  mkNode "NODE_WB_1" (-18)%Q 4%Q "intersection" true None;
  mkNode "NODE_WB_2" (-18)%Q 0%Q "intersection" true None;
  mkNode "NODE_EW_MID" 14%Q 4.65%Q "intersection" true None;
  mkNode "NODE_NW_MID" (-10)%Q 15%Q "intersection" true None;
  mkNode "NODE_SE_MID" 18%Q (-14)%Q "intersection" true None;
  mkNode "NODE_DEAD_1" (-24)%Q (-8)%Q "intersection" true None;
  mkNode "NODE_DEAD_2" (-22)%Q (-12.5)%Q "intersection" true None;
  mkNode "NODE_DOOR_STAIRS1" (-20)%Q 11.5%Q "door" true None;
  mkNode "NODE_DOOR_REFUGE1" (-14)%Q 11.5%Q "door" true None;
  mkNode "NODE_DOOR_LAB" (-5)%Q 11.5%Q "door" true None;
  mkNode "NODE_DOOR_OFF4A" 6%Q 11.5%Q "door" true None;
  mkNode "NODE_DOOR_CONF_N" 8%Q 8.5%Q "door" true None;
  mkNode "NODE_DOOR_CONF_S" 5%Q (-6.5)%Q "door" true None;
  mkNode "NODE_DOOR_OFF1" (-16.5)%Q 4%Q "door" true None;
  mkNode "NODE_DOOR_OFF2" (-16.5)%Q 0%Q "door" true None;
  mkNode "NODE_DOOR_OFF3" (-12)%Q (-6.5)%Q "door" true None;
  mkNode "NODE_DOOR_BREAK" (-12)%Q (-9.5)%Q "door" true None;
  mkNode "NODE_DOOR_BATH" (-7)%Q (-9.5)%Q "door" true None;
  mkNode "NODE_DOOR_STORAGE" 6%Q (-9.5)%Q "door" true None
].

Definition EDGES : list edge := [
  mkEdge "NODE_NC_W" "NODE_NC_1" "corridor" true;
  mkEdge "NODE_NC_1" "NODE_NC_NW" "corridor" true;
  mkEdge "NODE_NC_NW" "NODE_NC_2" "corridor" true;
  mkEdge "NODE_NC_2" "NODE_NC_C" "corridor" true;
  mkEdge "NODE_NC_C" "NODE_NC_3" "corridor" true;
  mkEdge "NODE_NC_3" "NODE_NC_E" "corridor" true;
  mkEdge "NODE_NC_E" "NODE_EXIT_A" "corridor" true;
  mkEdge "NODE_DEAD_1" "NODE_SC_W" "corridor" true;
  mkEdge "NODE_SC_W" "NODE_SC_1" "corridor" true;
  mkEdge "NODE_SC_1" "NODE_SC_2" "corridor" true;
  mkEdge "NODE_SC_2" "NODE_SC_C" "corridor" true;
  mkEdge "NODE_SC_C" "NODE_SC_3" "corridor" true;
  mkEdge "NODE_SC_3" "NODE_SC_4" "corridor" true;
  mkEdge "NODE_SC_4" "NODE_SC_E" "corridor" true;
  mkEdge "NODE_SC_E" "NODE_SC_SE" "corridor" true;
  mkEdge "NODE_NC_W" "NODE_WB_1" "corridor" true;
  mkEdge "NODE_WB_1" "NODE_WB_2" "corridor" true;
  mkEdge "NODE_WB_2" "NODE_SC_W" "corridor" true;
  mkEdge "NODE_NC_C" "NODE_SC_C" "corridor" true;
  mkEdge "NODE_NC_E" "NODE_EW_MID" "corridor" true;
  mkEdge "NODE_EW_MID" "NODE_SC_E" "corridor" true;
  mkEdge "NODE_EW_MID" "NODE_EXIT_A" "corridor" true;
  mkEdge "NODE_NC_NW" "NODE_NW_MID" "corridor" true;
  mkEdge "NODE_NW_MID" "NODE_EXIT_C" "corridor" true;
  mkEdge "NODE_SC_SE" "NODE_SE_MID" "corridor" true;
  mkEdge "NODE_SE_MID" "NODE_EXIT_B" "corridor" true;
  mkEdge "NODE_SC_W" "NODE_DEAD_1" "corridor" true;
  mkEdge "NODE_DEAD_1" "NODE_DEAD_2" "corridor" true;
  mkEdge "NODE_NC_3" "NODE_DOOR_CONF_N" "door" true;
  mkEdge "NODE_DOOR_CONF_N" "NODE_DOOR_CONF_S" "room" true;
  mkEdge "NODE_DOOR_CONF_S" "NODE_SC_3" "door" true;
  mkEdge "NODE_NC_W" "NODE_DOOR_STAIRS1" "corridor" true;
  mkEdge "NODE_DOOR_STAIRS1" "NODE_STAIRS_1" "stairs" false;
  mkEdge "NODE_SE_MID" "NODE_STAIRS_2" "stairs" false;
  mkEdge "NODE_SE_MID" "NODE_ELEVATOR" "elevator" true;
  mkEdge "NODE_NC_1" "NODE_DOOR_REFUGE1" "door" true;
  mkEdge "NODE_DOOR_REFUGE1" "NODE_REFUGE_1" "corridor" true;
  mkEdge "NODE_SE_MID" "NODE_REFUGE_2" "corridor" true;
  mkEdge "NODE_ELEVATOR" "NODE_RAMP" "ramp" true;
  mkEdge "NODE_NC_2" "NODE_DOOR_LAB" "door" true;
  mkEdge "NODE_NC_3" "NODE_DOOR_OFF4A" "door" true;
  mkEdge "NODE_WB_1" "NODE_DOOR_OFF1" "door" true;
  mkEdge "NODE_WB_2" "NODE_DOOR_OFF2" "door" true;
  mkEdge "NODE_SC_1" "NODE_DOOR_OFF3" "door" true;
  mkEdge "NODE_SC_1" "NODE_DOOR_BREAK" "door" true;
  mkEdge "NODE_SC_2" "NODE_DOOR_BATH" "door" true;
  mkEdge "NODE_SC_4" "NODE_DOOR_STORAGE" "door" true
].

(* ================================================================== *)
(** ** The vocabulary of the specification *)

Section Vocabulary.

Context {num : Type} `{NumOps num}.

(** An edge passes the accessibility filter and the blocked-edge filter. *)
Definition survives (wheelchairMode : bool) (blockedEdges : list blocked_edge)
    (e : edge) : bool :=
  negb (wheelchairMode && negb (e_accessible e)) && negb (isBlocked blockedEdges e).

(** The edge joins [u] and [v], in either direction. *)
Definition joins (e : edge) (u v : string) : bool :=
  (String.eqb (from e) u && String.eqb (to e) v)
  || (String.eqb (from e) v && String.eqb (to e) u).

(** Some edge of the list survives both filters and joins [u] and [v]. *)
Definition linked (edges : list edge) (wheelchairMode : bool)
    (blockedEdges : list blocked_edge) (u v : string) : bool :=
  existsb (fun e => survives wheelchairMode blockedEdges e && joins e u v) edges.

Definition is_node (nodes : list (node num)) (k : string) : bool :=
  existsb (fun n => String.eqb (id n) k) nodes.

(** Consecutive ids, starting from [u], are nodes joined by surviving
    edges. *)
Fixpoint hops_ok (nodes : list (node num)) (edges : list edge)
    (wheelchairMode : bool) (blockedEdges : list blocked_edge)
    (u : string) (rest : list string) : bool :=
  match rest with
  | [] => true
  | v :: r =>
      linked edges wheelchairMode blockedEdges u v && is_node nodes v
      && hops_ok nodes edges wheelchairMode blockedEdges v r
  end.

(** [p] is a path of the filtered graph from [s] to [t]. *)
Definition is_route (nodes : list (node num)) (edges : list edge)
    (wheelchairMode : bool) (blockedEdges : list blocked_edge)
    (s t : string) (p : list string) : bool :=
  match p with
  | [] => false
  | u :: rest =>
      String.eqb u s && is_node nodes s && String.eqb (last rest s) t
      && hops_ok nodes edges wheelchairMode blockedEdges s rest
  end.

(** The Euclidean distance between the nodes that two ids resolve to. *)
Definition hop_length (nodes : list (node num)) (u v : string) : num :=
  match obj_get u (build_nodeMap nodes), obj_get v (build_nodeMap nodes) with
  | Some n1, Some n2 => euclid n1 n2
  | _, _ => zero
  end.

(** The sum of the lengths [wt u v] of the hops of [u :: rest], added one
    after the other to [acc]. *)
Fixpoint walk_length (wt : string -> string -> num) (acc : num) (u : string)
    (rest : list string) : num :=
  match rest with
  | [] => acc
  | v :: r => walk_length wt (add acc (wt u v)) v r
  end.

(** The length of a path: the sum, from the start, of the Euclidean
    lengths of its hops. *)
Definition path_length (nodes : list (node num)) (p : list string) : num :=
  match p with
  | [] => zero
  | u :: rest => walk_length (hop_length nodes) zero u rest
  end.

(** Every consecutive pair of [p] is joined by a surviving edge. *)
Fixpoint all_linked (edges : list edge) (wheelchairMode : bool)
    (blockedEdges : list blocked_edge) (p : list string) : bool :=
  match p with
  | u :: ((v :: _) as r) =>
      linked edges wheelchairMode blockedEdges u v
      && all_linked edges wheelchairMode blockedEdges r
  | _ => true
  end.

(** The strings of a list are pairwise distinct. *)
Fixpoint distinctb (l : list string) : bool :=
  match l with
  | [] => true
  | a :: r => negb (set_has a r) && distinctb r
  end.

(** No node of the list has the empty string as its id. *)
Definition ids_nonempty (nodes : list (node num)) : bool :=
  forallb (fun n => truthy (id n)) nodes.

End Vocabulary.

(* ================================================================== *)
(** ** Objects that inherit from [Object.prototype] *)

(** The tables [adj], [nodeMap], [dist] and [prev] are created by [{}]:
    a key that they do not own is looked up in [Object.prototype].  Its
    members are those of the language and the legacy accessors. *)
Definition proto_names : list string :=
  ["constructor"; "hasOwnProperty"; "isPrototypeOf"; "propertyIsEnumerable";
   "toLocaleString"; "toString"; "valueOf";
   "__proto__"; "__defineGetter__"; "__defineSetter__";
   "__lookupGetter__"; "__lookupSetter__"].

(** The key names none of them: [o[k]] is [undefined] unless [o] owns
    [k], which is how [obj_get] and the definitions above read a table. *)
Definition plain (k : string) : bool := negb (set_has k proto_names).

(** No id of a node names a member of [Object.prototype]. *)
Definition plain_nodes {num : Type} (nodes : list (node num)) : bool :=
  forallb (fun n => plain (id n)) nodes.

(** No end of an edge names one. *)
Definition plain_edges (edges : list edge) : bool :=
  forallb (fun e => plain (from e) && plain (to e)) edges.

Definition plain_graph {num : Type} (nodes : list (node num)) (edges : list edge) : bool :=
  plain_nodes nodes && plain_edges edges.

(** [String(Object.prototype[k])] in Node.js: the source text of a
    built-in function, and ["[object Object]"] for the prototype itself,
    which [__proto__] reads. *)
Definition native_source (k : string) : string :=
  if String.eqb k "__proto__" then "[object Object]"
  else ("function " ++ (if String.eqb k "constructor" then "Object" else k)
        ++ "() { [native code] }")%string.

(** [dijkstra] and [findNearestExit] on every key.  The definitions of
    the solver above are these on plain keys ([dijkstra_plain_keys]). *)
Module Proto.

(** What [o[k]] gives. *)
Inductive looked (V : Type) : Type :=
| Own (v : V)              (* the value of the property [k] of [o] itself *)
| Inherited (k : string)   (* [Object.prototype[k]]: a built-in function, or the
                              prototype itself for [__proto__] *)
| Missing.                 (* [undefined] *)
Arguments Own {V} v.
Arguments Inherited {V} k.
Arguments Missing {V}.

Definition get {V} (k : string) (o : obj V) : looked V :=
  match obj_get k o with
  | Some v => Own v
  | None => if plain k then Missing else Inherited k
  end.

(** [o[k] = v] for a number or a string [v]: the setter [__proto__] of
    [Object.prototype] drops it. *)
Definition set {V} (k : string) (v : V) (o : obj V) : obj V :=
  if String.eqb k "__proto__" then o else obj_set k v o.

Definition of_option {V} (v : option V) : looked V :=
  match v with
  | Some x => Own x
  | None => Missing
  end.

(** An element of a path: an id, or the value [Object.prototype[k]]. *)
Inductive value : Type :=
| Str (s : string)
| Native (k : string).

(** How a call ends: with a value, with a [TypeError], or beyond what is
    followed here (re-parented tables, a loop that does not end). *)
Inductive outcome (A : Type) : Type :=
| Returns (a : A)
| TypeError
| Unfollowed.
Arguments Returns {A} a.
Arguments TypeError {A}.
Arguments Unfollowed {A}.

Record route (num : Type) : Type := mkRoute {
  path : list value;
  distance : looked (jsnum num)
}.
Arguments mkRoute {num}.
Arguments path {num}.
Arguments distance {num}.

Record exit_route (num : Type) : Type := mkExitRoute {
  x_path : list value;
  x_distance : looked (jsnum num);
  targetId : string;
  isRefuge : bool
}.
Arguments mkExitRoute {num}.
Arguments x_path {num}.
Arguments x_distance {num}.
Arguments targetId {num}.
Arguments isRefuge {num}.

Section Solver.

Context {num : Type} `{NumOps num}.

(** [String(v)] for a value [v] of [Object.prototype]: the text differs
    between engines. *)
Variable source : string -> string.

(** The property key that a value used as an index stands for. *)
Definition key_of (v : value) : string :=
  match v with
  | Str s => s
  | Native k => source k
  end.

Definition truthy_value (v : value) : bool :=
  match v with
  | Str s => truthy s
  | Native _ => true
  end.

(** [if (adj[k]) adj[k].push(x)]: an inherited value is truthy and has no
    member [push]. *)
Definition push (k : string) (x : string * num) (adj : obj (list (string * num)))
  : outcome (obj (list (string * num))) :=
  match get k adj with
  | Own _ => Returns (obj_push k x adj)
  | Inherited _ => TypeError
  | Missing => Returns adj
  end.

(** The body of [edges.forEach]; once it has raised, the rest is not
    run.  When [nodeMap[e.from]] or [nodeMap[e.to]] is inherited, [dist]
    is [NaN] and, [adj] owning the keys that [nodeMap] owns, one of the
    two [push] is called on the inherited value. *)
Definition add_edge (wheelchairMode : bool) (blockedEdges : list blocked_edge)
    (nodeMap : obj (node num)) (acc : outcome (obj (list (string * num)))) (e : edge)
  : outcome (obj (list (string * num))) :=
  match acc with
  | Returns adj =>
      if wheelchairMode && negb (e_accessible e) then Returns adj
      else if isBlocked blockedEdges e then Returns adj
      else match get (from e) nodeMap, get (to e) nodeMap with
           | Missing, _ => Returns adj
           | _, Missing => Returns adj
           | Own n1, Own n2 =>
               let dist := euclid n1 n2 in
               match push (from e) (to e, dist) adj with
               | Returns adj' => push (to e) (from e, dist) adj'
               | other => other
               end
           | _, _ => TypeError
           end
  | other => other
  end.

(** [adj] and [nodeMap] when no node has the id [__proto__]. *)
Definition build_adj (nodes : list (node num)) (edges : list edge)
    (wheelchairMode : bool) (blockedEdges : list blocked_edge)
  : outcome (obj (list (string * num))) :=
  fold_left (add_edge wheelchairMode blockedEdges (build_nodeMap nodes))
            edges (Returns (init_adj nodes)).

Definition init_dist (startId : string) (nodes : list (node num)) : obj (jsnum num) :=
  set startId (Fin zero)
      (fold_left (fun d n => set (id n) Infinity d) nodes []).

(** [newDist < dist[neighbor.node]]: a number is below neither
    [undefined] nor a function. *)
Definition below (a : jsnum num) (b : looked (jsnum num)) : bool :=
  match b with
  | Own dv => jlt a dv
  | _ => false
  end.

Definition relax (minNode : string) (vis : list string)
    (dp : obj (jsnum num) * obj string) (nb : string * num)
  : obj (jsnum num) * obj string :=
  if set_has (fst nb) vis then dp
  else match get minNode (fst dp) with
       | Own dm =>
           let newDist := jadd dm (Fin (snd nb)) in
           if below newDist (get (fst nb) (fst dp))
           then (set (fst nb) newDist (fst dp), set (fst nb) minNode (snd dp))
           else dp
       | _ => dp
       end.

(** One pass through the body of [while (true)]; [for ... of] raises on
    an inherited [adj[minNode]], which is not iterable. *)
Definition step (endId : string) (adj : obj (list (string * num))) (st : state)
  : outcome (state + state) :=
  match fst (pick_min (dist st) (visited st)) with
  | None => Returns (inr st)
  | Some minNode =>
      if negb (truthy minNode) || String.eqb minNode endId then Returns (inr st)
      else
        let vis := minNode :: visited st in
        match get minNode adj with
        | Inherited _ => TypeError
        | Own l =>
            let dp := fold_left (relax minNode vis) l (dist st, prev st) in
            Returns (inl (mkState (fst dp) (snd dp) vis))
        | Missing => Returns (inl (mkState (dist st) (prev st) vis))
        end
  end.

Fixpoint loop (fuel : nat) (endId : string)
    (adj : obj (list (string * num))) (st : state) : outcome state :=
  match fuel with
  | 0 => Unfollowed
  | S f =>
      match step endId adj st with
      | Returns (inr st') => Returns st'
      | Returns (inl st') => loop f endId adj st'
      | TypeError => TypeError
      | Unfollowed => Unfollowed
      end
  end.

(** [prev[current]] as the next [current]. *)
Definition link (v : looked string) : option value :=
  match v with
  | Own s => Some (Str s)
  | Inherited k => Some (Native k)
  | Missing => None
  end.

(** [while (current) { path.unshift(current); current = prev[current]; }];
    [None] when the fuel is spent. *)
Fixpoint walk_back (fuel : nat) (pv : obj string) (current : option value)
    (acc : list value) : option (list value) :=
  match fuel with
  | 0 => None
  | S f =>
      match current with
      | Some c =>
          if truthy_value c
          then walk_back f pv (link (get (key_of c) pv)) (c :: acc)
          else Some acc
      | None => Some acc
      end
  end.

(** [dijkstra].  A node with the id [__proto__] makes its own array the
    prototype of [adj] and itself the prototype of [nodeMap]; the run is
    not followed from there. *)
Definition dijkstra (startId endId : string) (nodes : list (node num))
    (edges : list edge) (wheelchairMode : bool) (blockedEdges : list blocked_edge)
  : outcome (option (route num)) :=
  if is_node nodes "__proto__" then Unfollowed
  else
    match build_adj nodes edges wheelchairMode blockedEdges with
    | Returns adj =>
        let d0 := init_dist startId nodes in
        match loop (S (List.length d0)) endId adj (mkState d0 [] []) with
        | Returns st =>
            match get endId (dist st) with
            | Own Infinity => Returns None
            | found =>
                match walk_back (S (S (S (List.length (visited st))))) (prev st)
                                (Some (Str endId)) [] with
                | Some p => Returns (Some (mkRoute p found))
                | None => Unfollowed
                end
            end
        | TypeError => TypeError
        | Unfollowed => Unfollowed
        end
    | TypeError => TypeError
    | Unfollowed => Unfollowed
    end.

(** [result.distance < best.distance] *)
Definition nearer (a b : looked (jsnum num)) : bool :=
  match a with
  | Own x => below x b
  | _ => false
  end.

(** The body of the two [for ... of] loops of [findNearestExit]. *)
Definition consider (startId : string) (nodes : list (node num)) (edges : list edge)
    (wheelchairMode : bool) (blockedEdges : list blocked_edge) (refugeFlag : bool)
    (best : outcome (option (exit_route num))) (target : node num)
  : outcome (option (exit_route num)) :=
  match best with
  | Returns b =>
      match dijkstra startId (id target) nodes edges wheelchairMode blockedEdges with
      | Returns None => Returns b
      | Returns (Some result) =>
          let better :=
            match b with
            | None => true
            | Some bb => nearer (distance result) (x_distance bb)
            end in
          if better
          then Returns (Some (mkExitRoute (path result) (distance result)
                                          (id target) refugeFlag))
          else Returns b
      | TypeError => TypeError
      | Unfollowed => Unfollowed
      end
  | other => other
  end.

Definition findNearestExit (startId : string) (nodes : list (node num))
    (edges : list edge) (wheelchairMode : bool) (blockedEdges : list blocked_edge)
  : outcome (option (exit_route num)) :=
  let exits := filter (fun n => String.eqb (type n) "exit") nodes in
  match fold_left (consider startId nodes edges wheelchairMode blockedEdges false)
                  exits (Returns None) with
  | Returns None =>
      if wheelchairMode then
        let refuges := filter (fun n => String.eqb (type n) "refuge") nodes in
        fold_left (consider startId nodes edges wheelchairMode blockedEdges true)
                  refuges (Returns None)
      else Returns None
  | other => other
  end.

End Solver.

End Proto.

(** A result of the solver on plain keys as a result on every key. *)
Definition plain_route {num : Type} (r : route num) : Proto.route num :=
  Proto.mkRoute (map Proto.Str (path r)) (Proto.of_option (distance r)).

Definition plain_exit_route {num : Type} (b : exit_route num) : Proto.exit_route num :=
  Proto.mkExitRoute (map Proto.Str (x_path b)) (Proto.of_option (x_distance b))
                    (targetId b) (isRefuge b).

Definition plain_outcome {A B : Type} (f : A -> B) (o : option (option A))
  : Proto.outcome (option B) :=
  match o with
  | Some r => Proto.Returns (option_map f r)
  | None => Proto.Unfollowed
  end.

(** The ids that the tables of a run hold name no member of
    [Object.prototype]. *)
Definition plain_tables {num : Type} (adj : obj (list (string * num)))
    (st : @state num) : Prop :=
  (forall k l nb, obj_get k adj = Some l -> In nb l -> plain (fst nb) = true)
  /\ (forall k, In k (own_keys (dist st)) -> plain k = true)
  /\ (forall k u, obj_get k (prev st) = Some u -> plain u = true).

(* ================================================================== *)
(** ** The invariant of the solver's loop *)

Section Invariants.

Context {num : Type} `{NumOps num}.

Variable adj : obj (list (string * num)).
Variable s : string.

(** [adj[u]] holds the entry [{ node: v, dist: w }]. *)
Definition arc (u v : string) (w : num) : Prop := In (v, w) (neighbours adj u).

(** Consecutive ids, starting from [u], are joined by entries of [adj]. *)
Fixpoint awalk (u : string) (rest : list string) : Prop :=
  match rest with
  | [] => True
  | v :: r => (exists w, arc u v w) /\ awalk v r
  end.

Definition jle (a b : jsnum num) : Prop := jlt b a = false.

(** [tree d pv vis v p dv]: following [prev] back from [v] gives the path
    [p] from the start, through visited nodes, and [dv] is the sum of its
    hops as the loop accumulated it. *)
Inductive tree (d : obj (jsnum num)) (pv : obj string) (vis : list string)
  : string -> list string -> num -> Prop :=
| tree_start : tree d pv vis s [s] zero
| tree_step (u v : string) (p : list string) (du w : num) :
    tree d pv vis u p du ->
    In u vis ->
    obj_get v pv = Some u ->
    arc u v w ->
    obj_get v d = Some (Fin (add du w)) ->
    ~ In v p ->
    tree d pv vis v (p ++ [v]) (add du w).

(** The invariant at the head of [while (true)]; [done u v w] says for
    which entries of [adj] the relaxation has already taken place. *)
Record Inv (done : string -> string -> num -> Prop)
    (d : obj (jsnum num)) (pv : obj string) (vis : list string) : Prop := {
  inv_start_dist : obj_get s d = Some (Fin zero);
  inv_start_prev : obj_get s pv = None;
  inv_tree : forall v dv, obj_get v d = Some (Fin dv) -> exists p, tree d pv vis v p dv;
  inv_prev_fin : forall v u, obj_get v pv = Some u -> exists dv, obj_get v d = Some (Fin dv);
  inv_vis_start : vis <> [] -> In s vis;
  inv_vis_fin : forall u, In u vis -> exists du, obj_get u d = Some (Fin du);
  inv_vis_truthy : forall u, In u vis -> truthy u = true;
  inv_vis_nodup : NoDup vis;
  inv_arc_key : forall u v w, arc u v w -> obj_get v d <> None;
  inv_settled : forall u v du dv,
      In u vis -> ~ In v vis -> obj_get u d = Some du -> obj_get v d = Some dv ->
      jle du dv;
  inv_relaxed : forall u v w du,
      In u vis -> arc u v w -> done u v w -> obj_get u d = Some (Fin du) ->
      exists dv, obj_get v d = Some dv /\ jle dv (jnum (add du w))
}.

Definition all_done (u v : string) (w : num) : Prop := True.

(** The invariant inside [for (const neighbor of ...)], after the entries
    [processed] of [adj[m]]. *)
Record Mid (m : string) (dm : num) (processed : list (string * num))
    (d : obj (jsnum num)) (pv : obj string) (vis : list string) : Prop := {
  mid_inv : Inv (fun u v w => u <> m \/ In (v, w) processed) d pv vis;
  mid_m : obj_get m d = Some (Fin dm);
  mid_m_vis : In m vis;
  mid_max : forall v dv, In v vis -> obj_get v d = Some dv -> jle dv (Fin dm)
}.

(** The number of keys of [dist] that are not yet visited. *)
Definition unvisited (d : obj (jsnum num)) (vis : list string) : nat :=
  List.length (filter (fun k => negb (set_has k vis)) (own_keys d)).

End Invariants.

(** What the [for ... in] scan knows after the keys [seen]. *)
Definition scanned {num : Type} `{NumOps num} (d : obj (jsnum num)) (vis : list string)
    (seen : list string) (acc : option string * jsnum num) : Prop :=
  (forall k dk, In k seen -> ~ In k vis -> obj_get k d = Some dk -> jle (snd acc) dk)
  /\ match fst acc with
     | None => snd acc = Infinity
     | Some m => In m seen /\ ~ In m vis /\ obj_get m d = Some (snd acc)
                 /\ exists r, snd acc = Fin r
     end.

(** No number of the table is [Infinity]. *)
Definition fin_table {num : Type} `{NumOps num} (d : obj (jsnum num)) : Prop :=
  forall k r, obj_get k d = Some (Fin r) -> is_inf r = false.

(** The entry [{ node: v, dist: w }] that the edge [e] puts in [adj[u]]. *)
Definition edge_entry {num : Type} `{NumOps num} (nodes : list (node num))
    (wheelchairMode : bool) (blockedEdges : list blocked_edge)
    (e : edge) (u v : string) (w : num) : Prop :=
  survives wheelchairMode blockedEdges e = true
  /\ exists n1 n2,
      obj_get (from e) (build_nodeMap nodes) = Some n1
      /\ obj_get (to e) (build_nodeMap nodes) = Some n2
      /\ w = euclid n1 n2
      /\ ((u = from e /\ v = to e) \/ (u = to e /\ v = from e)).

(** What [best] holds after the targets [seen] of a loop of
    [findNearestExit]: nothing when no target was found, otherwise the
    result for one of them, and no result for another is strictly nearer. *)
Definition best_of {num : Type} `{NumOps num} (startId : string)
    (nodes : list (node num)) (edges : list edge) (wheelchairMode : bool)
    (blockedEdges : list blocked_edge) (refugeFlag : bool)
    (seen : list (node num)) (best : option (exit_route num)) : Prop :=
  match best with
  | None =>
      forall t, In t seen ->
                dijkstra startId (id t) nodes edges wheelchairMode blockedEdges = Some None
  | Some b =>
      (exists t r,
          In t seen
          /\ dijkstra startId (id t) nodes edges wheelchairMode blockedEdges = Some (Some r)
          /\ b = mkExitRoute (path r) (distance r) (id t) refugeFlag)
      /\ forall t r,
          In t seen ->
          dijkstra startId (id t) nodes edges wheelchairMode blockedEdges = Some (Some r) ->
          jlt_opt (distance r) (x_distance b) = false
  end.

(* ================================================================== *)
(** ** Small graphs on which the properties are exercised *)

Module Examples.

Definition pt (k : string) (a b : Q) (t : string) : node Q := mkNode k a b t true None.

(** A right triangle [A], [B], [C] whose hypotenuse is a stairs edge, and
    a room [D] behind [C]. *)
Definition triangle_nodes : list (node Q) :=
  [pt "A" 0 0 "intersection"; pt "B" 3 0 "intersection";
   pt "C" 3 4 "intersection"; pt "D" 3 10 "door"].

Definition triangle_edges : list edge :=
  [mkEdge "A" "B" "corridor" true; mkEdge "B" "C" "corridor" true;
   mkEdge "A" "C" "stairs" false; mkEdge "C" "D" "door" true].

(** The hazard that cuts [D] off, given against the direction of the edge. *)
Definition fire_at_D : list blocked_edge := [mkBlocked "D" "C"].

(** A corridor whose middle node has the empty string as its id. *)
Definition unnamed_nodes : list (node Q) :=
  [pt "A" 0 0 "intersection"; pt "" 1 0 "intersection"; pt "X" 2 0 "exit";
   pt "R" 1 1 "refuge"].

Definition unnamed_edges : list edge :=
  [mkEdge "A" "" "corridor" true; mkEdge "" "X" "corridor" true;
   mkEdge "" "R" "corridor" true].

(** A hall [H] with a far exit [X1], a near exit [X2] behind stairs, and
    two refuges. *)
Definition hall_nodes : list (node Q) :=
  [pt "H" 0 0 "intersection"; pt "X1" 10 0 "exit"; pt "X2" 0 2 "exit";
   pt "R1" (-6) 0 "refuge"; pt "R2" 0 (-3) "refuge"].

Definition hall_edges : list edge :=
  [mkEdge "H" "X1" "corridor" true; mkEdge "H" "X2" "stairs" false;
   mkEdge "H" "R1" "corridor" true; mkEdge "R2" "H" "corridor" true].


Definition fire_at_exits : list blocked_edge :=
  [mkBlocked "H" "X1"; mkBlocked "X2" "H"].


(** A walk with a left turn, a right turn, a stretch straight on and a
    turn back, past an elevator. *)
Definition tour_nodes : list (node Q) :=
  [pt "P0" 0 0 "intersection"; pt "P1" 4 0 "intersection";
   pt "P2" 4 3 "intersection"; pt "P3" 8 3 "elevator";
   pt "P4" 12 3 "intersection"; pt "P5" 8 3 "intersection";
   pt "P6" 8 3.1 "intersection"].

Definition tour : list string := ["P0"; "P1"; "P2"; "P3"; "P4"; "P5"; "P6"].

(** A corridor from a node whose id names a member of [Object.prototype]
    to an exit. *)
Definition proto_nodes : list (node Q) :=
  [pt "constructor" 0 0 "intersection"; pt "B" 3 0 "exit"].

Definition proto_edges : list edge := [mkEdge "constructor" "B" "corridor" true].

(** An edge from an id that is no node and names a member of
    [Object.prototype]. *)
Definition dangling : edge := mkEdge "constructor" "A" "corridor" true.



(** An exit [B] behind stairs and a refuge [R], each 1e200 away from [A]:
    the square of the difference of the coordinates overflows. *)
Definition far_nodes : list (node (option Q)) :=
  [mkNode "A" (Some 0%Q) (Some 0%Q) "intersection" true None;
   mkNode "B" (Some 1e200%Q) (Some 0%Q) "exit" true None;
   mkNode "R" (Some 0%Q) (Some 1e200%Q) "refuge" true None].

Definition far_edges : list edge :=
  [mkEdge "A" "B" "stairs" false; mkEdge "A" "R" "corridor" true].

(** The triangle in the arithmetic that overflows. *)
Definition capped_triangle : list (node (option Q)) :=
  map (fun n => mkNode (id n) (Some (x n)) (Some (y n)) (type n) (accessible n) (label n))
      triangle_nodes.

End Examples.

(* ================================================================== *)
(** ** Feedback for the steps ([src/MapView3D.jsx]) *)

(** Every id of the path is an id of the node list. *)
Definition all_resolve {num : Type} (nodes : list (node num)) (p : list string) : bool :=
  forallb (is_node nodes) p.

(** [VIBRATION_PATTERNS]: milliseconds of buzz and pause, in turn. *)
Definition VIBRATION_PATTERNS : obj (list nat) :=
  [("straight", [200]);
   ("left", [200; 350; 200]);
   ("right", [200; 350; 200; 350; 200]);
   ("start", [200; 350; 200; 350; 200; 350; 200]);
   ("special", [200; 350; 200; 350; 200; 350; 200; 350; 200]);
   ("arrive", [800]);
   ("emergency", [200; 80; 200; 80; 200; 80; 200; 80; 200; 80; 500])].

(** [VIBRATION_PATTERNS[type] || VIBRATION_PATTERNS.straight]; an array is
    truthy whatever it holds. *)
Definition pattern_of (type : string) : list nat :=
  match obj_get type VIBRATION_PATTERNS with
  | Some pattern => pattern
  | None =>
      match obj_get "straight" VIBRATION_PATTERNS with
      | Some pattern => pattern
      | None => []
      end
  end.

(** [vibrate(type)]: the argument handed to [navigator.vibrate], nothing
    when the device has no such function. *)
Definition vibrate (supported : bool) (type : string) : option (list nat) :=
  if negb supported then None else Some (pattern_of type).

(** The number of buzzes of a pattern: its entries at even positions. *)
Fixpoint buzzes (pattern : list nat) : nat :=
  match pattern with
  | [] => 0
  | _ :: [] => 1
  | _ :: _ :: r => S (buzzes r)
  end.

(* ================================================================== *)
(** ** Walking the steps ([handleNextStep] and [handlePrevStep] of
       [src/MapView3D.jsx]) *)

Section Walk.

Context {num : Type} `{NumOps num}.

(** [NODES.find(n => n.id === nodeId)] *)
Definition find_node (nodes : list (node num)) (k : string) : option (node num) :=
  find (fun n => String.eqb (id n) k) nodes.

(** What a handler does for the step it moves to: the argument of
    [speak], the argument of [vibrate] and the position given to the blue
    dot, each when the handler gets to it. *)
Record feedback : Type := mkFeedback {
  spoken : option string;
  vibrated : option string;
  dot_at : option (num * num * num)
}.

(** The part that the two handlers share, for the step [directions[k]];
    [hasDot] is [blueDotRef.current]. *)
Definition announce (voiceEnabled vibrationEnabled hasDot : bool)
    (nodes : list (node num)) (step : voice_direction) : feedback :=
  {| spoken := if voiceEnabled then Some (v_text step) else None;
     vibrated := if vibrationEnabled then Some (v_type step) else None;
     dot_at :=
       if truthy (nodeId step) && hasDot then
         match find_node nodes (nodeId step) with
         | Some node => Some (x node, zero, neg (y node))
         | None => None
         end
       else None |}.

(** [handleNextStep]: the new [currentStep] and what was announced; [None]
    is the [TypeError] of reading a member of [directions[nextStep]] when
    it is [undefined].  For an empty list [directions.length - 1] is [-1]
    in the source and [0] here; the test fails in both. *)
Definition handleNextStep (voiceEnabled vibrationEnabled hasDot : bool)
    (nodes : list (node num)) (directions : list voice_direction)
    (currentStep : nat) : option (nat * option feedback) :=
  if currentStep <? List.length directions - 1 then
    let nextStep := currentStep + 1 in
    match nth_error directions nextStep with
    | Some step =>
        Some (nextStep, Some (announce voiceEnabled vibrationEnabled hasDot nodes step))
    | None => None
    end
  else Some (currentStep, None).

(** [handlePrevStep], likewise. *)
Definition handlePrevStep (voiceEnabled vibrationEnabled hasDot : bool)
    (nodes : list (node num)) (directions : list voice_direction)
    (currentStep : nat) : option (nat * option feedback) :=
  if 0 <? currentStep then
    let prevStep := currentStep - 1 in
    match nth_error directions prevStep with
    | Some step =>
        Some (prevStep, Some (announce voiceEnabled vibrationEnabled hasDot nodes step))
    | None => None
    end
  else Some (currentStep, None).

(** The two buttons. *)
Inductive press : Type := Next | Prev.

(** A sequence of presses from [currentStep]; [None] when a handler
    raises. *)
Fixpoint walk (voiceEnabled vibrationEnabled hasDot : bool)
    (nodes : list (node num)) (directions : list voice_direction)
    (presses : list press) (currentStep : nat) : option nat :=
  match presses with
  | [] => Some currentStep
  | b :: rest =>
      match
        match b with
        | Next => handleNextStep voiceEnabled vibrationEnabled hasDot nodes
                                 directions currentStep
        | Prev => handlePrevStep voiceEnabled vibrationEnabled hasDot nodes
                                 directions currentStep
        end
      with
      | Some (c, _) => walk voiceEnabled vibrationEnabled hasDot nodes directions rest c
      | None => None
      end
  end.

End Walk.

(* ================================================================== *)
(** ** Choosing the start and the destination ([handleNodeClick],
       [simulateFire] and [clearAll] of [src/MapView3D.jsx]; [handleClick]
       of [src/MapView.jsx]) *)

(** The part of the state that decides which route is asked for; the
    handlers below also reset [currentPath], [pathInfo], [directions] and
    [currentStep], which are left out here.  [null] is [None]. *)
Record selection : Type := mkSelection {
  selectedStart : option string;
  selectedEnd : option string;
  emergencyMode : bool;
  blockedEdges : list blocked_edge
}.

(** Truthiness of a value that is [null] or a string. *)
Definition is_set (v : option string) : bool :=
  match v with
  | Some s => truthy s
  | None => false
  end.

(** [nodeId !== selectedStart] *)
Definition differs (k : string) (v : option string) : bool :=
  match v with
  | Some s => negb (String.eqb k s)
  | None => true
  end.

(** The three branches that [handleNodeClick] and [handleClick] share,
    for the id of the node that was hit. *)
Definition choose (k : string) (st : selection) : selection :=
  if negb (is_set (selectedStart st)) then
    mkSelection (Some k) (selectedEnd st) (emergencyMode st) (blockedEdges st)
  else if negb (is_set (selectedEnd st)) && negb (emergencyMode st) then
    if differs k (selectedStart st)
    then mkSelection (selectedStart st) (Some k) (emergencyMode st) (blockedEdges st)
    else st
  else mkSelection (Some k) None (emergencyMode st) (blockedEdges st).

(** [handleNodeClick] once the ray has hit a mesh whose [userData.nodeId]
    is [k]; [None] is [undefined]. *)
Definition handleNodeClick (k : option string) (st : selection) : selection :=
  match k with
  | Some k => if negb (truthy k) then st else choose k st
  | None => st
  end.

Definition FIRE : list blocked_edge :=
  [mkBlocked "NODE_NC_3" "NODE_NC_E"; mkBlocked "NODE_NC_E" "NODE_EW_MID"].

Definition simulateFire (st : selection) : selection :=
  mkSelection (selectedStart st) (selectedEnd st) true FIRE.

Definition clearAll (st : selection) : selection :=
  mkSelection None None false [].

(** What the user does to the selection. *)
Inductive action : Type :=
| Click (k : option string)
| Fire
| Clear.

Definition act (a : action) (st : selection) : selection :=
  match a with
  | Click k => handleNodeClick k st
  | Fire => simulateFire st
  | Clear => clearAll st
  end.

(** The state of [useState] at the first render, and the state after a
    sequence of actions. *)
Definition initial_selection : selection := mkSelection None None false [].

Definition after (actions : list action) : selection :=
  fold_left (fun st a => act a st) actions initial_selection.

(** What the handlers keep true of the selection: a destination is
    selected only together with a start, and differs from it; neither is
    the empty string; the blocked edges are those of the simulated fire in
    emergency mode and none otherwise. *)
Definition selection_ok (st : selection) : Prop :=
  (is_set (selectedEnd st) = true ->
   is_set (selectedStart st) = true /\ selectedEnd st <> selectedStart st)
  /\ selectedStart st <> Some ""
  /\ selectedEnd st <> Some ""
  /\ blockedEdges st = (if emergencyMode st then FIRE else []).

(* ================================================================== *)
(** ** The node under the pointer ([handleClick] and the hover detection
       of [src/MapView.jsx]) *)

Section Pointer.

Context {num : Type} `{NumOps num}.

(** The literal [2] of [d < 2]. *)
Variable two : num.

(** [Math.sqrt((n.x - world.x) ** 2 + (n.y - world.y) ** 2)] *)
Definition pointer_dist (wx wy : num) (n : node num) : num :=
  Math_sqrt (add (mul (sub (x n) wx) (sub (x n) wx))
                 (mul (sub (y n) wy) (sub (y n) wy))).

(** The body of [NODES.forEach] on the pair of [closest] and
    [closestDist]. *)
Definition closest_step (wx wy : num) (acc : option (node num) * jsnum num)
    (n : node num) : option (node num) * jsnum num :=
  let d := pointer_dist wx wy n in
  if jlt (Fin d) (snd acc) && ltb d two then (Some n, Fin d) else acc.

(** [closest] after the scan, for the world point [(wx, wy)]; the hover
    detection runs the same scan and keeps the id of the node. *)
Definition closest_node (wx wy : num) (nodes : list (node num)) : option (node num) :=
  fst (fold_left (closest_step wx wy) nodes (None, Infinity)).

(** [handleClick] of the flat view from the world point on, the canvas
    being there; [view] is [mode === 'view']. *)
Definition handleClick (view : bool) (wx wy : num) (nodes : list (node num))
    (st : selection) : selection :=
  if view then st
  else
    match closest_node wx wy nodes with
    | Some closest => choose (id closest) st
    | None => st
    end.

End Pointer.

(* ================================================================== *)
(** ** The profile ([handleDisabilityChange] of [src/App.jsx]) *)

(** The value of [useState] for [disabilities]. *)
Definition no_choice : obj bool :=
  [("wheelchair", false); ("visuallyImpaired", false); ("hearingImpaired", false);
   ("anxiety", false); ("none", false)].

(** [!prev[key]]: a missing member is [undefined], which is falsy. *)
Definition flag (key : string) (prev : obj bool) : bool :=
  match obj_get key prev with
  | Some b => b
  | None => false
  end.

Definition handleDisabilityChange (key : string) (prev : obj bool) : obj bool :=
  if String.eqb key "none" then
    [("wheelchair", false); ("visuallyImpaired", false); ("hearingImpaired", false);
     ("anxiety", false); ("none", true)]
  else obj_set "none" false (obj_set key (negb (flag key prev)) prev).

(* ================================================================== *)
(** ** Facts about objects and sets *)

Module JsFacts.

Lemma set_has_In (k : string) (s : list string) : set_has k s = true <-> In k s.
Proof.
  unfold set_has. rewrite existsb_exists. split.
  - intros [y [Hy He]]. apply String.eqb_eq in He. now subst.
  - intros Hk. exists k. split; [assumption | apply String.eqb_refl].
Qed.

Lemma set_has_false (k : string) (s : list string) : set_has k s = false <-> ~ In k s.
Proof.
  rewrite <- set_has_In. destruct (set_has k s); split; congruence.
Qed.

Lemma obj_get_set_eq {V} (k : string) (v : V) (o : obj V) :
  obj_get k (obj_set k v o) = Some v.
Proof.
  induction o as [|[k' v'] r IH]; simpl.
  - now rewrite String.eqb_refl.
  - destruct (String.eqb k' k) eqn:E; simpl; rewrite E; auto.
Qed.

Lemma obj_get_set_neq {V} (k k' : string) (v : V) (o : obj V) :
  k <> k' -> obj_get k' (obj_set k v o) = obj_get k' o.
Proof.
  intros Hne. induction o as [|[k0 v0] r IH]; simpl.
  - destruct (String.eqb k k') eqn:E; [apply String.eqb_eq in E; contradiction | reflexivity].
  - destruct (String.eqb k0 k) eqn:E; simpl.
    + apply String.eqb_eq in E. subst k0.
      destruct (String.eqb k k') eqn:E'; [apply String.eqb_eq in E'; contradiction | reflexivity].
    + now rewrite IH.
Qed.

Lemma obj_get_In_keys {V} (k : string) (o : obj V) :
  In k (own_keys o) <-> obj_get k o <> None.
Proof.
  induction o as [|[k' v'] r IH]; simpl.
  - split; [tauto | congruence].
  - destruct (String.eqb k' k) eqn:E.
    + apply String.eqb_eq in E. split; [congruence | auto].
    + apply String.eqb_neq in E. rewrite <- IH. tauto.
Qed.

Lemma obj_get_Some_keys {V} (k : string) (v : V) (o : obj V) :
  obj_get k o = Some v -> In k (own_keys o).
Proof. intros Hg. apply obj_get_In_keys. congruence. Qed.

Lemma own_keys_set_present {V} (k : string) (v : V) (o : obj V) :
  obj_get k o <> None -> own_keys (obj_set k v o) = own_keys o.
Proof.
  induction o as [|[k' v'] r IH]; simpl; intros Hg.
  - congruence.
  - destruct (String.eqb k' k) eqn:E; simpl; [reflexivity|].
    f_equal. now apply IH.
Qed.

Lemma own_keys_set_In {V} (k k' : string) (v : V) (o : obj V) :
  In k' (own_keys (obj_set k v o)) <-> k' = k \/ In k' (own_keys o).
Proof.
  rewrite !obj_get_In_keys. destruct (string_dec k k') as [->|Hne].
  - rewrite obj_get_set_eq. split; [auto | congruence].
  - rewrite obj_get_set_neq by assumption. split; [auto | intros [->|]; congruence].
Qed.

Lemma insert_index_In (p q : N * string) (l : list (N * string)) :
  In q (insert_index p l) <-> q = p \/ In q l.
Proof.
  induction l as [|a r IH]; simpl.
  - intuition congruence.
  - destruct (fst p <=? fst a)%N; simpl; [intuition congruence|].
    rewrite IH. intuition congruence.
Qed.

Lemma sort_index_In (q : N * string) (l : list (N * string)) :
  In q (sort_index l) <-> In q l.
Proof.
  induction l as [|a r IH]; simpl; [tauto|].
  rewrite insert_index_In, IH. intuition congruence.
Qed.

Lemma index_keys_In (k : string) (ks : list string) :
  (exists n, In (n, k) (index_keys ks)) <-> In k ks /\ is_named k = false.
Proof.
  unfold is_named. induction ks as [|a r IH]; simpl.
  - split; [intros [n []] | tauto].
  - destruct (array_index a) eqn:E; simpl.
    + split.
      * intros [n' [Heq | Hin]].
        -- inversion Heq; subst. rewrite E. auto.
        -- destruct (proj1 IH (ex_intro _ n' Hin)) as [H1 H2]. auto.
      * intros [[-> | Hin] Hn].
        -- exists n. auto.
        -- destruct (proj2 IH (conj Hin Hn)) as [n' Hn']. exists n'. auto.
    + rewrite IH. split.
      * intros [H1 H2]; auto.
      * intros [[-> | Hin] Hn]; [rewrite E in Hn; discriminate | auto].
Qed.

(** [for ... in] visits exactly the keys of the object. *)
Lemma obj_keys_In {V} (k : string) (o : obj V) :
  In k (obj_keys o) <-> In k (own_keys o).
Proof.
  unfold obj_keys. rewrite in_app_iff, filter_In, in_map_iff. split.
  - intros [[[n k'] [Hs Hin]] | [Hin _]]; [|assumption].
    simpl in Hs. subst k'. apply (proj1 (sort_index_In _ _)) in Hin.
    destruct (proj1 (index_keys_In k (own_keys o))) as [Hk _]; [now exists n | exact Hk].
  - intros Hin. destruct (is_named k) eqn:E; [right; auto | left].
    destruct (proj2 (index_keys_In k _) (conj Hin E)) as [n Hn].
    exists (n, k). split; [reflexivity | now apply (proj2 (sort_index_In _ _))].
Qed.

Lemma obj_push_get {V} (k : string) (v : V) (o : obj (list V)) (u : string) :
  obj_get u (obj_push k v o) =
  match obj_get u o with
  | Some l0 => Some (if String.eqb k u then l0 ++ [v] else l0)
  | None => None
  end.
Proof.
  induction o as [|[k' l'] r IH]; simpl; [reflexivity|].
  destruct (String.eqb k' k) eqn:E; simpl.
  - apply String.eqb_eq in E. subst k'.
    destruct (String.eqb k u) eqn:E'; [reflexivity | now destruct (obj_get u r)].
  - destruct (String.eqb k' u) eqn:E'; [|exact IH].
    apply String.eqb_eq in E'. subst k'.
    rewrite String.eqb_sym, E. reflexivity.
Qed.

End JsFacts.
Import JsFacts.

(* ================================================================== *)
(** ** Order facts *)

Section OrderFacts.

Context {num : Type} {ops : NumOps num} {laws : NumLaws num}.

Lemma le_refl (a : num) : le a a.
Proof.
  unfold le. destruct (ltb a a) eqn:E; [|reflexivity].
  pose proof (lt_le _ _ E) as E'. unfold le in E'. congruence.
Qed.

Lemma le_total (a b : num) : le a b \/ le b a.
Proof.
  unfold le. destruct (ltb b a) eqn:E; [right | left; reflexivity].
  exact (lt_le _ _ E).
Qed.

Lemma lt_le_trans (a b c : num) : ltb a b = true -> le b c -> ltb a c = true.
Proof.
  intros Hab Hbc. destruct (ltb a c) eqn:E; [reflexivity|].
  assert (Hca : le c a) by exact E.
  pose proof (le_trans _ _ _ Hbc Hca) as Hba. unfold le in Hba. congruence.
Qed.

Lemma le_lt_trans (a b c : num) : le a b -> ltb b c = true -> ltb a c = true.
Proof.
  intros Hab Hbc. destruct (ltb a c) eqn:E; [reflexivity|].
  assert (Hca : le c a) by exact E.
  pose proof (le_trans _ _ _ Hca Hab) as Hcb. unfold le in Hcb. congruence.
Qed.

Lemma lt_trans (a b c : num) : ltb a b = true -> ltb b c = true -> ltb a c = true.
Proof. intros Hab Hbc. eapply lt_le_trans; [exact Hab | now apply lt_le]. Qed.

Lemma lt_asym (a b : num) : ltb a b = true -> ltb b a = false.
Proof. exact (lt_le a b). Qed.

Lemma jle_refl (a : jsnum num) : jle a a.
Proof. destruct a; unfold jle; simpl; [apply le_refl | reflexivity]. Qed.

Lemma jle_trans (a b c : jsnum num) : jle a b -> jle b c -> jle a c.
Proof.
  unfold jle. destruct a, b, c; simpl; try congruence.
  intros Hab Hbc. exact (le_trans _ _ _ Hab Hbc).
Qed.

Lemma jlt_jle (a b : jsnum num) : jlt a b = true -> jle a b.
Proof.
  unfold jle. destruct a, b; simpl; try congruence. apply lt_le.
Qed.

Lemma jle_Fin (a b : num) : jle (Fin a) (Fin b) <-> le a b.
Proof. unfold jle, le. simpl. tauto. Qed.

Lemma jle_Fin_inv (a : jsnum num) (b : num) :
  jle a (Fin b) -> exists r, a = Fin r /\ le r b.
Proof.
  unfold jle. destruct a; simpl; [eauto | discriminate].
Qed.

Lemma jle_Infinity (a : jsnum num) : jle a Infinity.
Proof. reflexivity. Qed.

Lemma jle_jnum (a : jsnum num) (b : num) : jle a (Fin b) -> jle a (jnum b).
Proof. intros Hle. unfold jnum. destruct (is_inf b); [apply jle_Infinity | exact Hle]. Qed.

Lemma jnum_Fin (b : num) : is_inf b = false -> jnum b = Fin b.
Proof. intros Hb. unfold jnum. now rewrite Hb. Qed.

Lemma jnum_Infinity (b : num) : is_inf b = true -> jnum b = Infinity.
Proof. intros Hb. unfold jnum. now rewrite Hb. Qed.

Lemma jlt_Fin_l (a b : jsnum num) : jlt a b = true -> exists r, a = Fin r.
Proof. destruct a; simpl; [eauto | discriminate]. Qed.

End OrderFacts.

(* ================================================================== *)
(** ** The scan for the nearest unvisited node *)

Section ScanFacts.

Context {num : Type} {ops : NumOps num} {laws : NumLaws num}.

Variable d : obj (jsnum num).
Variable vis : list string.

Lemma scan_step_scanned (seen : list string) (acc : option string * jsnum num) (k : string) :
  scanned d vis seen acc -> scanned d vis (seen ++ [k]) (scan_step d vis acc k).
Proof.
  intros [Hmin Hacc]. unfold scan_step.
  destruct (obj_get k d) as [dk|] eqn:Hk.
  - destruct (negb (set_has k vis) && jlt dk (snd acc)) eqn:Hc.
    + apply andb_true_iff in Hc. destruct Hc as [Hv Hlt].
      apply negb_true_iff, set_has_false in Hv.
      split; simpl.
      * intros k' dk' Hin Hnv Hg. apply in_app_or in Hin.
        destruct Hin as [Hin | [<- | []]].
        -- eapply jle_trans; [apply jlt_jle; exact Hlt | eapply Hmin; eauto].
        -- rewrite Hk in Hg. inversion Hg. apply jle_refl.
      * repeat split; auto.
        -- apply in_or_app. right. now left.
        -- eapply jlt_Fin_l; eauto.
    + split.
      * intros k' dk' Hin Hnv Hg. apply in_app_or in Hin.
        destruct Hin as [Hin | [<- | []]]; [eapply Hmin; eauto|].
        rewrite Hk in Hg. inversion Hg; subst dk'.
        apply andb_false_iff in Hc. destruct Hc as [Hc | Hc]; [|exact Hc].
        apply negb_false_iff, set_has_In in Hc. contradiction.
      * destruct (fst acc); [|exact Hacc].
        destruct Hacc as (H1 & H2 & H3 & H4). repeat split; auto.
        apply in_or_app. now left.
  - split.
    + intros k' dk' Hin Hnv Hg. apply in_app_or in Hin.
      destruct Hin as [Hin | [<- | []]]; [eapply Hmin; eauto | congruence].
    + destruct (fst acc); [|exact Hacc].
      destruct Hacc as (H1 & H2 & H3 & H4). repeat split; auto.
      apply in_or_app. now left.
Qed.

Lemma scan_fold_scanned (l seen : list string) (acc : option string * jsnum num) :
  scanned d vis seen acc -> scanned d vis (seen ++ l) (fold_left (scan_step d vis) l acc).
Proof.
  revert seen acc. induction l as [|k l IH]; intros seen acc Hs; simpl.
  - now rewrite app_nil_r.
  - replace (seen ++ k :: l) with ((seen ++ [k]) ++ l) by (now rewrite <- app_assoc).
    apply IH. now apply scan_step_scanned.
Qed.

(** The scan returns an unvisited key whose distance is finite and
    smallest among the unvisited keys, or nothing when every unvisited key
    is at [Infinity]. *)
Lemma pick_min_spec :
  match fst (pick_min d vis) with
  | None => forall k dk, ~ In k vis -> obj_get k d = Some dk -> dk = Infinity
  | Some m =>
      In m (own_keys d) /\ ~ In m vis
      /\ exists dm, obj_get m d = Some (Fin dm)
                    /\ forall k dk, ~ In k vis -> obj_get k d = Some dk -> jle (Fin dm) dk
  end.
Proof.
  assert (Hs : scanned d vis (obj_keys d) (pick_min d vis)).
  { unfold pick_min. apply (scan_fold_scanned (obj_keys d) []).
    split; simpl; [intros k dk [] | reflexivity]. }
  destruct Hs as [Hmin Hacc].
  assert (Hkeys : forall k dk, obj_get k d = Some dk -> In k (obj_keys d)).
  { intros k dk Hg. apply obj_keys_In. eapply obj_get_Some_keys; eauto. }
  destruct (fst (pick_min d vis)) as [m|].
  - destruct Hacc as (H1 & H2 & H3 & [r Hr]).
    split; [now apply obj_keys_In|]. split; [assumption|].
    exists r. rewrite Hr in *. split; [assumption|].
    intros k dk Hnv Hg. apply (Hmin k dk); eauto.
  - intros k dk Hnv Hg. pose proof (Hmin k dk (Hkeys _ _ Hg) Hnv Hg) as Hle.
    rewrite Hacc in Hle. unfold jle in Hle. destruct dk; simpl in Hle; congruence.
Qed.

End ScanFacts.

(* ================================================================== *)
(** ** Paths along [prev] *)

Lemma last_cons_default {A} (l : list A) (a d d' : A) :
  last (a :: l) d = last (a :: l) d'.
Proof.
  revert a. induction l as [|b l IH]; intros a; [reflexivity|].
  change (last (b :: l) d = last (b :: l) d'). apply IH.
Qed.

Lemma last_cons {A} (l : list A) (a d : A) : last (a :: l) d = last l a.
Proof.
  destruct l as [|b l]; [reflexivity|].
  change (last (b :: l) d = last (b :: l) a). apply last_cons_default.
Qed.

Lemma NoDup_snoc {A} (l : list A) (a : A) : NoDup l -> ~ In a l -> NoDup (l ++ [a]).
Proof.
  induction l as [|b l IH]; simpl; intros Hnd Hin.
  - constructor; [tauto | constructor].
  - inversion Hnd; subst. constructor.
    + rewrite in_app_iff. simpl. intuition congruence.
    + apply IH; tauto.
Qed.

Section TreeFacts.

Context {num : Type} {ops : NumOps num} {laws : NumLaws num}.

Variable adj : obj (list (string * num)).
Variable wt : string -> string -> num.
Variable s : string.

Hypothesis arc_wt : forall u v w, arc adj u v w -> w = wt u v.
Hypothesis arc_nonneg : forall u v w, arc adj u v w -> le zero w.

Lemma walk_length_snoc (acc : num) (u : string) (rest : list string) (v : string) :
  walk_length wt acc u (rest ++ [v])
  = add (walk_length wt acc u rest) (wt (last rest u) v).
Proof.
  revert acc u. induction rest as [|a rest IH]; intros acc u; simpl app; [reflexivity|].
  simpl walk_length. rewrite IH. now rewrite last_cons.
Qed.

Lemma awalk_snoc (u : string) (rest : list string) (v : string) (w : num) :
  awalk adj u rest -> arc adj (last rest u) v w -> awalk adj u (rest ++ [v]).
Proof.
  revert u. induction rest as [|a rest IH]; intros u Hw Ha.
  - simpl in *. split; [eauto | exact I].
  - destruct Hw as [H1 H2]. split; [exact H1|].
    apply IH; [exact H2|]. now rewrite last_cons in Ha.
Qed.

(** The sum of a walk is never below what it starts from. *)
Lemma walk_length_grows (rest : list string) (u : string) (acc : num) :
  awalk adj u rest -> le acc (walk_length wt acc u rest).
Proof.
  revert u acc. induction rest as [|v r IH]; intros u acc Hw; simpl.
  - apply le_refl.
  - destruct Hw as [[w Ha] Hr].
    eapply le_trans; [|apply IH; exact Hr].
    apply le_add_r. rewrite <- (arc_wt _ _ _ Ha). eapply arc_nonneg; eauto.
Qed.

Lemma tree_shape (d : obj (jsnum num)) (pv : obj string) (vis : list string)
    (v : string) (p : list string) (dv : num) :
  tree adj s d pv vis v p dv ->
  exists rest, p = s :: rest /\ last rest s = v /\ awalk adj s rest
               /\ walk_length wt zero s rest = dv /\ NoDup p
               /\ forall x, In x p -> x = v \/ In x vis.
Proof.
  induction 1 as [|u v p du w Ht IH Hu Hp Ha Hd Hn].
  - exists []. repeat split; auto.
    + constructor; [intros [] | constructor].
    + intros x [<- | []]. now left.
  - destruct IH as (rest & -> & Hl & Hw & Hlen & Hnd & Hin).
    exists (rest ++ [v]). repeat split.
    + apply last_last.
    + eapply awalk_snoc; [exact Hw | rewrite Hl; exact Ha].
    + rewrite walk_length_snoc, Hlen, Hl. f_equal. symmetry. now apply arc_wt.
    + change (NoDup ((s :: rest) ++ [v])). now apply NoDup_snoc.
    + intros x Hx. change (In x ((s :: rest) ++ [v])) in Hx.
      apply in_app_or in Hx. destruct Hx as [Hx | [<- | []]]; [|now left].
      right. destruct (Hin x Hx) as [-> | Hv]; assumption.
Qed.

Lemma tree_length (d : obj (jsnum num)) (pv : obj string) (vis : list string)
    (v : string) (p : list string) (dv : num) :
  tree adj s d pv vis v p dv -> List.length p <= S (List.length vis).
Proof.
  intros Ht. destruct (tree_shape _ _ _ _ _ _ Ht) as (rest & _ & _ & _ & _ & Hnd & Hin).
  change (List.length p <= List.length (v :: vis)).
  apply NoDup_incl_length; [exact Hnd|].
  intros x Hx. destruct (Hin x Hx) as [-> | Hv]; [now left | now right].
Qed.

(** A tree path survives every change that leaves its nodes alone. *)
Lemma tree_frame (d d' : obj (jsnum num)) (pv pv' : obj string) (vis vis' : list string)
    (v : string) (p : list string) (dv : num) :
  tree adj s d pv vis v p dv ->
  (forall x, In x p -> obj_get x d' = obj_get x d /\ obj_get x pv' = obj_get x pv) ->
  incl vis vis' ->
  tree adj s d' pv' vis' v p dv.
Proof.
  intros Ht. induction Ht as [|u v p du w Ht IH Hu Hp Ha Hd Hn]; intros Hsame Hincl.
  - constructor.
  - assert (Hv : In v (p ++ [v])) by (apply in_or_app; right; now left).
    destruct (Hsame v Hv) as [Hd' Hp'].
    econstructor; eauto; try congruence.
    apply IH; [|exact Hincl].
    intros x Hx. apply Hsame. apply in_or_app. now left.
Qed.

Lemma tree_dist (d : obj (jsnum num)) (pv : obj string) (vis : list string)
    (v : string) (p : list string) (dv : num) :
  obj_get s d = Some (Fin zero) ->
  tree adj s d pv vis v p dv -> obj_get v d = Some (Fin dv).
Proof. intros Hs Ht. destruct Ht; assumption. Qed.

(** Walking [prev] back from a node rebuilds its tree path. *)
Lemma walk_back_tree (d : obj (jsnum num)) (pv : obj string) (vis : list string)
    (v : string) (p : list string) (dv : num) :
  tree adj s d pv vis v p dv ->
  obj_get s pv = None ->
  (forall x, In x p -> truthy x = true) ->
  forall fuel acc, List.length p < fuel ->
                   walk_back fuel pv (Some v) acc = Some (p ++ acc).
Proof.
  intros Ht Hs. induction Ht as [|u v p du w Ht IH Hu Hp Ha Hd Hn]; intros Htr fuel acc Hf.
  - destruct fuel as [|[|f]]; simpl in Hf; try lia.
    simpl. rewrite (Htr s (or_introl eq_refl)), Hs. reflexivity.
  - destruct fuel as [|f]; [lia|].
    rewrite length_app in Hf. simpl in Hf.
    simpl. rewrite (Htr v) by (apply in_or_app; right; now left).
    rewrite Hp, IH.
    + now rewrite <- app_assoc.
    + intros x Hx. apply Htr. apply in_or_app. now left.
    + lia.
Qed.

End TreeFacts.

(* ================================================================== *)
(** ** The loop preserves the invariant *)

Section LoopFacts.

Context {num : Type} {ops : NumOps num} {laws : NumLaws num}.

Variable adj : obj (list (string * num)).
Variable wt : string -> string -> num.
Variable s : string.

Hypothesis arc_wt : forall u v w, arc adj u v w -> w = wt u v.
Hypothesis arc_nonneg : forall u v w, arc adj u v w -> le zero w.

Lemma Inv_change_done (done done' : string -> string -> num -> Prop)
    (d : obj (jsnum num)) (pv : obj string) (vis : list string) :
  Inv adj s done d pv vis ->
  (forall u v w du, In u vis -> arc adj u v w -> done' u v w ->
                    obj_get u d = Some (Fin du) ->
                    done u v w
                    \/ exists dv, obj_get v d = Some dv /\ jle dv (jnum (add du w))) ->
  Inv adj s done' d pv vis.
Proof.
  intros [] Hd. constructor; auto.
  intros u v w du Hu Ha Hdone Hg.
  destruct (Hd u v w du Hu Ha Hdone Hg) as [Hold | Hnew]; eauto.
Qed.

Lemma Mid_not_visited (m : string) (dm : num) (processed : list (string * num))
    (d : obj (jsnum num)) (pv : obj string) (vis : list string) (n : string) :
  Mid adj s m dm processed d pv vis -> ~ In n vis -> n <> m /\ n <> s.
Proof.
  intros [Hinv Hm Hmv Hmax] Hn. split.
  - intros ->. contradiction.
  - intros ->. apply Hn. apply (inv_vis_start _ _ _ _ _ _ Hinv).
    intros ->. contradiction.
Qed.

(** One round of the relaxation. *)
Lemma relax_Mid (m : string) (dm : num) (processed : list (string * num))
    (dp : obj (jsnum num) * obj string) (vis : list string) (n : string) (w : num) :
  Mid adj s m dm processed (fst dp) (snd dp) vis ->
  arc adj m n w ->
  Mid adj s m dm (processed ++ [(n, w)])
      (fst (relax m vis dp (n, w))) (snd (relax m vis dp (n, w))) vis
  /\ own_keys (fst (relax m vis dp (n, w))) = own_keys (fst dp).
Proof.
  destruct dp as [d pv]. simpl fst. simpl snd.
  intros HM Harc. pose proof HM as [Hinv Hm Hmv Hmax].
  assert (Hw : le dm (add dm w)) by (apply le_add_r; eapply arc_nonneg; eauto).
  unfold relax. simpl fst. simpl snd.
  destruct (set_has n vis) eqn:Hv.
  - (* the neighbour is visited: continue *)
    apply set_has_In in Hv. split; [|reflexivity]. simpl.
    constructor; auto.
    eapply Inv_change_done; [exact Hinv|].
    intros u v w' du Hu Ha Hdone Hg.
    destruct Hdone as [Hne | Hin]; [left; now left|].
    apply in_app_or in Hin. destruct Hin as [Hin | [Heq | []]]; [left; now right|].
    inversion Heq; subst v w'. destruct (string_dec u m) as [-> | Hne]; [|left; now left].
    right. rewrite Hm in Hg. inversion Hg; subst du.
    destruct (inv_vis_fin _ _ _ _ _ _ Hinv n Hv) as [dn Hdn].
    exists (Fin dn). split; [exact Hdn|]. apply jle_jnum.
    apply (jle_trans _ (Fin dm)); [apply (Hmax n); assumption | exact Hw].
  - apply set_has_false in Hv. rewrite Hm. simpl jadd.
    destruct (obj_get n d) as [dn|] eqn:Hdn;
      [|exfalso; eapply (inv_arc_key _ _ _ _ _ _ Hinv); eauto].
    destruct (is_inf (add dm w)) eqn:Hinf.
    { (* the sum is Infinity: nothing is below it *)
      rewrite (jnum_Infinity _ Hinf). simpl jlt_opt.
      split; [|reflexivity]. simpl.
      constructor; auto.
      eapply Inv_change_done; [exact Hinv|].
      intros u v w' du Hu Ha Hdone Hg.
      destruct Hdone as [Hne | Hin]; [left; now left|].
      apply in_app_or in Hin. destruct Hin as [Hin | [Heq | []]]; [left; now right|].
      inversion Heq; subst v w'. destruct (string_dec u m) as [-> | Hne]; [|left; now left].
      right. rewrite Hm in Hg. inversion Hg; subst du.
      exists dn. split; [exact Hdn|]. rewrite (jnum_Infinity _ Hinf). apply jle_Infinity. }
    rewrite (jnum_Fin _ Hinf).
    simpl jlt_opt. destruct (jlt (Fin (add dm w)) dn) eqn:Hlt.
    + (* the table is updated *)
      simpl fst. simpl snd.
      destruct (Mid_not_visited _ _ _ _ _ _ n HM Hv) as [Hnm Hns].
      assert (Hkeep : forall x, x <> n ->
                obj_get x (obj_set n (Fin (add dm w)) d) = obj_get x d
                /\ obj_get x (obj_set n m pv) = obj_get x pv).
      { intros x Hx. split; apply obj_get_set_neq; congruence. }
      assert (Hpath : forall v p dv, tree adj s d pv vis v p dv -> v <> n ->
                forall x, In x p -> x <> n).
      { intros v p dv Ht Hvn x Hx.
        destruct (tree_shape adj wt s arc_wt _ _ _ _ _ _ Ht) as (_ & _ & _ & _ & _ & _ & Hin).
        destruct (Hin x Hx) as [-> | Hxv]; [exact Hvn | intros ->; contradiction]. }
      split; [|apply own_keys_set_present; congruence].
      constructor.
      * constructor.
        -- rewrite (proj1 (Hkeep s (not_eq_sym Hns))). apply (inv_start_dist _ _ _ _ _ _ Hinv).
        -- rewrite (proj2 (Hkeep s (not_eq_sym Hns))). apply (inv_start_prev _ _ _ _ _ _ Hinv).
        -- intros v dv Hg. destruct (string_dec v n) as [-> | Hvn].
           ++ rewrite obj_get_set_eq in Hg. inversion Hg; subst dv.
              destruct (inv_tree _ _ _ _ _ _ Hinv m dm Hm) as [pm Hpm].
              exists (pm ++ [n]). econstructor; eauto.
              ** eapply tree_frame; [exact Hpm | | apply incl_refl].
                 intros x Hx. apply Hkeep. eapply Hpath; eauto.
              ** apply obj_get_set_eq.
              ** apply obj_get_set_eq.
              ** intros Hin. eapply Hpath; eauto.
           ++ rewrite (proj1 (Hkeep v Hvn)) in Hg.
              destruct (inv_tree _ _ _ _ _ _ Hinv v dv Hg) as [p Hp].
              exists p. eapply tree_frame; [exact Hp | | apply incl_refl].
              intros x Hx. apply Hkeep. eapply Hpath; eauto.
        -- intros v u Hg. destruct (string_dec v n) as [-> | Hvn].
           ++ exists (add dm w). apply obj_get_set_eq.
           ++ rewrite (proj1 (Hkeep v Hvn)). rewrite (proj2 (Hkeep v Hvn)) in Hg.
              eapply (inv_prev_fin _ _ _ _ _ _ Hinv); eauto.
        -- apply (inv_vis_start _ _ _ _ _ _ Hinv).
        -- intros u Hu. assert (Hne : u <> n) by (intros ->; contradiction).
           rewrite (proj1 (Hkeep u Hne)). now apply (inv_vis_fin _ _ _ _ _ _ Hinv).
        -- apply (inv_vis_truthy _ _ _ _ _ _ Hinv).
        -- apply (inv_vis_nodup _ _ _ _ _ _ Hinv).
        -- intros u v w' Ha. destruct (string_dec v n) as [-> | Hvn].
           ++ rewrite obj_get_set_eq. discriminate.
           ++ rewrite (proj1 (Hkeep v Hvn)). eapply (inv_arc_key _ _ _ _ _ _ Hinv); eauto.
        -- intros u v du dv Hu Hnv Hgu Hgv.
           assert (Hne : u <> n) by (intros ->; contradiction).
           rewrite (proj1 (Hkeep u Hne)) in Hgu.
           destruct (string_dec v n) as [-> | Hvn].
           ++ rewrite obj_get_set_eq in Hgv. inversion Hgv; subst dv.
              apply (jle_trans _ (Fin dm)); [apply (Hmax u); assumption | exact Hw].
           ++ rewrite (proj1 (Hkeep v Hvn)) in Hgv.
              eapply (inv_settled _ _ _ _ _ _ Hinv); eauto.
        -- intros u v w' du Hu Ha Hdone Hgu.
           assert (Hne : u <> n) by (intros ->; contradiction).
           rewrite (proj1 (Hkeep u Hne)) in Hgu.
           assert (Hold : (u <> m \/ In (v, w') processed) ->
                     exists dv, obj_get v (obj_set n (Fin (add dm w)) d) = Some dv
                                /\ jle dv (jnum (add du w'))).
           { intros Hdone'.
             destruct (inv_relaxed _ _ _ _ _ _ Hinv u v w' du Hu Ha Hdone' Hgu)
               as (dv & Hgv & Hle).
             destruct (string_dec v n) as [-> | Hvn].
             - exists (Fin (add dm w)). split; [apply obj_get_set_eq|].
               rewrite Hdn in Hgv. inversion Hgv; subst dv.
               apply (jle_trans _ dn); [apply jlt_jle; exact Hlt | exact Hle].
             - exists dv. split; [|exact Hle]. now rewrite (proj1 (Hkeep v Hvn)). }
           destruct Hdone as [Hum | Hin]; [apply Hold; now left|].
           apply in_app_or in Hin. destruct Hin as [Hin | [Heq | []]]; [apply Hold; now right|].
           inversion Heq; subst v w'.
           destruct (string_dec u m) as [-> | Hum]; [|apply Hold; now left].
           rewrite Hm in Hgu. inversion Hgu; subst du.
           exists (Fin (add dm w)). split; [apply obj_get_set_eq|].
           rewrite (jnum_Fin _ Hinf). apply jle_refl.
      * now rewrite (proj1 (Hkeep m (not_eq_sym Hnm))).
      * exact Hmv.
      * intros v dv Hvv Hg. assert (Hne : v <> n) by (intros ->; contradiction).
        rewrite (proj1 (Hkeep v Hne)) in Hg. eapply Hmax; eauto.
    + (* no improvement *)
      split; [|reflexivity]. simpl.
      constructor; auto.
      eapply Inv_change_done; [exact Hinv|].
      intros u v w' du Hu Ha Hdone Hg.
      destruct Hdone as [Hne | Hin]; [left; now left|].
      apply in_app_or in Hin. destruct Hin as [Hin | [Heq | []]]; [left; now right|].
      inversion Heq; subst v w'. destruct (string_dec u m) as [-> | Hne]; [|left; now left].
      right. rewrite Hm in Hg. inversion Hg; subst du.
      exists dn. split; [exact Hdn|]. rewrite (jnum_Fin _ Hinf). exact Hlt.
Qed.

Lemma relax_fold_Mid (m : string) (dm : num) (vis : list string) (l : list (string * num)) :
  forall (processed : list (string * num)) (dp : obj (jsnum num) * obj string),
    Mid adj s m dm processed (fst dp) (snd dp) vis ->
    (forall x, In x l -> arc adj m (fst x) (snd x)) ->
    Mid adj s m dm (processed ++ l)
        (fst (fold_left (relax m vis) l dp)) (snd (fold_left (relax m vis) l dp)) vis
    /\ own_keys (fst (fold_left (relax m vis) l dp)) = own_keys (fst dp).
Proof.
  induction l as [|[n w] l IH]; intros processed dp HM Harcs; simpl fold_left.
  - rewrite app_nil_r. auto.
  - destruct (relax_Mid m dm processed dp vis n w HM) as [HM' Hk].
    { apply (Harcs (n, w)). now left. }
    destruct (IH (processed ++ [(n, w)]) (relax m vis dp (n, w)) HM') as [HM'' Hk'].
    { intros x Hx. apply Harcs. now right. }
    rewrite <- app_assoc in HM''. split; [exact HM'' | congruence].
Qed.

(** One pass through the body that does not break. *)
Lemma step_inl (endId : string) (st st' : state) :
  Inv adj s all_done (dist st) (prev st) (visited st) ->
  step endId adj st = inl st' ->
  Inv adj s all_done (dist st') (prev st') (visited st')
  /\ own_keys (dist st') = own_keys (dist st)
  /\ exists m, visited st' = m :: visited st
               /\ In m (own_keys (dist st)) /\ ~ In m (visited st).
Proof.
  destruct st as [d pv vis]. simpl. intros Hinv. unfold step. simpl.
  pose proof (pick_min_spec d vis) as Hpick.
  destruct (fst (pick_min d vis)) as [m|]; [|discriminate].
  destruct Hpick as (Hkey & Hnv & dm & Hm & Hmin).
  destruct (negb (truthy m) || String.eqb m endId) eqn:Hbrk; [discriminate|].
  apply orb_false_iff in Hbrk. destruct Hbrk as [Htr _].
  apply negb_false_iff in Htr.
  intros Heq. inversion Heq; subst st'; clear Heq. simpl.
  assert (HM : Mid adj s m dm [] d pv (m :: vis)).
  { constructor.
    - constructor.
      + apply (inv_start_dist _ _ _ _ _ _ Hinv).
      + apply (inv_start_prev _ _ _ _ _ _ Hinv).
      + intros v dv Hg. destruct (inv_tree _ _ _ _ _ _ Hinv v dv Hg) as [p Hp].
        exists p. eapply tree_frame; [exact Hp | auto | apply incl_tl, incl_refl].
      + apply (inv_prev_fin _ _ _ _ _ _ Hinv).
      + intros _. destruct (inv_tree _ _ _ _ _ _ Hinv m dm Hm) as [p Hp].
        destruct (tree_shape adj wt s arc_wt _ _ _ _ _ _ Hp) as (rest & -> & _ & _ & _ & _ & Hin).
        destruct (Hin s (or_introl eq_refl)) as [-> | Hs]; [now left | now right].
      + intros u [<- | Hu]; [eauto | now apply (inv_vis_fin _ _ _ _ _ _ Hinv)].
      + intros u [<- | Hu]; [exact Htr | now apply (inv_vis_truthy _ _ _ _ _ _ Hinv)].
      + constructor; [exact Hnv | apply (inv_vis_nodup _ _ _ _ _ _ Hinv)].
      + apply (inv_arc_key _ _ _ _ _ _ Hinv).
      + intros u v du dv [<- | Hu] Hv Hgu Hgv.
        * rewrite Hm in Hgu. inversion Hgu; subst du.
          apply (Hmin v dv); [|exact Hgv]. intros Hin. apply Hv. now right.
        * apply (inv_settled _ _ _ _ _ _ Hinv u v du dv Hu);
            [intros Hin; apply Hv; now right | exact Hgu | exact Hgv].
      + intros u v w du [<- | Hu] Ha [Hne | []] Hgu; [congruence|].
        exact (inv_relaxed _ _ _ _ _ _ Hinv u v w du Hu Ha I Hgu).
    - exact Hm.
    - now left.
    - intros v dv [<- | Hv] Hg.
      + rewrite Hm in Hg. inversion Hg. apply jle_refl.
      + exact (inv_settled _ _ _ _ _ _ Hinv v m dv (Fin dm) Hv Hnv Hg Hm). }
  destruct (relax_fold_Mid m dm (m :: vis) (neighbours adj m) [] (d, pv) HM) as [HM' Hk].
  { intros [v w] Hx. exact Hx. }
  simpl in Hk. split; [|split; [exact Hk | eauto]].
  eapply Inv_change_done; [apply (mid_inv _ _ _ _ _ _ _ _ HM')|].
  intros u v w du Hu Ha _ Hg. left.
  destruct (string_dec u m) as [-> | Hne]; [right; exact Ha | now left].
Qed.

Lemma step_inr (endId : string) (st st' : state) :
  step endId adj st = inr st' -> st' = st.
Proof.
  unfold step. destruct (fst (pick_min (dist st) (visited st))) as [m|].
  - destruct (negb (truthy m) || String.eqb m endId); congruence.
  - congruence.
Qed.

Lemma filter_length_drop (f g : string -> bool) (l : list string) (m : string) :
  (forall k, g k = true -> f k = true) -> In m l -> f m = true -> g m = false ->
  List.length (filter g l) < List.length (filter f l).
Proof.
  intros Hgf. induction l as [|a l IH]; simpl; [tauto|].
  assert (Hle : List.length (filter g l) <= List.length (filter f l)).
  { clear IH. induction l as [|b l IHl]; simpl; [lia|].
    destruct (g b) eqn:Eg.
    - rewrite (Hgf b Eg). simpl. lia.
    - destruct (f b); simpl; lia. }
  intros [-> | Hin] Hf Hg.
  - rewrite Hf, Hg. simpl. lia.
  - specialize (IH Hin Hf Hg). destruct (g a) eqn:Eg.
    + rewrite (Hgf a Eg). simpl. lia.
    + destruct (f a); simpl; lia.
Qed.

(** The loop stops before its fuel is spent, in a state where the
    invariant holds and the next pass breaks. *)
Lemma dijkstra_loop_spec (endId : string) (fuel : nat) :
  forall st : state,
    Inv adj s all_done (dist st) (prev st) (visited st) ->
    unvisited (dist st) (visited st) < fuel ->
    exists st', dijkstra_loop fuel endId adj st = Some st'
                /\ Inv adj s all_done (dist st') (prev st') (visited st')
                /\ step endId adj st' = inr st'
                /\ own_keys (dist st') = own_keys (dist st).
Proof.
  induction fuel as [|fuel IH]; intros st Hinv Hfuel; [lia|].
  simpl. destruct (step endId adj st) as [st1 | st1] eqn:Hstep.
  - destruct (step_inl endId st st1 Hinv Hstep) as (Hinv1 & Hk & m & Hvis & Hkey & Hnv).
    destruct (IH st1 Hinv1) as (st' & Hl & Hinv' & Hbrk & Hk').
    { unfold unvisited in *. rewrite Hk, Hvis.
      assert (Hlt : List.length (filter (fun k => negb (set_has k (m :: visited st)))
                                        (own_keys (dist st)))
                    < List.length (filter (fun k => negb (set_has k (visited st)))
                                          (own_keys (dist st)))).
      { apply (filter_length_drop _ _ _ m); auto.
        - intros k Hk1. apply negb_true_iff, set_has_false in Hk1.
          apply negb_true_iff, set_has_false. intros Hin. apply Hk1. now right.
        - apply negb_true_iff, set_has_false. exact Hnv.
        - apply negb_false_iff, set_has_In. now left. }
      lia. }
    exists st'. split; [exact Hl|]. split; [exact Hinv'|]. split; [exact Hbrk|]. congruence.
  - pose proof (step_inr _ _ _ Hstep) as ->. exists st. auto.
Qed.

End LoopFacts.

(* ================================================================== *)
(** ** What the table holds when the loop breaks *)

Section ExitFacts.

Context {num : Type} {ops : NumOps num} {laws : NumLaws num}.

Variable adj : obj (list (string * num)).
Variable wt : string -> string -> num.
Variable s : string.

Hypothesis arc_wt : forall u v w, arc adj u v w -> w = wt u v.
Hypothesis arc_nonneg : forall u v w, arc adj u v w -> le zero w.

Variable d : obj (jsnum num).
Variable pv : obj string.
Variable vis : list string.

Hypothesis Hinv : Inv adj s all_done d pv vis.

Context {inf : InfLaws num}.

(** What is below a number other than [Infinity] is not [Infinity]. *)
Lemma fin_below (a b : num) : le a b -> is_inf b = false -> is_inf a = false.
Proof.
  intros Hle Hb. destruct (is_inf a) eqn:Ha; [|reflexivity].
  rewrite (inf_up a b Ha Hle) in Hb. discriminate.
Qed.

(** The first hop of a walk whose sum is not [Infinity]: the sum up to it
    is not [Infinity], from [acc] and from anything below it. *)
Lemma first_hop_fin (r : list string) (u v : string) (w acc du : num) :
  arc adj u v w -> awalk adj v r -> le du acc ->
  is_inf (walk_length wt (add acc w) v r) = false ->
  is_inf (add du w) = false /\ le (add du w) (add acc w).
Proof.
  intros Ha Hr Hle Hfin.
  assert (Hacc : is_inf (add acc w) = false).
  { eapply fin_below; [|exact Hfin]. eapply walk_length_grows; eauto. }
  assert (Hmono : le (add du w) (add acc w)) by (now apply add_le_mono_l).
  split; [eapply fin_below; eauto | exact Hmono].
Qed.

(** No walk that starts at a visited node reaches [t] with a smaller sum
    than [dist[t]], when [t] is at least as near as every unvisited node. *)
Lemma lower_bound (t : string) (dt : num) :
  obj_get t d = Some (Fin dt) ->
  (forall v dv, ~ In v vis -> obj_get v d = Some dv -> jle (Fin dt) dv) ->
  forall rest u acc du,
    In u vis -> obj_get u d = Some (Fin du) -> le du acc ->
    awalk adj u rest -> last rest u = t ->
    is_inf (walk_length wt acc u rest) = false ->
    le dt (walk_length wt acc u rest).
Proof.
  intros Ht Hnear. induction rest as [|v r IH]; intros u acc du Hu Hgu Hle Hw Hl Hfin.
  - simpl in *. subst t. rewrite Hgu in Ht. inversion Ht; subst dt. exact Hle.
  - destruct Hw as [[w Ha] Hr]. rewrite last_cons in Hl. simpl walk_length in *.
    destruct (inv_relaxed _ _ _ _ _ _ Hinv u v w du Hu Ha I Hgu) as (dv & Hgv & Hdv).
    rewrite <- (arc_wt _ _ _ Ha) in *.
    destruct (first_hop_fin r u v w acc du Ha Hr Hle Hfin) as [Hdu Hmono].
    rewrite (jnum_Fin _ Hdu) in Hdv.
    apply jle_Fin_inv in Hdv. destruct Hdv as (x & -> & Hx).
    assert (Hxa : le x (add acc w)) by (eapply le_trans; eauto).
    destruct (in_dec string_dec v vis) as [Hv | Hv].
    + eapply IH; eauto.
    + assert (Hdt : le dt x) by (apply (Hnear v (Fin x) Hv Hgv)).
      eapply le_trans; [exact Hdt|]. eapply le_trans; [exact Hxa|].
      eapply walk_length_grows; eauto.
Qed.

(** A walk with a sum other than [Infinity] that leaves the visited set
    passes an unvisited node whose distance is not [Infinity]. *)
Lemma crossing :
  forall rest u acc du,
    In u vis -> obj_get u d = Some (Fin du) -> le du acc ->
    awalk adj u rest -> is_inf (walk_length wt acc u rest) = false ->
    ~ In (last rest u) vis ->
    exists y dy, ~ In y vis /\ obj_get y d = Some (Fin dy).
Proof.
  induction rest as [|v r IH]; intros u acc du Hu Hgu Hle Hw Hfin Hl.
  - simpl in Hl. contradiction.
  - destruct Hw as [[w Ha] Hr]. rewrite last_cons in Hl. simpl walk_length in *.
    destruct (inv_relaxed _ _ _ _ _ _ Hinv u v w du Hu Ha I Hgu) as (dv & Hgv & Hdv).
    rewrite <- (arc_wt _ _ _ Ha) in *.
    destruct (first_hop_fin r u v w acc du Ha Hr Hle Hfin) as [Hdu Hmono].
    rewrite (jnum_Fin _ Hdu) in Hdv.
    apply jle_Fin_inv in Hdv. destruct Hdv as (x & -> & Hx).
    destruct (in_dec string_dec v vis) as [Hv | Hv]; [|eauto].
    eapply (IH v (add acc w) x); eauto. eapply le_trans; eauto.
Qed.

Variable endId : string.

Hypothesis Hbreak : step endId adj (mkState d pv vis) = inr (mkState d pv vis).

(** The three ways in which the loop breaks. *)
Lemma break_cases :
  (forall k dk, ~ In k vis -> obj_get k d = Some dk -> dk = Infinity)
  \/ In "" (own_keys d)
  \/ (~ In endId vis
      /\ exists de, obj_get endId d = Some (Fin de)
                    /\ forall k dk, ~ In k vis -> obj_get k d = Some dk -> jle (Fin de) dk).
Proof.
  pose proof (pick_min_spec d vis) as Hpick. unfold step in Hbreak. simpl in Hbreak.
  destruct (fst (pick_min d vis)) as [m|]; [|now left].
  destruct Hpick as (Hkey & Hnv & dm & Hm & Hmin). right.
  destruct (truthy m) eqn:Htr.
  - right. simpl in Hbreak. destruct (String.eqb m endId) eqn:He; [|discriminate].
    apply String.eqb_eq in He. subst m. eauto.
  - left. unfold truthy in Htr. apply negb_false_iff, String.eqb_eq in Htr. now subst m.
Qed.

(** When no key is the empty string, a target that a walk from the start
    reaches has a finite distance in the table, and no such walk is
    shorter. *)
Lemma exit_optimal (rest : list string) :
  ~ In "" (own_keys d) ->
  awalk adj s rest -> last rest s = endId ->
  is_inf (walk_length wt zero s rest) = false ->
  exists de, obj_get endId d = Some (Fin de) /\ le de (walk_length wt zero s rest).
Proof.
  intros Hne Hw Hl Hfin.
  pose proof (inv_start_dist _ _ _ _ _ _ Hinv) as Hs.
  destruct break_cases as [Hall | [Hempty | (Hnv & de & Hde & Hmin)]]; [|contradiction|].
  - assert (Hsv : In s vis).
    { destruct (in_dec string_dec s vis) as [Hsv | Hsv]; [exact Hsv|].
      specialize (Hall s _ Hsv Hs). discriminate. }
    destruct (in_dec string_dec endId vis) as [Hev | Hev].
    + destruct (inv_vis_fin _ _ _ _ _ _ Hinv endId Hev) as [de Hde].
      exists de. split; [exact Hde|].
      apply (lower_bound endId de Hde) with (du := zero); auto.
      * intros v dv Hv Hgv. exact (inv_settled _ _ _ _ _ _ Hinv endId v _ dv Hev Hv Hde Hgv).
      * apply le_refl.
    + rewrite <- Hl in Hev.
      destruct (crossing rest s zero zero Hsv Hs (le_refl zero) Hw Hfin Hev)
        as (y & dy & Hy & Hgy).
      specialize (Hall y _ Hy Hgy). discriminate.
  - exists de. split; [exact Hde|].
    destruct (in_dec string_dec s vis) as [Hsv | Hsv].
    + apply (lower_bound endId de Hde Hmin) with (du := zero); auto. apply le_refl.
    + destruct (inv_tree _ _ _ _ _ _ Hinv endId de Hde) as [p Hp].
      destruct (tree_shape adj wt s arc_wt _ _ _ _ _ _ Hp) as (r & -> & _ & _ & _ & _ & Hin).
      destruct (Hin s (or_introl eq_refl)) as [He | Hs']; [|contradiction].
      rewrite <- He, Hs in Hde. inversion Hde; subst de.
      eapply walk_length_grows; eauto.
Qed.

(** The path that is returned for a target with a finite distance. *)
Lemma exit_path (de : num) :
  obj_get endId d = Some (Fin de) -> truthy endId = true ->
  exists rest,
    walk_back (S (S (List.length vis))) pv (Some endId) [] = Some (s :: rest)
    /\ last rest s = endId /\ awalk adj s rest
    /\ walk_length wt zero s rest = de /\ NoDup (s :: rest).
Proof.
  intros Hde Htr.
  destruct (inv_tree _ _ _ _ _ _ Hinv endId de Hde) as [p Hp].
  pose proof (tree_length adj wt s arc_wt _ _ _ _ _ _ Hp) as Hlen.
  destruct (tree_shape adj wt s arc_wt _ _ _ _ _ _ Hp)
    as (rest & Hpe & Hl & Hw & Hsum & Hnd & Hin).
  exists rest. rewrite <- Hpe. repeat split; auto.
  replace (Some p) with (Some (p ++ [])) by (now rewrite app_nil_r).
  eapply walk_back_tree; eauto.
  - apply (inv_start_prev _ _ _ _ _ _ Hinv).
  - intros x Hx. destruct (Hin x Hx) as [-> | Hv]; [exact Htr|].
    now apply (inv_vis_truthy _ _ _ _ _ _ Hinv).
  - lia.
Qed.

(** The walk back along [prev] always ends within its fuel. *)
Lemma walk_back_total :
  exists p, walk_back (S (S (List.length vis))) pv (Some endId) [] = Some p.
Proof.
  destruct (truthy endId) eqn:Htr.
  - destruct (obj_get endId pv) as [u|] eqn:Hp.
    + destruct (inv_prev_fin _ _ _ _ _ _ Hinv endId u Hp) as [de Hde].
      destruct (exit_path de Hde Htr) as (rest & Hw & _). eauto.
    + exists [endId]. simpl. now rewrite Htr, Hp.
  - exists []. simpl. now rewrite Htr.
Qed.

End ExitFacts.

(* ================================================================== *)
(** ** The tables built from the node and edge lists *)

Section GraphFacts.

Context {num : Type} {ops : NumOps num} {laws : NumLaws num}.

Lemma is_node_In (nodes : list (node num)) (k : string) :
  is_node nodes k = true <-> In k (map id nodes).
Proof.
  unfold is_node. rewrite existsb_exists, in_map_iff. split.
  - intros [n [Hn He]]. apply String.eqb_eq in He. eauto.
  - intros [n [He Hn]]. exists n. split; [exact Hn | subst; apply String.eqb_refl].
Qed.

Lemma fold_set_defined {V} (f : node num -> V) (nodes : list (node num)) (o : obj V)
    (k : string) :
  obj_get k (fold_left (fun m n => obj_set (id n) (f n) m) nodes o) <> None
  <-> obj_get k o <> None \/ In k (map id nodes).
Proof.
  revert o. induction nodes as [|a nodes IH]; intros o; simpl; [tauto|].
  rewrite IH. rewrite <- !obj_get_In_keys, own_keys_set_In. intuition congruence.
Qed.

Lemma fold_set_values {V} (P : V -> Prop) (f : node num -> V) (nodes : list (node num))
    (o : obj V) :
  (forall k v, obj_get k o = Some v -> P v) -> (forall n, P (f n)) ->
  forall k v, obj_get k (fold_left (fun m n => obj_set (id n) (f n) m) nodes o) = Some v -> P v.
Proof.
  intros Ho Hf. revert o Ho. induction nodes as [|a nodes IH]; intros o Ho; simpl; [exact Ho|].
  apply IH. intros k v. destruct (string_dec (id a) k) as [<- | Hne].
  - rewrite obj_get_set_eq. intros Heq. inversion Heq. apply Hf.
  - rewrite obj_get_set_neq by assumption. apply Ho.
Qed.

Lemma nodeMap_defined (nodes : list (node num)) (k : string) :
  obj_get k (build_nodeMap nodes) <> None <-> is_node nodes k = true.
Proof.
  unfold build_nodeMap. rewrite (fold_set_defined (fun n => n)), is_node_In.
  simpl. intuition congruence.
Qed.

Lemma fold_set_const_get {V} (c : V) (nodes : list (node num)) (k : string) :
  obj_get k (fold_left (fun m n => obj_set (id n) c m) nodes [])
  = if is_node nodes k then Some c else None.
Proof.
  pose proof (fold_set_defined (fun _ : node num => c) nodes [] k) as Hd.
  pose proof (fold_set_values (fun l => l = c) (fun _ : node num => c) nodes []) as Hv.
  rewrite <- is_node_In in Hd. simpl in Hd, Hv.
  destruct (obj_get k (fold_left (fun m n => obj_set (id n) c m) nodes [])) as [l|] eqn:Hg.
  - assert (Hl : l = c).
    { apply Hv with (k := k); [intros k0 v0 Hx; discriminate Hx | reflexivity | exact Hg]. }
    subst l. destruct (is_node nodes k); [reflexivity|].
    destruct (proj1 Hd ltac:(discriminate)) as [Hx | Hx]; congruence.
  - destruct (is_node nodes k); [|reflexivity].
    exfalso. apply (proj2 Hd); auto.
Qed.

Lemma init_adj_get (nodes : list (node num)) (k : string) :
  obj_get k (init_adj nodes) = if is_node nodes k then Some [] else None.
Proof. apply fold_set_const_get. Qed.

Lemma init_dist_get (s : string) (nodes : list (node num)) (k : string) :
  obj_get k (init_dist s nodes)
  = if String.eqb s k then Some (Fin zero)
    else if is_node nodes k then Some Infinity else None.
Proof.
  unfold init_dist. destruct (String.eqb s k) eqn:E.
  - apply String.eqb_eq in E. subst. apply obj_get_set_eq.
  - apply String.eqb_neq in E. rewrite obj_get_set_neq by assumption.
    apply fold_set_const_get.
Qed.

Lemma euclid_sym (n1 n2 : node num) : euclid n1 n2 = euclid n2 n1.
Proof.
  unfold euclid.
  now rewrite (sq_sub_sym (x n1) (x n2)), (sq_sub_sym (y n1) (y n2)).
Qed.

Lemma hop_length_sym (nodes : list (node num)) (u v : string) :
  hop_length nodes u v = hop_length nodes v u.
Proof.
  unfold hop_length.
  destruct (obj_get u (build_nodeMap nodes)), (obj_get v (build_nodeMap nodes));
    auto using euclid_sym.
Qed.

Lemma neighbours_push (k : string) (x : string * num) (a : obj (list (string * num)))
    (u : string) (y : string * num) :
  In y (neighbours (obj_push k x a) u)
  <-> In y (neighbours a u) \/ (k = u /\ obj_get u a <> None /\ y = x).
Proof.
  unfold neighbours. rewrite obj_push_get.
  destruct (obj_get u a) as [l|]; simpl; [|intuition congruence].
  destruct (String.eqb k u) eqn:E.
  - apply String.eqb_eq in E. rewrite in_app_iff. simpl. intuition congruence.
  - apply String.eqb_neq in E. intuition congruence.
Qed.

Lemma obj_push_defined (k : string) (x : string * num) (a : obj (list (string * num)))
    (u : string) :
  obj_get u (obj_push k x a) <> None <-> obj_get u a <> None.
Proof.
  rewrite obj_push_get. destruct (obj_get u a); intuition congruence.
Qed.

Variable nodes : list (node num).
Variable wheelchairMode : bool.
Variable blockedEdges : list blocked_edge.

Lemma add_edge_defined (a : obj (list (string * num))) (e : edge) (u : string) :
  obj_get u (add_edge wheelchairMode blockedEdges (build_nodeMap nodes) a e) <> None
  <-> obj_get u a <> None.
Proof.
  unfold add_edge.
  destruct (wheelchairMode && negb (e_accessible e)); [tauto|].
  destruct (isBlocked blockedEdges e); [tauto|].
  destruct (obj_get (from e) (build_nodeMap nodes)); [|tauto].
  destruct (obj_get (to e) (build_nodeMap nodes)); [|tauto].
  now rewrite !obj_push_defined.
Qed.

Lemma add_edge_arc (a : obj (list (string * num))) (e : edge) (u v : string) (w : num) :
  (forall k, is_node nodes k = true -> obj_get k a <> None) ->
  In (v, w) (neighbours (add_edge wheelchairMode blockedEdges (build_nodeMap nodes) a e) u)
  <-> In (v, w) (neighbours a u)
      \/ edge_entry nodes wheelchairMode blockedEdges e u v w.
Proof.
  intros Hkeys. unfold add_edge, edge_entry, survives.
  destruct (wheelchairMode && negb (e_accessible e)); simpl;
    [split; [auto | intros [? | [? _]]; [assumption | discriminate]]|].
  destruct (isBlocked blockedEdges e); simpl;
    [split; [auto | intros [? | [? _]]; [assumption | discriminate]]|].
  destruct (obj_get (from e) (build_nodeMap nodes)) as [n1|] eqn:H1;
    [|split; [auto | intros [? | (_ & ? & ? & ? & _)]; [assumption | discriminate]]].
  destruct (obj_get (to e) (build_nodeMap nodes)) as [n2|] eqn:H2;
    [|split; [auto | intros [? | (_ & ? & ? & _ & ? & _)]; [assumption | discriminate]]].
  assert (Hf : obj_get (from e) a <> None)
    by (apply Hkeys, nodeMap_defined; congruence).
  assert (Ht : obj_get (to e) a <> None)
    by (apply Hkeys, nodeMap_defined; congruence).
  rewrite !neighbours_push, obj_push_defined. split.
  - intros [[Hold | (Hu & _ & Hy)] | (Hu & _ & Hy)]; [now left | |];
      right; (split; [reflexivity|]); exists n1, n2; inversion Hy; subst; auto 10.
  - intros [Hold | (_ & m1 & m2 & Hm1 & Hm2 & Hw & Hdir)]; [now left; left|].
    inversion Hm1; inversion Hm2; subst m1 m2 w.
    destruct Hdir as [[-> ->] | [-> ->]]; [left; right | right]; auto.
Qed.

Lemma fold_add_edge_arc (edges : list edge) :
  forall (a : obj (list (string * num))) (u v : string) (w : num),
    (forall k, is_node nodes k = true -> obj_get k a <> None) ->
    In (v, w) (neighbours (fold_left (add_edge wheelchairMode blockedEdges
                                               (build_nodeMap nodes)) edges a) u)
    <-> In (v, w) (neighbours a u)
        \/ exists e, In e edges /\ edge_entry nodes wheelchairMode blockedEdges e u v w.
Proof.
  induction edges as [|e edges IH]; intros a u v w Hkeys; simpl.
  - split; [auto | intros [? | [e [[] _]]]; assumption].
  - rewrite IH by (intros k Hk; apply add_edge_defined; auto).
    rewrite add_edge_arc by assumption. split.
    + intros [[Hold | He] | [e' [Hin He]]]; eauto.
    + intros [Hold | [e' [[<- | Hin] He]]]; eauto.
Qed.

(** The entries of [adj] are the surviving edges between known nodes,
    in both directions. *)
Lemma build_adj_arc (edges : list edge) (u v : string) (w : num) :
  arc (build_adj nodes edges wheelchairMode blockedEdges) u v w
  <-> exists e, In e edges /\ edge_entry nodes wheelchairMode blockedEdges e u v w.
Proof.
  unfold arc, build_adj. rewrite fold_add_edge_arc.
  - unfold neighbours at 1. rewrite init_adj_get.
    destruct (is_node nodes u); simpl; tauto.
  - intros k Hk. rewrite init_adj_get, Hk. discriminate.
Qed.

Lemma edge_entry_sound (e : edge) (u v : string) (w : num) :
  edge_entry nodes wheelchairMode blockedEdges e u v w ->
  survives wheelchairMode blockedEdges e = true /\ joins e u v = true
  /\ is_node nodes u = true /\ is_node nodes v = true
  /\ w = hop_length nodes u v /\ le zero w.
Proof.
  intros (Hs & n1 & n2 & H1 & H2 & -> & Hdir).
  assert (Hn1 : is_node nodes (from e) = true) by (apply nodeMap_defined; congruence).
  assert (Hn2 : is_node nodes (to e) = true) by (apply nodeMap_defined; congruence).
  split; [exact Hs|]. unfold joins, hop_length.
  destruct Hdir as [[-> ->] | [-> ->]]; rewrite H1, H2, !String.eqb_refl; simpl;
    repeat split; auto using orb_true_r, euclid_sym; apply sqrt_nonneg.
Qed.

Lemma arc_sound (edges : list edge) (u v : string) (w : num) :
  arc (build_adj nodes edges wheelchairMode blockedEdges) u v w ->
  linked edges wheelchairMode blockedEdges u v = true
  /\ is_node nodes u = true /\ is_node nodes v = true
  /\ w = hop_length nodes u v /\ le zero w.
Proof.
  intros Ha. apply build_adj_arc in Ha. destruct Ha as [e [Hin He]].
  destruct (edge_entry_sound e u v w He) as (Hs & Hj & Hu & Hv & Hw & Hz).
  repeat split; auto.
  unfold linked. apply existsb_exists. exists e. split; [exact Hin|]. now rewrite Hs, Hj.
Qed.

Lemma linked_arc (edges : list edge) (u v : string) :
  linked edges wheelchairMode blockedEdges u v = true ->
  is_node nodes u = true -> is_node nodes v = true ->
  exists w, arc (build_adj nodes edges wheelchairMode blockedEdges) u v w.
Proof.
  unfold linked. rewrite existsb_exists. intros [e [Hin He]] Hu Hv.
  apply andb_true_iff in He. destruct He as [Hs Hj].
  apply nodeMap_defined in Hu. apply nodeMap_defined in Hv.
  destruct (obj_get u (build_nodeMap nodes)) as [nu|] eqn:Eu; [|congruence].
  destruct (obj_get v (build_nodeMap nodes)) as [nv|] eqn:Ev; [|congruence].
  unfold joins in Hj. apply orb_true_iff in Hj.
  destruct Hj as [Hj | Hj]; apply andb_true_iff in Hj; destruct Hj as [Hf Ht];
    apply String.eqb_eq in Hf; apply String.eqb_eq in Ht.
  - exists (euclid nu nv). apply build_adj_arc. exists e. split; [exact Hin|].
    split; [exact Hs|]. exists nu, nv. subst u v. auto 10.
  - exists (euclid nv nu). apply build_adj_arc. exists e. split; [exact Hin|].
    split; [exact Hs|]. exists nv, nu. subst u v. auto 10.
Qed.

(** The invariant holds before the first pass. *)
Lemma Inv_init (s : string) (edges : list edge) :
  Inv (build_adj nodes edges wheelchairMode blockedEdges) s all_done
      (init_dist s nodes) [] [].
Proof.
  constructor; try (intros; simpl in *; tauto || discriminate).
  - rewrite init_dist_get, String.eqb_refl. reflexivity.
  - intros v dv. rewrite init_dist_get. destruct (String.eqb s v) eqn:E.
    + apply String.eqb_eq in E. subst v. intros Heq. inversion Heq.
      exists [s]. constructor.
    + destruct (is_node nodes v); discriminate.
  - constructor.
  - intros u v w Ha. destruct (arc_sound _ _ _ _ Ha) as (_ & _ & Hv & _).
    rewrite init_dist_get, Hv. destruct (String.eqb s v); discriminate.
Qed.

End GraphFacts.

(* ================================================================== *)
(** ** What every pass of the loop keeps of the tables *)

Section TableFacts.

Context {num : Type} {ops : NumOps num} {laws : NumLaws num}.

Lemma relax_fold_keeps (Q : obj (jsnum num) * obj string -> Prop) (m : string)
    (vis : list string) (l : list (string * num)) :
  (forall dp nb, In nb l -> Q dp -> Q (relax m vis dp nb)) ->
  forall dp, Q dp -> Q (fold_left (relax m vis) l dp).
Proof.
  induction l as [|nb l IH]; intros Hstep dp Hdp; [exact Hdp|].
  simpl. apply IH.
  - intros dp' nb' Hin. apply Hstep. now right.
  - apply Hstep; [now left | exact Hdp].
Qed.

Lemma loop_keeps (P : state -> Prop) (endId : string) (adj : obj (list (string * num))) :
  (forall st st', P st -> step endId adj st = inl st' -> P st') ->
  forall fuel st st', P st -> dijkstra_loop fuel endId adj st = Some st' -> P st'.
Proof.
  intros Hstep. induction fuel as [|fuel IH]; intros st st' Hst; simpl; [discriminate|].
  destruct (step endId adj st) as [st1 | st1] eqn:Hs.
  - apply IH. eapply Hstep; eauto.
  - intros Heq. inversion Heq; subst st'.
    unfold step in Hs.
    destruct (fst (pick_min (dist st) (visited st))) as [m|].
    + destruct (negb (truthy m) || String.eqb m endId); [|discriminate].
      inversion Hs; subst st1. exact Hst.
    + inversion Hs; subst st1. exact Hst.
Qed.

(** What one pass does to the state. *)
Lemma step_inl_shape (endId : string) (adj : obj (list (string * num))) (st st' : state) :
  step endId adj st = inl st' ->
  exists m, In m (own_keys (dist st))
            /\ truthy m = true
            /\ visited st' = m :: visited st
            /\ (dist st', prev st')
               = fold_left (relax m (m :: visited st)) (neighbours adj m) (dist st, prev st).
Proof.
  unfold step.
  pose proof (pick_min_spec (dist st) (visited st)) as Hscan.
  destruct (fst (pick_min (dist st) (visited st))) as [m|]; [|discriminate].
  destruct Hscan as (Hkey & _).
  destruct (negb (truthy m) || String.eqb m endId) eqn:Hb; [discriminate|].
  apply orb_false_iff in Hb. destruct Hb as [Htr _]. apply negb_false_iff in Htr.
  intros Heq. inversion Heq; subst st'. simpl.
  exists m. split; [exact Hkey|]. split; [exact Htr|]. split; [reflexivity|].
  now destruct (fold_left _ _ _).
Qed.

(** A number that the relaxation stores is not [Infinity]. *)
Lemma relax_stores (m : string) (vis : list string)
    (dp : obj (jsnum num) * obj string) (nb : string * num) :
  relax m vis dp nb = dp
  \/ exists r, is_inf r = false
               /\ relax m vis dp nb
                  = (obj_set (fst nb) (Fin r) (fst dp), obj_set (fst nb) m (snd dp)).
Proof.
  unfold relax. destruct (set_has (fst nb) vis); [now left|].
  destruct (obj_get m (fst dp)) as [[a|]|]; try (now left).
  - simpl jadd. unfold jnum. destruct (is_inf (add a (snd nb))) eqn:Hinf.
    + left. destruct (obj_get (fst nb) (fst dp)); reflexivity.
    + destruct (jlt_opt _ _); [right; eauto | now left].
  - left. simpl. destruct (obj_get (fst nb) (fst dp)); reflexivity.
Qed.

End TableFacts.


(** No number of the distance table is [Infinity]: the table holds the
    constructor [Infinity] for it. *)
Section FiniteTable.

Context {num : Type} {ops : NumOps num} {laws : NumLaws num} {inf : InfLaws num}.

Lemma set_fin_table (k : string) (r : num) (d : obj (jsnum num)) :
  is_inf r = false -> fin_table d -> fin_table (obj_set k (Fin r) d).
Proof.
  intros Hr Hd k' r'. destruct (string_dec k k') as [<- | Hne].
  - rewrite obj_get_set_eq. intros Heq. inversion Heq; subst. exact Hr.
  - rewrite obj_get_set_neq by exact Hne. apply Hd.
Qed.

Lemma init_dist_fin (s : string) (nodes : list (node num)) :
  fin_table (init_dist s nodes).
Proof.
  intros k r. rewrite init_dist_get. destruct (String.eqb s k).
  - intros Heq. inversion Heq. apply zero_fin.
  - destruct (is_node nodes k); discriminate.
Qed.

Lemma step_fin_table (endId : string) (adj : obj (list (string * num))) (st st' : state) :
  fin_table (dist st) -> step endId adj st = inl st' -> fin_table (dist st').
Proof.
  intros Hfin Hs.
  destruct (step_inl_shape endId adj st st' Hs) as (m & _ & _ & _ & Hdp).
  change (dist st') with (fst (dist st', prev st')). rewrite Hdp.
  apply (relax_fold_keeps (fun dp => fin_table (fst dp))); [|exact Hfin].
  intros dp nb _ Hdp0.
  destruct (relax_stores m (m :: visited st) dp nb) as [-> | (r & Hr & ->)];
    [exact Hdp0 | now apply set_fin_table].
Qed.

(** The distance that [dijkstra] returns is not [Infinity]. *)
Lemma dijkstra_distance_fin (nodes : list (node num)) (edges : list edge)
    (wheelchairMode : bool) (blockedEdges : list blocked_edge) (s e : string)
    (r : route num) (d : num) :
  dijkstra s e nodes edges wheelchairMode blockedEdges = Some (Some r) ->
  distance r = Some (Fin d) -> is_inf d = false.
Proof.
  unfold dijkstra. cbv zeta.
  destruct (dijkstra_loop _ e _ _) as [st|] eqn:Hl; [|discriminate].
  assert (Hfin : fin_table (dist st)).
  { apply (loop_keeps (fun st => fin_table (dist st)) e
             (build_adj nodes edges wheelchairMode blockedEdges)
             (step_fin_table e (build_adj nodes edges wheelchairMode blockedEdges))
             _ (mkState (init_dist s nodes) [] []) st (init_dist_fin s nodes) Hl). }
  destruct (is_Infinity (obj_get e (dist st))); [discriminate|].
  destruct (walk_back _ _ _ _); [|discriminate].
  intros Heq. inversion Heq; subst r. simpl. apply Hfin.
Qed.

End FiniteTable.

(* ================================================================== *)
(** ** The laws hold in rational arithmetic *)

Module RatFacts.

Import Rat.

Lemma Qltb_true (a b : Q) : Qltb a b = true <-> (a < b)%Q.
Proof.
  unfold Qltb. rewrite negb_true_iff. split.
  - intros Hf. apply Qnot_le_lt. intros Hle. apply Qle_bool_iff in Hle. congruence.
  - intros Hlt. destruct (Qle_bool b a) eqn:E; [|reflexivity].
    apply Qle_bool_iff in E. exfalso. exact (Qlt_not_le _ _ Hlt E).
Qed.

Lemma Qltb_false (a b : Q) : Qltb a b = false <-> (b <= a)%Q.
Proof.
  unfold Qltb. rewrite negb_false_iff. apply Qle_bool_iff.
Qed.

Lemma Qsqrt_nonneg (a : Q) : (0 <= Qsqrt a)%Q.
Proof.
  unfold Qsqrt, Qle. simpl. rewrite Z.mul_1_r. apply Z.sqrt_nonneg.
Qed.

Lemma Qsq_sub_sym (a b : Q) : Qmult (Qminus a b) (Qminus a b) = Qmult (Qminus b a) (Qminus b a).
Proof.
  destruct a as [n d], b as [m e]. unfold Qmult, Qminus, Qplus, Qopp. simpl.
  f_equal.
  - ring.
  - now rewrite (Pos.mul_comm d e).
Qed.

Lemma Qabs_pos' (a : Q) : Qltb 0 a = true -> Qabs a = a.
Proof.
  rewrite Qltb_true. destruct a as [n d]. unfold Qlt. simpl. intros Hn.
  f_equal. apply Z.abs_eq. lia.
Qed.

Lemma Qabs_nonpos' (a : Q) : Qltb 0 a = false -> Qabs a = Qopp a.
Proof.
  rewrite Qltb_false. destruct a as [n d]. unfold Qle, Qopp. simpl. intros Hn.
  f_equal. apply Z.abs_neq. lia.
Qed.

#[export] Instance laws : NumLaws Q.
Proof.
  constructor; unfold le; simpl.
  - intros a b c. rewrite !Qltb_false. intros; eapply Qle_trans; eauto.
  - intros a b. rewrite Qltb_true, Qltb_false. apply Qlt_le_weak.
  - intros a b w. rewrite !Qltb_false. intros. lra.
  - intros a w. rewrite !Qltb_false. intros. lra.
  - intros a. rewrite Qltb_false. apply Qsqrt_nonneg.
  - apply Qsq_sub_sym.
  - apply Qabs_pos'.
  - apply Qabs_nonpos'.
  - intros a. apply eq_iff_eq_true. rewrite !Qltb_true. split; intros; lra.
  - reflexivity.
  - reflexivity.
Qed.

#[export] Instance inf_laws : InfLaws Q.
Proof. constructor; simpl; [discriminate | discriminate | reflexivity]. Qed.

End RatFacts.

(* ================================================================== *)
(** ** The laws hold in rational arithmetic that overflows *)

Module CappedFacts.

Import Rat Capped RatFacts.

Lemma MAX_VALUE_large : (1 <= MAX_VALUE)%Q.
Proof. unfold Qle. vm_compute. discriminate. Qed.

Lemma cap_cases (q : Q) :
  (cap q = None /\ (MAX_VALUE < q)%Q) \/ (cap q = Some q /\ (q <= MAX_VALUE)%Q).
Proof.
  unfold cap. destruct (Qltb MAX_VALUE q) eqn:E.
  - left. split; [reflexivity | now apply Qltb_true].
  - right. split; [reflexivity | now apply Qltb_false].
Qed.

Lemma square_above (q : Q) : (q < - MAX_VALUE)%Q -> (MAX_VALUE < q * q)%Q.
Proof. pose proof MAX_VALUE_large. intros. nra. Qed.

Lemma cltb_true (u v : Q) : cltb (Some u) (Some v) = true <-> (u < v)%Q.
Proof. apply Qltb_true. Qed.

Lemma cltb_false (u v : Q) : cltb (Some u) (Some v) = false <-> (v <= u)%Q.
Proof. apply Qltb_false. Qed.

(** The order on the results of [cap]. *)
Lemma cltb_cap_false (p q : Q) : (q <= p)%Q -> cltb (cap p) (cap q) = false.
Proof.
  intros Hle.
  destruct (cap_cases p) as [[-> Hp] | [-> Hp]], (cap_cases q) as [[-> Hq] | [-> Hq]];
    try reflexivity.
  - exfalso. lra.
  - now apply cltb_false.
Qed.

Lemma cltb_cap_above (p q : Q) : (q <= p)%Q -> cltb (cap p) (Some q) = false.
Proof.
  intros Hle. destruct (cap_cases p) as [[-> Hp] | [-> Hp]]; [reflexivity|].
  now apply cltb_false.
Qed.

#[export] Instance capped_laws : NumLaws (option Q).
Proof.
  constructor; unfold le;
    change (@ltb (option Q) ops) with cltb; change (@add (option Q) ops) with (lift2 Qplus);
    change (@sub (option Q) ops) with (lift2 Qminus);
    change (@mul (option Q) ops) with (lift2 Qmult);
    change (@neg (option Q) ops) with cneg;
    change (@Math_sqrt (option Q) ops) with (lift Qsqrt);
    change (@Math_abs (option Q) ops) with (lift Qabs);
    change (@zero (option Q) ops) with (Some 0%Q);
    change (@half (option Q) ops) with (Some 0.5%Q).
  - intros [u|] [v|] [w|]; try reflexivity; try discriminate.
    rewrite !cltb_false. intros. lra.
  - intros [u|] [v|]; try reflexivity; try discriminate.
    rewrite cltb_true, cltb_false. intros. lra.
  - intros [u|] [v|] [w|]; try reflexivity; try discriminate.
    rewrite cltb_false. intros Hle. cbn [lift2]. apply cltb_cap_false. lra.
  - intros [u|] [w|]; try reflexivity.
    rewrite cltb_false. intros Hw. cbn [lift2]. apply cltb_cap_above. lra.
  - intros [u|]; [|reflexivity]. apply cltb_false. apply Qsqrt_nonneg.
  - intros [u|] [v|]; try reflexivity. cbn [lift2].
    destruct (cap_cases (u - v)) as [[-> Hp] | [-> Hp]],
             (cap_cases (v - u)) as [[-> Hq] | [-> Hq]]; cbn [lift2]; try reflexivity.
    + destruct (cap_cases ((v - u) * (v - u))) as [[-> Hs] | [-> Hs]]; [reflexivity|].
      exfalso. assert (Hlt : (v - u < - MAX_VALUE)%Q) by lra.
      apply square_above in Hlt. lra.
    + destruct (cap_cases ((u - v) * (u - v))) as [[-> Hs] | [-> Hs]]; [reflexivity|].
      exfalso. assert (Hlt : (u - v < - MAX_VALUE)%Q) by lra.
      apply square_above in Hlt. lra.
    + now rewrite (Qsq_sub_sym u v).
  - intros [u|]; [|reflexivity]. intros Hu. cbn [lift]. now rewrite (Qabs_pos' u Hu).
  - intros [u|]; [|discriminate]. intros Hu. cbn [lift cneg]. now rewrite (Qabs_nonpos' u Hu).
  - intros [u|]; cbn [cneg].
    + apply eq_iff_eq_true. rewrite !cltb_true. split; intros; lra.
    + apply cltb_false. pose proof MAX_VALUE_large. lra.
  - reflexivity.
  - reflexivity.
Qed.

#[export] Instance capped_inf_laws : InfLaws (option Q).
Proof.
  constructor.
  - intros a [v|]; [discriminate|]. intros _. unfold le. now destruct a.
  - intros [u|] [v|]; try discriminate; try reflexivity.
  - reflexivity.
Qed.

End CappedFacts.

(* ================================================================== *)
(** ** One run of [dijkstra] *)

Section DijkstraFacts.

Context {num : Type} {ops : NumOps num} {laws : NumLaws num}.

Variable nodes : list (node num).
Variable edges : list edge.
Variable wheelchairMode : bool.
Variable blockedEdges : list blocked_edge.

Local Abbreviation adj := (build_adj nodes edges wheelchairMode blockedEdges).
Local Abbreviation wt := (hop_length nodes).

Lemma adj_wt (u v : string) (w : num) : arc adj u v w -> w = wt u v.
Proof. intros Ha. now destruct (arc_sound _ _ _ _ _ _ _ Ha) as (_ & _ & _ & Hw & _). Qed.

Lemma adj_nonneg (u v : string) (w : num) : arc adj u v w -> le zero w.
Proof. intros Ha. now destruct (arc_sound _ _ _ _ _ _ _ Ha) as (_ & _ & _ & _ & Hw). Qed.

Lemma filter_length_bound {A} (f : A -> bool) (l : list A) :
  List.length (filter f l) <= List.length l.
Proof. induction l as [|a l IH]; simpl; [lia|]. destruct (f a); simpl; lia. Qed.

(** The final state of the loop, and the value that [dijkstra] returns
    from it. *)
Lemma dijkstra_run (s e : string) :
  exists d pv vis p,
    Inv adj s all_done d pv vis
    /\ step e adj (mkState d pv vis) = inr (mkState d pv vis)
    /\ own_keys d = own_keys (init_dist s nodes)
    /\ walk_back (S (S (List.length vis))) pv (Some e) [] = Some p
    /\ dijkstra s e nodes edges wheelchairMode blockedEdges
       = if is_Infinity (obj_get e d) then Some None
         else Some (Some (mkRoute p (obj_get e d))).
Proof.
  destruct (dijkstra_loop_spec adj wt s adj_wt adj_nonneg e
              (S (List.length (init_dist s nodes)))
              (mkState (init_dist s nodes) [] []))
    as ([d pv vis] & Hl & Hinv & Hbrk & Hk).
  - apply Inv_init.
  - unfold unvisited. apply Nat.lt_succ_r.
    eapply Nat.le_trans; [apply filter_length_bound|].
    simpl. unfold own_keys. now rewrite length_map.
  - simpl in Hinv, Hk.
    destruct (walk_back_total adj wt s adj_wt d pv vis Hinv e) as [p Hp].
    exists d, pv, vis, p. repeat (split; [assumption|]).
    unfold dijkstra. cbv zeta. rewrite Hl. cbn [dist prev visited].
    destruct (is_Infinity (obj_get e d)); [reflexivity|]. now rewrite Hp.
Qed.

(** [dijkstra] returns: the fuel that the model gives to its two loops is
    never spent. *)
Lemma dijkstra_total (s e : string) :
  dijkstra s e nodes edges wheelchairMode blockedEdges <> None.
Proof.
  destruct (dijkstra_run s e) as (d & pv & vis & p & _ & _ & _ & _ & ->).
  destruct (is_Infinity (obj_get e d)); discriminate.
Qed.

Lemma key_defined (s : string) (d : obj (jsnum num)) (k : string) :
  own_keys d = own_keys (init_dist s nodes) ->
  obj_get k d <> None <-> k = s \/ is_node nodes k = true.
Proof.
  intros Hk. rewrite <- obj_get_In_keys, Hk, obj_get_In_keys, init_dist_get.
  destruct (String.eqb s k) eqn:E.
  - apply String.eqb_eq in E. subst. split; [auto | discriminate].
  - apply String.eqb_neq in E.
    destruct (is_node nodes k); split; try discriminate; auto;
      intros [-> | Hx]; congruence.
Qed.

Lemma awalk_hops_ok (u : string) (rest : list string) :
  awalk adj u rest -> hops_ok nodes edges wheelchairMode blockedEdges u rest = true.
Proof.
  revert u. induction rest as [|v r IH]; intros u Hw; simpl; [reflexivity|].
  destruct Hw as [[w Ha] Hr].
  destruct (arc_sound _ _ _ _ _ _ _ Ha) as (Hl & _ & Hv & _).
  now rewrite Hl, Hv, IH.
Qed.

Lemma hops_ok_awalk (u : string) (rest : list string) :
  is_node nodes u = true ->
  hops_ok nodes edges wheelchairMode blockedEdges u rest = true -> awalk adj u rest.
Proof.
  revert u. induction rest as [|v r IH]; intros u Hu Hh; simpl in *; [exact I|].
  apply andb_true_iff in Hh. destruct Hh as [Hh Hr].
  apply andb_true_iff in Hh. destruct Hh as [Hl Hv].
  split; [now apply linked_arc | now apply IH].
Qed.

Lemma awalk_all_linked (u : string) (rest : list string) :
  awalk adj u rest -> all_linked edges wheelchairMode blockedEdges (u :: rest) = true.
Proof.
  revert u. induction rest as [|v r IH]; intros u Hw; [reflexivity|].
  destruct Hw as [[w Ha] Hr].
  destruct (arc_sound _ _ _ _ _ _ _ Ha) as (Hl & _).
  change (linked edges wheelchairMode blockedEdges u v
          && all_linked edges wheelchairMode blockedEdges (v :: r) = true).
  now rewrite Hl, IH.
Qed.

Lemma awalk_last_node (u : string) (rest : list string) :
  is_node nodes u = true -> awalk adj u rest -> is_node nodes (last rest u) = true.
Proof.
  revert u. induction rest as [|v r IH]; intros u Hu Hw; [exact Hu|].
  destruct Hw as [[w Ha] Hr]. rewrite last_cons. apply IH; [|exact Hr].
  now destruct (arc_sound _ _ _ _ _ _ _ Ha) as (_ & _ & Hv & _).
Qed.

Lemma is_route_elim (s e : string) (q : list string) :
  is_route nodes edges wheelchairMode blockedEdges s e q = true ->
  exists rest, q = s :: rest /\ awalk adj s rest /\ last rest s = e
               /\ is_node nodes s = true /\ is_node nodes e = true.
Proof.
  unfold is_route. destruct q as [|u rest]; [discriminate|].
  rewrite !andb_true_iff. intros [[[Hu Hs] Hl] Hh].
  apply String.eqb_eq in Hu. apply String.eqb_eq in Hl. subst u.
  pose proof (hops_ok_awalk s rest Hs Hh) as Hw.
  exists rest. repeat split; auto. subst e. now apply awalk_last_node.
Qed.

Lemma is_route_intro (s e : string) (rest : list string) :
  is_node nodes e = true -> awalk adj s rest -> last rest s = e ->
  is_route nodes edges wheelchairMode blockedEdges s e (s :: rest) = true.
Proof.
  intros He Hw Hl.
  assert (Hs : is_node nodes s = true).
  { destruct rest as [|v r]; [simpl in Hl; congruence|].
    destruct Hw as [[w Ha] _].
    now destruct (arc_sound _ _ _ _ _ _ _ Ha) as (_ & Hu & _). }
  unfold is_route.
  now rewrite (awalk_hops_ok s rest Hw), Hl, Hs, !String.eqb_refl.
Qed.

Lemma ids_nonempty_truthy (k : string) :
  ids_nonempty nodes = true -> is_node nodes k = true -> truthy k = true.
Proof.
  unfold ids_nonempty, is_node. rewrite forallb_forall, existsb_exists.
  intros Hall [n [Hn He]]. apply String.eqb_eq in He. subst k. now apply Hall.
Qed.

Lemma no_empty_key (s : string) (d : obj (jsnum num)) :
  ids_nonempty nodes = true -> is_node nodes s = true ->
  own_keys d = own_keys (init_dist s nodes) -> ~ In "" (own_keys d).
Proof.
  intros Hne Hs Hk Hin. apply obj_get_In_keys in Hin.
  apply (key_defined s d "" Hk) in Hin.
  assert (Hn : is_node nodes "" = true) by (destruct Hin as [<- | Hn]; assumption).
  apply (ids_nonempty_truthy "" Hne) in Hn. discriminate.
Qed.

(** A distance in the table of a known node is finite only if a route
    leads to the node. *)
Lemma finite_route (s e : string) (d : obj (jsnum num)) (pv : obj string)
    (vis : list string) (de : num) :
  Inv adj s all_done d pv vis -> is_node nodes e = true ->
  obj_get e d = Some (Fin de) ->
  exists q, is_route nodes edges wheelchairMode blockedEdges s e q = true.
Proof.
  intros Hinv He Hde. destruct (inv_tree _ _ _ _ _ _ Hinv e de Hde) as [p Hp].
  destruct (tree_shape adj wt s adj_wt _ _ _ _ _ _ Hp) as (rest & -> & Hl & Hw & _).
  exists (s :: rest). now apply is_route_intro.
Qed.

(** The three shapes of the value that [dijkstra] returns. *)
Lemma dijkstra_cases (s e : string) :
  dijkstra s e nodes edges wheelchairMode blockedEdges = Some None
  \/ (exists de rest,
         dijkstra s e nodes edges wheelchairMode blockedEdges
         = Some (Some (mkRoute (s :: rest) (Some (Fin de))))
         /\ truthy e = true /\ last rest s = e /\ awalk adj s rest
         /\ walk_length wt zero s rest = de /\ NoDup (s :: rest))
  \/ (exists de,
         dijkstra s e nodes edges wheelchairMode blockedEdges
         = Some (Some (mkRoute [] (Some (Fin de)))) /\ e = "")
  \/ (dijkstra s e nodes edges wheelchairMode blockedEdges
      = Some (Some (mkRoute (if truthy e then [e] else []) None))
      /\ e <> s /\ is_node nodes e = false).
Proof.
  destruct (dijkstra_run s e) as (d & pv & vis & p & Hinv & Hbrk & Hk & Hp & ->).
  destruct (obj_get e d) as [[de|]|] eqn:Hde; simpl.
  - right. destruct (truthy e) eqn:Htr.
    + left. destruct (exit_path adj wt s adj_wt d pv vis Hinv e de Hde Htr)
        as (rest & Hw & Hl & Ha & Hs & Hnd).
      rewrite Hw in Hp. inversion Hp; subst p. exists de, rest. auto 10.
    + right. left. exists de. destruct vis; simpl in Hp; rewrite Htr in Hp;
        inversion Hp; subst p; split; auto;
        unfold truthy in Htr; now apply negb_false_iff, String.eqb_eq in Htr.
  - now left.
  - right. right. right.
    assert (Hnk : ~ (e = s \/ is_node nodes e = true)).
    { intros Hx. apply (key_defined s d e Hk) in Hx. congruence. }
    assert (Hpe : obj_get e pv = None).
    { destruct (obj_get e pv) as [u|] eqn:Hu; [|reflexivity].
      destruct (inv_prev_fin _ _ _ _ _ _ Hinv e u Hu) as [x Hx]. congruence. }
    repeat split.
    + simpl in Hp. rewrite Hpe in Hp. destruct (truthy e); inversion Hp; reflexivity.
    + tauto.
    + destruct (is_node nodes e); tauto.
Qed.

Context {inf : InfLaws num}.

(** With no empty id among the nodes, a target that a route reaches with
    a length other than [Infinity] is found, along a route whose length
    is the distance returned, and no route is shorter. *)
Lemma dijkstra_optimal (s e : string) (q0 : list string) :
  ids_nonempty nodes = true ->
  is_route nodes edges wheelchairMode blockedEdges s e q0 = true ->
  is_inf (path_length nodes q0) = false ->
  exists r de,
    dijkstra s e nodes edges wheelchairMode blockedEdges = Some (Some r)
    /\ is_route nodes edges wheelchairMode blockedEdges s e (path r) = true
    /\ NoDup (path r)
    /\ distance r = Some (Fin de)
    /\ de = path_length nodes (path r)
    /\ forall q, is_route nodes edges wheelchairMode blockedEdges s e q = true ->
                 le de (path_length nodes q).
Proof.
  intros Hne Hq0 Hfin0.
  destruct (is_route_elim s e q0 Hq0) as (rest0 & -> & Hw0 & Hl0 & Hs & He).
  destruct (dijkstra_run s e) as (d & pv & vis & p & Hinv & Hbrk & Hk & Hp & Hres).
  pose proof (no_empty_key s d Hne Hs Hk) as Hnk.
  destruct (exit_optimal adj wt s adj_wt adj_nonneg d pv vis Hinv e Hbrk rest0 Hnk Hw0 Hl0
              Hfin0)
    as (de & Hde & _).
  destruct (exit_path adj wt s adj_wt d pv vis Hinv e de Hde
              (ids_nonempty_truthy e Hne He)) as (rest & Hw & Hl & Ha & Hsum & Hnd).
  rewrite Hw in Hp. inversion Hp; subst p. rewrite Hde in Hres. simpl in Hres.
  exists (mkRoute (s :: rest) (Some (Fin de))), de. simpl.
  split; [exact Hres|]. split; [now apply is_route_intro|].
  split; [exact Hnd|]. split; [reflexivity|]. split; [now symmetry|].
  intros q Hq. destruct (is_route_elim s e q Hq) as (rq & -> & Hwq & Hlq & _).
  destruct (is_inf (path_length nodes (s :: rq))) eqn:Hfq; [now apply inf_top|].
  destruct (exit_optimal adj wt s adj_wt adj_nonneg d pv vis Hinv e Hbrk rq Hnk Hwq Hlq Hfq)
    as (de' & Hde' & Hle).
  simpl. congruence.
Qed.

(** A known target that no route reaches is reported as not found. *)
Lemma dijkstra_unreachable (s e : string) :
  is_node nodes e = true ->
  (forall q, is_route nodes edges wheelchairMode blockedEdges s e q = false) ->
  dijkstra s e nodes edges wheelchairMode blockedEdges = Some None.
Proof.
  intros He Hno.
  destruct (dijkstra_run s e) as (d & pv & vis & p & Hinv & Hbrk & Hk & Hp & ->).
  destruct (obj_get e d) as [[de|]|] eqn:Hde; simpl; [| reflexivity |].
  - destruct (finite_route s e d pv vis de Hinv He Hde) as [q Hq].
    rewrite Hno in Hq. discriminate.
  - exfalso. assert (Hx : obj_get e d <> None) by (apply (key_defined s d e Hk); auto).
    congruence.
Qed.


End DijkstraFacts.

(* ================================================================== *)
(** ** The solver on every key and the solver on plain keys *)

Section PlainKeys.

Context {num : Type} {ops : NumOps num} {laws : NumLaws num}.

Variable source : string -> string.

Lemma plain_not_proto (k : string) : plain k = true -> String.eqb k "__proto__" = false.
Proof.
  intros Hk. destruct (String.eqb k "__proto__") eqn:E; [|reflexivity].
  apply String.eqb_eq in E. subst k. discriminate Hk.
Qed.

Lemma get_plain {V} (k : string) (o : obj V) :
  plain k = true -> Proto.get k o = Proto.of_option (obj_get k o).
Proof.
  intros Hk. unfold Proto.get. destruct (obj_get k o); [reflexivity|]. now rewrite Hk.
Qed.

Lemma set_plain {V} (k : string) (v : V) (o : obj V) :
  plain k = true -> Proto.set k v o = obj_set k v o.
Proof. intros Hk. unfold Proto.set. now rewrite (plain_not_proto k Hk). Qed.

Lemma obj_push_missing {V} (k : string) (v : V) (o : obj (list V)) :
  obj_get k o = None -> obj_push k v o = o.
Proof.
  induction o as [|[k' l] r IH]; simpl; [reflexivity|].
  destruct (String.eqb k' k); [discriminate|]. intros Hr. now rewrite IH.
Qed.

Lemma push_plain (k : string) (x : string * num) (adj : obj (list (string * num))) :
  plain k = true -> Proto.push k x adj = Proto.Returns (obj_push k x adj).
Proof.
  intros Hk. unfold Proto.push. rewrite (get_plain k adj Hk).
  destruct (obj_get k adj) eqn:E; simpl; [reflexivity|]. now rewrite obj_push_missing.
Qed.

Lemma add_edge_plain (wheelchairMode : bool) (blockedEdges : list blocked_edge)
    (nodeMap : obj (node num)) (adj : obj (list (string * num))) (e : edge) :
  plain (from e) = true -> plain (to e) = true ->
  Proto.add_edge wheelchairMode blockedEdges nodeMap (Proto.Returns adj) e
  = Proto.Returns (add_edge wheelchairMode blockedEdges nodeMap adj e).
Proof.
  intros Hf Ht. unfold Proto.add_edge, add_edge.
  destruct (wheelchairMode && negb (e_accessible e)); [reflexivity|].
  destruct (isBlocked blockedEdges e); [reflexivity|].
  rewrite (get_plain _ nodeMap Hf), (get_plain _ nodeMap Ht).
  destruct (obj_get (from e) nodeMap) as [n1|]; simpl; [|reflexivity].
  destruct (obj_get (to e) nodeMap) as [n2|]; simpl; [|reflexivity].
  rewrite (push_plain _ _ _ Hf). now apply push_plain.
Qed.

Lemma plain_nodes_id (nodes : list (node num)) (k : string) :
  plain_nodes nodes = true -> is_node nodes k = true -> plain k = true.
Proof.
  unfold plain_nodes, is_node. rewrite forallb_forall, existsb_exists.
  intros Hn [n [Hin He]]. apply String.eqb_eq in He. subst k. now apply Hn.
Qed.

Lemma plain_nodes_no_proto (nodes : list (node num)) :
  plain_nodes nodes = true -> is_node nodes "__proto__" = false.
Proof.
  intros Hg. destruct (is_node nodes "__proto__") eqn:E; [|reflexivity].
  pose proof (plain_nodes_id nodes _ Hg E) as Hp. discriminate Hp.
Qed.

Lemma plain_graph_parts (nodes : list (node num)) (edges : list edge) :
  plain_graph nodes edges = true -> plain_nodes nodes = true /\ plain_edges edges = true.
Proof. unfold plain_graph. apply andb_true_iff. Qed.

Lemma push_returns (k : string) (x : string * num) (a a' : obj (list (string * num))) :
  Proto.push k x a = Proto.Returns a' -> a' = obj_push k x a.
Proof.
  unfold Proto.push, Proto.get. destruct (obj_get k a) as [l|] eqn:Hk.
  - intros Heq. now inversion Heq.
  - rewrite (obj_push_missing k x a Hk). destruct (plain k); [|discriminate].
    intros Heq. now inversion Heq.
Qed.

(** When the edges are taken in without a [TypeError], [adj] is the
    table of the solver on plain keys. *)
Lemma add_edge_returns (wheelchairMode : bool) (blockedEdges : list blocked_edge)
    (nodeMap : obj (node num)) (a a' : obj (list (string * num))) (e : edge) :
  Proto.add_edge wheelchairMode blockedEdges nodeMap (Proto.Returns a) e = Proto.Returns a' ->
  a' = add_edge wheelchairMode blockedEdges nodeMap a e.
Proof.
  unfold Proto.add_edge, add_edge.
  destruct (wheelchairMode && negb (e_accessible e)); [congruence|].
  destruct (isBlocked blockedEdges e); [congruence|].
  unfold Proto.get.
  destruct (obj_get (from e) nodeMap) as [n1|].
  - destruct (obj_get (to e) nodeMap) as [n2|].
    + destruct (Proto.push (from e) (to e, euclid n1 n2) a) as [a1| |] eqn:H1;
        try discriminate.
      apply push_returns in H1. subst a1. apply push_returns.
    + destruct (plain (to e)); congruence.
  - destruct (plain (from e)); [congruence|].
    destruct (obj_get (to e) nodeMap) as [n2|]; [discriminate|].
    destruct (plain (to e)); congruence.
Qed.

Lemma fold_add_edge_raised (wheelchairMode : bool) (blockedEdges : list blocked_edge)
    (nodeMap : obj (node num)) (edges : list edge) (a : obj (list (string * num))) :
  fold_left (Proto.add_edge wheelchairMode blockedEdges nodeMap) edges Proto.TypeError
  <> Proto.Returns a
  /\ fold_left (Proto.add_edge wheelchairMode blockedEdges nodeMap) edges Proto.Unfollowed
     <> Proto.Returns a.
Proof. induction edges as [|e edges IH]; simpl; [split; discriminate | exact IH]. Qed.

Lemma build_adj_returns (nodes : list (node num)) (edges : list edge)
    (wheelchairMode : bool) (blockedEdges : list blocked_edge)
    (adj : obj (list (string * num))) :
  Proto.build_adj nodes edges wheelchairMode blockedEdges = Proto.Returns adj ->
  adj = build_adj nodes edges wheelchairMode blockedEdges.
Proof.
  unfold Proto.build_adj, build_adj. generalize (init_adj nodes).
  induction edges as [|e edges IH]; intros a; cbn [fold_left].
  - intros Heq. now inversion Heq.
  - destruct (Proto.add_edge wheelchairMode blockedEdges (build_nodeMap nodes)
                             (Proto.Returns a) e) as [a'| |] eqn:Ha.
    + rewrite <- (add_edge_returns _ _ _ _ _ _ Ha). apply IH.
    + intros Hx. now apply fold_add_edge_raised in Hx.
    + intros Hx. now apply fold_add_edge_raised in Hx.
Qed.

Lemma build_adj_plain (nodes : list (node num)) (edges : list edge)
    (wheelchairMode : bool) (blockedEdges : list blocked_edge) :
  plain_edges edges = true ->
  Proto.build_adj nodes edges wheelchairMode blockedEdges
  = Proto.Returns (build_adj nodes edges wheelchairMode blockedEdges).
Proof.
  unfold Proto.build_adj, build_adj, plain_edges. generalize (init_adj nodes).
  induction edges as [|e edges IH]; intros adj He; cbn [fold_left]; [reflexivity|].
  simpl in He. apply andb_true_iff in He. destruct He as [He Hr].
  apply andb_true_iff in He. destruct He as [Hf Ht].
  rewrite (add_edge_plain _ _ _ _ _ Hf Ht). now apply IH.
Qed.

Lemma init_dist_plain (s : string) (nodes : list (node num)) :
  plain_nodes nodes = true -> plain s = true ->
  Proto.init_dist s nodes = init_dist s nodes.
Proof.
  intros Hn Hs. unfold Proto.init_dist, init_dist. unfold plain_nodes in Hn. rewrite (set_plain _ _ _ Hs). f_equal.
  generalize (@nil (string * jsnum num)).
  induction nodes as [|n nodes IH]; intros d; cbn [fold_left]; [reflexivity|].
  simpl in Hn. apply andb_true_iff in Hn. destruct Hn as [Hn Hr].
  rewrite (set_plain _ _ _ Hn). now apply IH.
Qed.

Lemma below_of_option (a : jsnum num) (b : option (jsnum num)) :
  Proto.below a (Proto.of_option b) = jlt_opt (Some a) b.
Proof. now destruct b. Qed.

Lemma relax_plain (m : string) (vis : list string)
    (dp : obj (jsnum num) * obj string) (nb : string * num) :
  plain m = true -> plain (fst nb) = true ->
  Proto.relax m vis dp nb = relax m vis dp nb.
Proof.
  intros Hm Hnb. unfold Proto.relax, relax.
  destruct (set_has (fst nb) vis); [reflexivity|].
  rewrite (get_plain _ _ Hm).
  destruct (obj_get m (fst dp)) as [dm|]; cbn [Proto.of_option]; [|reflexivity].
  rewrite (get_plain _ _ Hnb), below_of_option.
  destruct (jlt_opt _ _); [|reflexivity].
  now rewrite !(set_plain _ _ _ Hnb).
Qed.

Lemma fold_left_ext_in {A B} (f g : A -> B -> A) (l : list B) :
  (forall a b, In b l -> f a b = g a b) -> forall a, fold_left f l a = fold_left g l a.
Proof.
  induction l as [|b l IH]; intros Hfg a; simpl; [reflexivity|].
  rewrite Hfg by now left. apply IH. intros a' b' Hin. apply Hfg. now right.
Qed.

Lemma step_plain (endId : string) (adj : obj (list (string * num))) (st : state) :
  plain_tables adj st -> Proto.step endId adj st = Proto.Returns (step endId adj st).
Proof.
  intros (Hadj & Hkeys & _). unfold Proto.step, step.
  pose proof (pick_min_spec (dist st) (visited st)) as Hpick.
  destruct (fst (pick_min (dist st) (visited st))) as [m|]; [|reflexivity].
  destruct Hpick as (Hkey & _). pose proof (Hkeys m Hkey) as Hm.
  destruct (negb (truthy m) || String.eqb m endId); [reflexivity|].
  rewrite (get_plain _ _ Hm). unfold neighbours.
  destruct (obj_get m adj) as [l|] eqn:Hl; simpl; [|reflexivity].
  rewrite (fold_left_ext_in (Proto.relax m (m :: visited st)) (relax m (m :: visited st)));
    [reflexivity|].
  intros dp nb Hin. apply relax_plain; [exact Hm|]. exact (Hadj m l nb Hl Hin).
Qed.

Lemma step_plain_tables (endId : string) (adj : obj (list (string * num))) (st st' : state) :
  plain_tables adj st -> step endId adj st = inl st' -> plain_tables adj st'.
Proof.
  intros (Hadj & Hkeys & Hprev) Hs.
  destruct (step_inl_shape endId adj st st' Hs) as (m & Hkey & _ & _ & Hdp).
  pose proof (Hkeys m Hkey) as Hm.
  split; [exact Hadj|].
  pose proof (f_equal fst Hdp) as Hd. pose proof (f_equal snd Hdp) as Hp'.
  cbn [fst snd] in Hd, Hp'. rewrite Hd, Hp'.
  apply (relax_fold_keeps
           (fun dp => (forall k, In k (own_keys (fst dp)) -> plain k = true)
                      /\ (forall k u, obj_get k (snd dp) = Some u -> plain u = true)));
    [|split; assumption].
  intros dp nb Hin [Hk Hp].
  assert (Hnb : plain (fst nb) = true).
  { unfold neighbours in Hin. destruct (obj_get m adj) as [l|] eqn:Hl; [|destruct Hin].
    exact (Hadj m l nb Hl Hin). }
  destruct (relax_stores m (m :: visited st) dp nb) as [-> | (r & _ & ->)];
    [split; assumption|]. simpl. split.
  - intros k Hin'. apply own_keys_set_In in Hin'. destruct Hin' as [-> | Hin']; auto.
  - intros k u. destruct (string_dec (fst nb) k) as [<- | Hne].
    + rewrite obj_get_set_eq. intros Heq. inversion Heq; subst u. exact Hm.
    + rewrite obj_get_set_neq by exact Hne. apply Hp.
Qed.

Lemma loop_plain (endId : string) (adj : obj (list (string * num))) (fuel : nat) :
  forall st st',
    plain_tables adj st -> dijkstra_loop fuel endId adj st = Some st' ->
    Proto.loop fuel endId adj st = Proto.Returns st' /\ plain_tables adj st'.
Proof.
  induction fuel as [|fuel IH]; intros st st' Hst; simpl; [discriminate|].
  rewrite (step_plain endId adj st Hst).
  destruct (step endId adj st) as [st1 | st1] eqn:Hs.
  - apply IH. now apply (step_plain_tables endId adj st).
  - intros Heq. inversion Heq; subst st'. split; [reflexivity|].
    now rewrite (step_inr _ _ _ _ Hs).
Qed.

Lemma link_of_option (o : option string) :
  Proto.link (Proto.of_option o) = option_map Proto.Str o.
Proof. now destruct o. Qed.

Lemma walk_back_plain (pv : obj string) :
  (forall k u, obj_get k pv = Some u -> plain u = true) ->
  forall fuel cur acc p,
    (forall c, cur = Some c -> plain c = true) ->
    walk_back fuel pv cur acc = Some p ->
    Proto.walk_back source (S fuel) pv (option_map Proto.Str cur) (map Proto.Str acc)
    = Some (map Proto.Str p).
Proof.
  intros Hpv. induction fuel as [|fuel IH]; intros cur acc p Hcur; [discriminate|].
  cbn [walk_back]. destruct cur as [c|].
  - change (Proto.walk_back source (S (S fuel)) pv (option_map Proto.Str (Some c))
                            (map Proto.Str acc))
      with (if truthy c
            then Proto.walk_back source (S fuel) pv (Proto.link (Proto.get c pv))
                                 (Proto.Str c :: map Proto.Str acc)
            else Some (map Proto.Str acc)).
    destruct (truthy c).
    + rewrite (get_plain c pv (Hcur c eq_refl)), link_of_option.
      intros Hw. apply (IH (obj_get c pv) (c :: acc) p); [|exact Hw].
      intros c' Hc'. exact (Hpv c c' Hc').
    + intros Heq. now inversion Heq.
  - intros Heq. now inversion Heq.
Qed.

(** When no id of a node names a member of [Object.prototype], and the
    start and the target name none either, [dijkstra] on every key raises
    where taking the edges in raises, and is [dijkstra] on plain keys
    otherwise. *)
Lemma dijkstra_plain_nodes (nodes : list (node num)) (edges : list edge)
    (wheelchairMode : bool) (blockedEdges : list blocked_edge) (s e : string) :
  plain_nodes nodes = true -> plain s = true -> plain e = true ->
  Proto.dijkstra source s e nodes edges wheelchairMode blockedEdges
  = match Proto.build_adj nodes edges wheelchairMode blockedEdges with
    | Proto.Returns _ =>
        plain_outcome plain_route (dijkstra s e nodes edges wheelchairMode blockedEdges)
    | Proto.TypeError => Proto.TypeError
    | Proto.Unfollowed => Proto.Unfollowed
    end.
Proof.
  intros Hn Hs He.
  pose proof (dijkstra_total nodes edges wheelchairMode blockedEdges s e) as Htot.
  unfold Proto.dijkstra. rewrite (plain_nodes_no_proto nodes Hn).
  destruct (Proto.build_adj nodes edges wheelchairMode blockedEdges) as [adj| |] eqn:Hb;
    try reflexivity.
  apply build_adj_returns in Hb. subst adj.
  cbv zeta. rewrite (init_dist_plain s nodes Hn Hs).
  unfold dijkstra in *. cbv zeta in *.
  destruct (dijkstra_loop _ e _ _) as [st|] eqn:Hl; [|congruence].
  assert (Hst : plain_tables (build_adj nodes edges wheelchairMode blockedEdges)
                           (mkState (init_dist s nodes) [] [])).
  { split; [|split]; simpl.
    - intros k l [v w] Hk Hin.
      assert (Ha : arc (build_adj nodes edges wheelchairMode blockedEdges) k v w).
      { unfold arc, neighbours. now rewrite Hk. }
      destruct (arc_sound nodes wheelchairMode blockedEdges edges k v w Ha)
        as (_ & _ & Hv & _).
      exact (plain_nodes_id nodes v Hn Hv).
    - intros k Hk. apply obj_get_In_keys in Hk. rewrite init_dist_get in Hk.
      destruct (String.eqb s k) eqn:E; [apply String.eqb_eq in E; now subst k|].
      destruct (is_node nodes k) eqn:En; [|congruence].
      exact (plain_nodes_id nodes k Hn En).
    - intros k u Hk. discriminate Hk. }
  destruct (loop_plain e _ _ _ st Hst Hl) as [-> (_ & _ & Hprev)].
  rewrite (get_plain e _ He).
  destruct (walk_back _ (prev st) (Some e) []) as [p|] eqn:Hw.
  - apply (walk_back_plain (prev st) Hprev) in Hw; [|intros c Hc; inversion Hc; subst c; exact He].
    cbn [option_map map] in Hw. rewrite Hw.
    destruct (obj_get e (dist st)) as [[de|]|]; reflexivity.
  - destruct (obj_get e (dist st)) as [[de|]|]; cbn [is_Infinity] in Htot |- *;
      try congruence; reflexivity.
Qed.

(** On a graph none of whose ids names a member of [Object.prototype],
    and for a start and a target that name none either, [dijkstra] on
    every key is [dijkstra] on plain keys. *)
Lemma dijkstra_plain_keys (nodes : list (node num)) (edges : list edge)
    (wheelchairMode : bool) (blockedEdges : list blocked_edge) (s e : string) :
  plain_graph nodes edges = true -> plain s = true -> plain e = true ->
  Proto.dijkstra source s e nodes edges wheelchairMode blockedEdges
  = plain_outcome plain_route (dijkstra s e nodes edges wheelchairMode blockedEdges).
Proof.
  intros Hg Hs He. destruct (plain_graph_parts nodes edges Hg) as [Hn Hed].
  rewrite (dijkstra_plain_nodes nodes edges wheelchairMode blockedEdges s e Hn Hs He).
  now rewrite (build_adj_plain nodes edges wheelchairMode blockedEdges Hed).
Qed.

Lemma nearer_of_option (a b : option (jsnum num)) :
  Proto.nearer (Proto.of_option a) (Proto.of_option b) = jlt_opt a b.
Proof. destruct a as [a|], b as [b|]; reflexivity. Qed.

Lemma consider_plain (nodes : list (node num)) (edges : list edge)
    (wheelchairMode : bool) (blockedEdges : list blocked_edge) (s : string)
    (flag : bool) (best : option (option (exit_route num))) (t : node num) :
  plain_graph nodes edges = true -> plain s = true -> plain (id t) = true ->
  Proto.consider source s nodes edges wheelchairMode blockedEdges flag
                 (plain_outcome plain_exit_route best) t
  = plain_outcome plain_exit_route
      (consider s nodes edges wheelchairMode blockedEdges flag best t).
Proof.
  intros Hg Hs Ht. unfold Proto.consider, consider.
  destruct best as [b|]; simpl; [|reflexivity].
  rewrite (dijkstra_plain_keys nodes edges wheelchairMode blockedEdges s (id t) Hg Hs Ht).
  destruct (dijkstra s (id t) nodes edges wheelchairMode blockedEdges) as [[r|]|];
    simpl; try reflexivity.
  destruct b as [bb|]; simpl; [|reflexivity].
  rewrite nearer_of_option. now destruct (jlt_opt _ _).
Qed.

Lemma fold_consider_plain (nodes : list (node num)) (edges : list edge)
    (wheelchairMode : bool) (blockedEdges : list blocked_edge) (s : string)
    (flag : bool) (targets : list (node num)) :
  plain_graph nodes edges = true -> plain s = true ->
  (forall t, In t targets -> plain (id t) = true) ->
  forall best,
    fold_left (Proto.consider source s nodes edges wheelchairMode blockedEdges flag)
              targets (plain_outcome plain_exit_route best)
    = plain_outcome plain_exit_route
        (fold_left (consider s nodes edges wheelchairMode blockedEdges flag) targets best).
Proof.
  intros Hg Hs. induction targets as [|t targets IH]; intros Ht best; cbn [fold_left];
    [reflexivity|].
  rewrite consider_plain; auto; [|apply Ht; now left].
  apply IH. intros t' Hin. apply Ht. now right.
Qed.

(** Likewise for [findNearestExit]. *)
Lemma findNearestExit_plain_keys (nodes : list (node num)) (edges : list edge)
    (wheelchairMode : bool) (blockedEdges : list blocked_edge) (s : string) :
  plain_graph nodes edges = true -> plain s = true ->
  Proto.findNearestExit source s nodes edges wheelchairMode blockedEdges
  = plain_outcome plain_exit_route
      (findNearestExit s nodes edges wheelchairMode blockedEdges).
Proof.
  intros Hg Hs.
  assert (Hplain : forall ty t, In t (filter (fun n => String.eqb (type n) ty) nodes) ->
                                plain (id t) = true).
  { intros ty t Hin. apply filter_In in Hin. destruct Hin as [Hin _].
    apply (plain_nodes_id nodes _ (proj1 (plain_graph_parts nodes edges Hg))).
    apply is_node_In, in_map, Hin. }
  unfold Proto.findNearestExit, findNearestExit. cbv zeta.
  change (Proto.Returns (@None (Proto.exit_route num)))
    with (plain_outcome (@plain_exit_route num) (Some None)).
  rewrite (fold_consider_plain nodes edges wheelchairMode blockedEdges s false _ Hg Hs
             (Hplain "exit")).
  destruct (fold_left _ _ (Some None)) as [[b|]|]; simpl; try reflexivity.
  destruct wheelchairMode; [|reflexivity].
  change (Proto.Returns (@None (Proto.exit_route num)))
    with (plain_outcome (@plain_exit_route num) (Some None)).
  apply (fold_consider_plain nodes edges true blockedEdges s true _ Hg Hs (Hplain "refuge")).
Qed.

End PlainKeys.

(* ================================================================== *)
(** ** Properties of [dijkstra] *)

Section DijkstraClaims.

Context {num : Type} {ops : NumOps num} {laws : NumLaws num}.

Lemma linked_edge (edges : list edge) (wheelchairMode : bool)
    (blockedEdges : list blocked_edge) (u v : string) :
  linked edges wheelchairMode blockedEdges u v = true ->
  exists e, In e edges
            /\ (wheelchairMode = true -> e_accessible e = true)
            /\ (forall b, In b blockedEdges ->
                          ~ (b_from b = from e /\ b_to b = to e)
                          /\ ~ (b_from b = to e /\ b_to b = from e))
            /\ ((from e = u /\ to e = v) \/ (from e = v /\ to e = u)).
Proof.
  unfold linked, survives, joins. rewrite existsb_exists.
  intros [e [Hin He]]. exists e. split; [exact Hin|].
  apply andb_true_iff in He. destruct He as [Hs Hj].
  apply andb_true_iff in Hs. destruct Hs as [Hacc Hblk].
  apply negb_true_iff in Hacc. apply negb_true_iff in Hblk.
  split; [|split].
  - intros ->. simpl in Hacc. now apply negb_false_iff in Hacc.
  - intros b Hb. unfold isBlocked in Hblk.
    assert (Hf : (String.eqb (b_from b) (from e) && String.eqb (b_to b) (to e))
                 || (String.eqb (b_from b) (to e) && String.eqb (b_to b) (from e)) = false).
    { destruct ((String.eqb (b_from b) (from e) && String.eqb (b_to b) (to e))
                || (String.eqb (b_from b) (to e) && String.eqb (b_to b) (from e))) eqn:E;
        [|reflexivity].
      assert (Hex : existsb (fun b0 =>
                (String.eqb (b_from b0) (from e) && String.eqb (b_to b0) (to e))
                || (String.eqb (b_from b0) (to e) && String.eqb (b_to b0) (from e)))
                blockedEdges = true) by (apply existsb_exists; eauto).
      congruence. }
    apply orb_false_iff in Hf. destruct Hf as [H1 H2].
    split; intros [Ha Hb']; rewrite Ha, Hb', !String.eqb_refl in *; discriminate.
  - apply orb_true_iff in Hj.
    destruct Hj as [Hj | Hj]; apply andb_true_iff in Hj; destruct Hj as [H1 H2];
      apply String.eqb_eq in H1; apply String.eqb_eq in H2; auto.
Qed.

Lemma all_linked_nth (edges : list edge) (wheelchairMode : bool)
    (blockedEdges : list blocked_edge) (p : list string) :
  all_linked edges wheelchairMode blockedEdges p = true ->
  forall i u v, nth_error p i = Some u -> nth_error p (S i) = Some v ->
                linked edges wheelchairMode blockedEdges u v = true.
Proof.
  induction p as [|a p IH]; intros Hall i u v Hu Hv; [destruct i; discriminate|].
  destruct p as [|b p]; [destruct i; simpl in Hv; [discriminate | destruct i; discriminate]|].
  simpl in Hall. apply andb_true_iff in Hall. destruct Hall as [Hab Hrest].
  destruct i as [|i].
  - simpl in Hu, Hv. inversion Hu; inversion Hv; subst. exact Hab.
  - simpl in Hu. apply (IH Hrest i u v Hu Hv).
Qed.

(** Every two consecutive ids of a path that the solver returns are
    joined by an edge of the list that is accessible when wheelchair mode
    is on and that no entry of [blockedEdges] names, in either direction. *)
Lemma result_path_linked
    (nodes : list (node num)) (edges : list edge) (wheelchairMode : bool)
    (blockedEdges : list blocked_edge) (startId endId : string) (r : route num) :
  dijkstra startId endId nodes edges wheelchairMode blockedEdges = Some (Some r) ->
  forall i u v,
    nth_error (path r) i = Some u -> nth_error (path r) (S i) = Some v ->
    exists e, In e edges
              /\ (wheelchairMode = true -> e_accessible e = true)
              /\ (forall b, In b blockedEdges ->
                            ~ (b_from b = from e /\ b_to b = to e)
                            /\ ~ (b_from b = to e /\ b_to b = from e))
              /\ ((from e = u /\ to e = v) \/ (from e = v /\ to e = u)).
Proof.
  intros Hr i u v Hu Hv. apply linked_edge.
  apply (all_linked_nth edges wheelchairMode blockedEdges (path r)) with (i := i); auto.
  destruct (dijkstra_cases nodes edges wheelchairMode blockedEdges startId endId)
    as [H0 | [(de & rest & H1 & _ & _ & Hw & _) | [(de & H2 & _) | (H3 & _)]]];
    rewrite Hr in *.
  - discriminate.
  - inversion H1; subst r. simpl. now apply (awalk_all_linked nodes).
  - inversion H2; subst r. reflexivity.
  - inversion H3; subst r. simpl. destruct (truthy endId); reflexivity.
Qed.

Lemma hops_ok_last_hop (nodes : list (node num)) (edges : list edge)
    (wheelchairMode : bool) (blockedEdges : list blocked_edge) (rest : list string) :
  forall u,
    hops_ok nodes edges wheelchairMode blockedEdges u rest = true ->
    last rest u <> u ->
    exists a, linked edges wheelchairMode blockedEdges a (last rest u) = true.
Proof.
  induction rest as [|v r IH]; intros u Hh Hl; [simpl in Hl; congruence|].
  simpl in Hh. apply andb_true_iff in Hh. destruct Hh as [Hh Hr].
  apply andb_true_iff in Hh. destruct Hh as [Hlk _].
  rewrite last_cons in *.
  destruct (string_dec (last r v) v) as [He | Hne].
  - rewrite He. eauto.
  - now apply IH.
Qed.

Lemma linked_incident (edges : list edge) (wheelchairMode : bool)
    (blockedEdges : list blocked_edge) (u v : string) :
  linked edges wheelchairMode blockedEdges u v = true ->
  exists e, In e edges /\ survives wheelchairMode blockedEdges e = true
            /\ (from e = u \/ to e = u) /\ (from e = v \/ to e = v).
Proof.
  unfold linked, joins. rewrite existsb_exists. intros [e [Hin He]].
  apply andb_true_iff in He. destruct He as [Hs Hj].
  exists e. split; [exact Hin|]. split; [exact Hs|].
  apply orb_true_iff in Hj.
  destruct Hj as [Hj | Hj]; apply andb_true_iff in Hj; destruct Hj as [H1 H2];
    apply String.eqb_eq in H1; apply String.eqb_eq in H2; auto.
Qed.

(** No route starts or ends at a node all of whose edges are filtered
    out, unless it stays there. *)
Lemma isolated_no_route (nodes : list (node num)) (edges : list edge)
    (wheelchairMode : bool) (blockedEdges : list blocked_edge) (n s e : string)
    (q : list string) :
  (forall ed, In ed edges -> from ed = n \/ to ed = n ->
              survives wheelchairMode blockedEdges ed = false) ->
  s <> e -> s = n \/ e = n ->
  is_route nodes edges wheelchairMode blockedEdges s e q = false.
Proof.
  intros Hiso Hne Hn.
  destruct (is_route nodes edges wheelchairMode blockedEdges s e q) eqn:Hq; [|reflexivity].
  exfalso. unfold is_route in Hq. destruct q as [|u rest]; [discriminate|].
  rewrite !andb_true_iff in Hq. destruct Hq as [[[_ _] Hl] Hh].
  apply String.eqb_eq in Hl.
  assert (Hex : exists a b, linked edges wheelchairMode blockedEdges a b = true
                            /\ (a = n \/ b = n)).
  { destruct Hn as [-> | ->].
    - destruct rest as [|v r]; [simpl in Hl; congruence|].
      simpl in Hh. apply andb_true_iff in Hh. destruct Hh as [Hh _].
      apply andb_true_iff in Hh. destruct Hh as [Hlk _]. eauto.
    - destruct (hops_ok_last_hop nodes edges wheelchairMode blockedEdges rest s Hh)
        as [a Ha]; [congruence|].
      rewrite Hl in Ha. eauto. }
  destruct Hex as (a & b & Hlk & Hab).
  destruct (linked_incident _ _ _ _ _ Hlk) as (ed & Hin & Hs & Ha & Hb).
  rewrite (Hiso ed Hin) in Hs; [discriminate|].
  destruct Hab as [<- | <-]; assumption.
Qed.

(** For two different ids of the node list, when no route of the
    filtered graph leads from [startId] to [endId], the solver returns
    [null]; so it does from or to a node all of whose edges are filtered
    out. *)
Lemma unreachable_is_null
    (nodes : list (node num)) (edges : list edge) (wheelchairMode : bool)
    (blockedEdges : list blocked_edge) :
  (forall startId endId,
      is_node nodes startId = true -> is_node nodes endId = true ->
      startId <> endId ->
      (forall q, is_route nodes edges wheelchairMode blockedEdges startId endId q = false) ->
      dijkstra startId endId nodes edges wheelchairMode blockedEdges = Some None)
  /\ (forall n other,
         is_node nodes n = true -> is_node nodes other = true -> n <> other ->
         (forall e, In e edges -> from e = n \/ to e = n ->
                    survives wheelchairMode blockedEdges e = false) ->
         dijkstra n other nodes edges wheelchairMode blockedEdges = Some None
         /\ dijkstra other n nodes edges wheelchairMode blockedEdges = Some None).
Proof.
  split.
  - intros s e _ He _ Hno. now apply dijkstra_unreachable.
  - intros n other Hn Ho Hne Hiso. split; apply dijkstra_unreachable; auto; intros q.
    + apply (isolated_no_route nodes edges wheelchairMode blockedEdges n); auto.
    + apply (isolated_no_route nodes edges wheelchairMode blockedEdges n); auto.
Qed.

(** From an id other than the empty string to itself the solver
    returns the path [[s]] with the distance 0. *)
Lemma same_start_end
    (nodes : list (node num)) (edges : list edge) (wheelchairMode : bool)
    (blockedEdges : list blocked_edge) (s : string) :
  truthy s = true ->
  dijkstra s s nodes edges wheelchairMode blockedEdges
  = Some (Some (mkRoute [s] (Some (Fin zero)))).
Proof.
  intros Htr.
  destruct (dijkstra_run nodes edges wheelchairMode blockedEdges s s)
    as (d & pv & vis & p & Hinv & Hbrk & Hk & Hp & ->).
  rewrite (inv_start_dist _ _ _ _ _ _ Hinv). simpl is_Infinity. cbv iota.
  simpl in Hp. rewrite Htr, (inv_start_prev _ _ _ _ _ _ Hinv) in Hp.
  inversion Hp. reflexivity.
Qed.

(** When [endId] is not the empty string, is not the id of a node of the
    list and differs from [startId], the solver returns the path
    [[endId]] with an undefined distance. *)
Lemma unknown_end
    (nodes : list (node num)) (edges : list edge) (wheelchairMode : bool)
    (blockedEdges : list blocked_edge) (startId endId : string) :
  truthy endId = true -> is_node nodes endId = false -> endId <> startId ->
  dijkstra startId endId nodes edges wheelchairMode blockedEdges
  = Some (Some (mkRoute [endId] None)).
Proof.
  intros Htr Hn Hne.
  destruct (dijkstra_run nodes edges wheelchairMode blockedEdges startId endId)
    as (d & pv & vis & p & Hinv & Hbrk & Hk & Hp & ->).
  assert (Hd : obj_get endId d = None).
  { destruct (obj_get endId d) eqn:E; [|reflexivity].
    assert (Hx : obj_get endId d <> None) by congruence.
    apply (key_defined nodes startId d endId Hk) in Hx.
    destruct Hx as [Hx | Hx]; congruence. }
  assert (Hpe : obj_get endId pv = None).
  { destruct (obj_get endId pv) as [u|] eqn:Hu; [|reflexivity].
    destruct (inv_prev_fin _ _ _ _ _ _ Hinv endId u Hu) as [x Hx]. congruence. }
  rewrite Hd. simpl. simpl in Hp. rewrite Htr, Hpe in Hp. inversion Hp. reflexivity.
Qed.

End DijkstraClaims.

(* ================================================================== *)
(** ** Properties of [findNearestExit] *)

Section ExitClaims.

Context {num : Type} {ops : NumOps num} {laws : NumLaws num}.

Lemma jlt_opt_irrefl (a : option (jsnum num)) : jlt_opt a a = false.
Proof. destruct a as [a|]; [apply jle_refl | reflexivity]. Qed.

Lemma jlt_opt_below (a b c : option (jsnum num)) :
  jlt_opt a c = false -> jlt_opt b c = true -> jlt_opt a b = false.
Proof.
  destruct a as [a|], b as [b|], c as [c|]; simpl; try congruence.
  intros Hac Hbc. apply (jle_trans b c a); [now apply jlt_jle | exact Hac].
Qed.

Lemma In_is_node (nodes : list (node num)) (t : node num) :
  In t nodes -> is_node nodes (id t) = true.
Proof. intros Hin. apply is_node_In. now apply in_map. Qed.

Variable nodes : list (node num).
Variable edges : list edge.
Variable wheelchairMode : bool.
Variable blockedEdges : list blocked_edge.
Variable startId : string.

Local Abbreviation run t := (dijkstra startId t nodes edges wheelchairMode blockedEdges).
Local Abbreviation best_after flag :=
  (best_of startId nodes edges wheelchairMode blockedEdges flag).
Local Abbreviation try_target flag :=
  (consider startId nodes edges wheelchairMode blockedEdges flag).

Lemma consider_best_of (flag : bool) (seen : list (node num))
    (best : option (exit_route num)) (t : node num) :
  best_after flag seen best ->
  exists best', try_target flag (Some best) t = Some best'
                /\ best_after flag (seen ++ [t]) best'.
Proof.
  intros Hb. unfold consider.
  pose proof (dijkstra_total nodes edges wheelchairMode blockedEdges startId (id t)) as Htot.
  destruct (run (id t)) as [[r|]|] eqn:Hr; [| |congruence].
  - assert (Hnew : forall b0,
               (forall t' r', In t' seen -> run (id t') = Some (Some r') ->
                              jlt_opt (distance r') (distance r) = false) ->
               b0 = mkExitRoute (path r) (distance r) (id t) flag ->
               best_after flag (seen ++ [t]) (Some b0)).
    { intros b0 Hmin ->. split.
      - exists t, r. split; [apply in_or_app; right; now left | auto].
      - intros t' r' Hin Hr'. simpl. apply in_app_or in Hin.
        destruct Hin as [Hin | [<- | []]]; [eauto|].
        rewrite Hr in Hr'. inversion Hr'. apply jlt_opt_irrefl. }
    destruct best as [b|].
    + destruct (jlt_opt (distance r) (x_distance b)) eqn:Hlt.
      * eexists. split; [reflexivity|]. apply Hnew; [|reflexivity].
        intros t' r' Hin Hr'. destruct Hb as [_ Hmin].
        apply (jlt_opt_below _ _ (x_distance b)); eauto.
      * eexists. split; [reflexivity|]. destruct Hb as [(t0 & r0 & Hin0 & Hr0 & Hb0) Hmin].
        split.
        -- exists t0, r0. split; [apply in_or_app; now left | auto].
        -- intros t' r' Hin Hr'. apply in_app_or in Hin.
           destruct Hin as [Hin | [<- | []]]; [eauto|].
           rewrite Hr in Hr'. inversion Hr'; subst r'. exact Hlt.
    + eexists. split; [reflexivity|]. apply Hnew; [|reflexivity].
      intros t' r' Hin Hr'. simpl in Hb. rewrite (Hb t' Hin) in Hr'. discriminate.
  - exists best. split; [reflexivity|]. destruct best as [b|].
    + destruct Hb as [(t0 & r0 & Hin0 & Hr0 & Hb0) Hmin]. split.
      * exists t0, r0. split; [apply in_or_app; now left | auto].
      * intros t' r' Hin Hr'. apply in_app_or in Hin.
        destruct Hin as [Hin | [<- | []]]; [eauto | congruence].
    + intros t' Hin. apply in_app_or in Hin.
      destruct Hin as [Hin | [<- | []]]; [now apply Hb | exact Hr].
Qed.

Lemma fold_consider_best_of (flag : bool) (targets : list (node num)) :
  forall (seen : list (node num)) (best : option (exit_route num)),
    best_after flag seen best ->
    exists best', fold_left (try_target flag) targets (Some best) = Some best'
                  /\ best_after flag (seen ++ targets) best'.
Proof.
  induction targets as [|t targets IH]; intros seen best Hb.
  - exists best. now rewrite app_nil_r.
  - destruct (consider_best_of flag seen best t Hb) as (b1 & Hc & Hb1).
    destruct (IH (seen ++ [t]) b1 Hb1) as (b2 & Hf & Hb2).
    exists b2. rewrite <- app_assoc in Hb2. split; [|exact Hb2].
    cbn [fold_left]. now rewrite Hc.
Qed.

(** The outcome of one of the two loops, over the nodes of type [ty]. *)
Lemma targets_loop (flag : bool) (ty : string) :
  exists best,
    fold_left (try_target flag) (filter (fun n => String.eqb (type n) ty) nodes) (Some None)
    = Some best
    /\ best_after flag (filter (fun n => String.eqb (type n) ty) nodes) best.
Proof.
  apply (fold_consider_best_of flag _ [] None). intros t [].
Qed.

Lemma target_In (ty : string) (t : node num) :
  In t (filter (fun n => String.eqb (type n) ty) nodes) <-> In t nodes /\ type t = ty.
Proof. rewrite filter_In, String.eqb_eq. tauto. Qed.


Context {inf : InfLaws num}.




(** [findNearestExit] returns: no call of [dijkstra] spends its fuel. *)
Lemma findNearestExit_total :
  findNearestExit startId nodes edges wheelchairMode blockedEdges <> None.
Proof.
  destruct (targets_loop false "exit") as (bx & Hfx & _).
  destruct (targets_loop true "refuge") as (br & Hfr & _).
  unfold findNearestExit. cbv zeta. rewrite Hfx.
  destruct bx; [discriminate|]. rewrite Hfr.
  destruct wheelchairMode; discriminate.
Qed.

End ExitClaims.

(* ================================================================== *)
(** ** [dijkstra] and [findNearestExit] as the code runs them *)

Section KeyClaims.

Context {num : Type} {ops : NumOps num} {laws : NumLaws num}.

Variable source : string -> string.

Lemma nth_error_map_Str (p : list string) (i : nat) (u : Proto.value) :
  nth_error (map Proto.Str p) i = Some u ->
  exists k, nth_error p i = Some k /\ u = Proto.Str k.
Proof.
  rewrite nth_error_map. destruct (nth_error p i) as [k|]; simpl; intros Heq;
    inversion Heq; eauto.
Qed.

Lemma plain_graph_id (nodes : list (node num)) (edges : list edge) (k : string) :
  plain_graph nodes edges = true -> is_node nodes k = true -> plain k = true.
Proof.
  intros Hg. apply plain_nodes_id. now destruct (plain_graph_parts nodes edges Hg).
Qed.

(** A result on plain nodes is a result of the solver on plain keys. *)
Lemma returns_plain (nodes : list (node num)) (edges : list edge)
    (wheelchairMode : bool) (blockedEdges : list blocked_edge) (s e : string)
    (r : Proto.route num) :
  plain_nodes nodes = true -> plain s = true -> plain e = true ->
  Proto.dijkstra source s e nodes edges wheelchairMode blockedEdges = Proto.Returns (Some r) ->
  exists r0, dijkstra s e nodes edges wheelchairMode blockedEdges = Some (Some r0)
             /\ r = plain_route r0.
Proof.
  intros Hn Hs He.
  rewrite (dijkstra_plain_nodes source nodes edges wheelchairMode blockedEdges s e Hn Hs He).
  destruct (Proto.build_adj nodes edges wheelchairMode blockedEdges); try discriminate.
  destruct (dijkstra s e nodes edges wheelchairMode blockedEdges) as [[r0|]|];
    simpl; try discriminate.
  intros Heq. inversion Heq. eauto.
Qed.

(** C1 (amended).  On a graph in which no node has the empty string as
    its id and no id of a node or end of an edge names a member of
    [Object.prototype]: when a path from [startId] to [endId] survives
    the filters and its length is not [Infinity], [dijkstra] returns a
    result; its path is such a path, without a repeated node, its
    distance is the length of that path, and no surviving path from
    [startId] to [endId] is shorter. *)
Theorem dijkstra_returns_shortest_route {inf : InfLaws num}
    (nodes : list (node num)) (edges : list edge) (wheelchairMode : bool)
    (blockedEdges : list blocked_edge) (startId endId : string) (q0 : list string) :
  ids_nonempty nodes = true -> plain_graph nodes edges = true ->
  is_route nodes edges wheelchairMode blockedEdges startId endId q0 = true ->
  is_inf (path_length nodes q0) = false ->
  exists p de,
    Proto.dijkstra source startId endId nodes edges wheelchairMode blockedEdges
    = Proto.Returns (Some (Proto.mkRoute (map Proto.Str p) (Proto.Own (Fin de))))
    /\ is_route nodes edges wheelchairMode blockedEdges startId endId p = true
    /\ NoDup p
    /\ de = path_length nodes p
    /\ forall q, is_route nodes edges wheelchairMode blockedEdges startId endId q = true ->
                 le de (path_length nodes q).
Proof.
  intros Hne Hg Hq0 Hfin.
  destruct (is_route_elim nodes edges wheelchairMode blockedEdges startId endId q0 Hq0)
    as (_ & _ & _ & _ & Hs & He).
  destruct (dijkstra_optimal nodes edges wheelchairMode blockedEdges startId endId q0
              Hne Hq0 Hfin) as ([p d] & de & Hr & Hroute & Hnd & Hd & Hde & Hopt).
  simpl in *. subst d. exists p, de.
  rewrite (dijkstra_plain_keys source nodes edges wheelchairMode blockedEdges startId endId
             Hg (plain_graph_id nodes edges _ Hg Hs) (plain_graph_id nodes edges _ Hg He)).
  rewrite Hr. auto.
Qed.

(** C2 (amended).  When no id of a node names a member of
    [Object.prototype], and [startId] and [endId] name none either, every
    two consecutive entries of a path that [dijkstra] returns are the two
    ends of an edge of the list that is accessible when wheelchair mode
    is on and that no entry of [blockedEdges] names, in either
    direction. *)
Theorem dijkstra_path_avoids_filtered_edges
    (nodes : list (node num)) (edges : list edge) (wheelchairMode : bool)
    (blockedEdges : list blocked_edge) (startId endId : string) (r : Proto.route num) :
  plain_nodes nodes = true -> plain startId = true -> plain endId = true ->
  Proto.dijkstra source startId endId nodes edges wheelchairMode blockedEdges
  = Proto.Returns (Some r) ->
  forall i u v,
    nth_error (Proto.path r) i = Some u -> nth_error (Proto.path r) (S i) = Some v ->
    exists e, In e edges
              /\ (wheelchairMode = true -> e_accessible e = true)
              /\ (forall b, In b blockedEdges ->
                            ~ (b_from b = from e /\ b_to b = to e)
                            /\ ~ (b_from b = to e /\ b_to b = from e))
              /\ ((u = Proto.Str (from e) /\ v = Proto.Str (to e))
                  \/ (u = Proto.Str (to e) /\ v = Proto.Str (from e))).
Proof.
  intros Hn Hs He Hr i u v Hu Hv.
  destruct (returns_plain nodes edges wheelchairMode blockedEdges startId endId r
              Hn Hs He Hr) as (r0 & Hr0 & ->).
  cbn [Proto.path plain_route] in Hu, Hv.
  apply nth_error_map_Str in Hu. destruct Hu as (ku & Hu & ->).
  apply nth_error_map_Str in Hv. destruct Hv as (kv & Hv & ->).
  destruct (result_path_linked nodes edges wheelchairMode blockedEdges startId endId r0 Hr0
              i ku kv Hu Hv) as (e & Hin & Hacc & Hblk & Hends).
  exists e. split; [exact Hin|]. split; [exact Hacc|]. split; [exact Hblk|].
  destruct Hends as [[<- <-] | [<- <-]]; auto.
Qed.

(** C5 (amended).  On a graph none of whose ids names a member of
    [Object.prototype]: for two different ids of the node list, when no
    path of the filtered graph leads from [startId] to [endId],
    [dijkstra] returns [null] and raises nothing; so it does from or to a
    node all of whose edges are filtered out. *)
Theorem dijkstra_unreachable_is_null
    (nodes : list (node num)) (edges : list edge) (wheelchairMode : bool)
    (blockedEdges : list blocked_edge) :
  plain_graph nodes edges = true ->
  (forall startId endId,
      is_node nodes startId = true -> is_node nodes endId = true ->
      startId <> endId ->
      (forall q, is_route nodes edges wheelchairMode blockedEdges startId endId q = false) ->
      Proto.dijkstra source startId endId nodes edges wheelchairMode blockedEdges
      = Proto.Returns None)
  /\ (forall n other,
         is_node nodes n = true -> is_node nodes other = true -> n <> other ->
         (forall e, In e edges -> from e = n \/ to e = n ->
                    survives wheelchairMode blockedEdges e = false) ->
         Proto.dijkstra source n other nodes edges wheelchairMode blockedEdges
         = Proto.Returns None
         /\ Proto.dijkstra source other n nodes edges wheelchairMode blockedEdges
            = Proto.Returns None).
Proof.
  intros Hg.
  destruct (unreachable_is_null nodes edges wheelchairMode blockedEdges) as [Hfirst Hsecond].
  split.
  - intros s e Hs He Hne Hno.
    rewrite (dijkstra_plain_keys source nodes edges wheelchairMode blockedEdges s e
               Hg (plain_graph_id nodes edges _ Hg Hs) (plain_graph_id nodes edges _ Hg He)).
    now rewrite (Hfirst s e Hs He Hne Hno).
  - intros n other Hn Ho Hne Hiso.
    destruct (Hsecond n other Hn Ho Hne Hiso) as [H1 H2].
    rewrite !(dijkstra_plain_keys source nodes edges wheelchairMode blockedEdges)
      by (assumption || now apply (plain_graph_id nodes edges)).
    now rewrite H1, H2.
Qed.

(** C6 (amended).  On a graph none of whose ids names a member of
    [Object.prototype], from an id [s] that is not the empty string and
    names none either to itself, [dijkstra] returns the path [[s]] with
    the distance 0. *)
Theorem dijkstra_same_start_end
    (nodes : list (node num)) (edges : list edge) (wheelchairMode : bool)
    (blockedEdges : list blocked_edge) (s : string) :
  truthy s = true -> plain s = true -> plain_graph nodes edges = true ->
  Proto.dijkstra source s s nodes edges wheelchairMode blockedEdges
  = Proto.Returns (Some (Proto.mkRoute [Proto.Str s] (Proto.Own (Fin zero)))).
Proof.
  intros Htr Hs Hg.
  rewrite (dijkstra_plain_keys source nodes edges wheelchairMode blockedEdges s s Hg Hs Hs).
  now rewrite (same_start_end nodes edges wheelchairMode blockedEdges s Htr).
Qed.

(** C10 (amended).  On a graph none of whose ids names a member of
    [Object.prototype], and for a [startId] that names none: when
    [endId] is not the empty string, names no member of
    [Object.prototype], is not the id of a node of the list and differs
    from [startId], [dijkstra] does not return [null]; it returns the
    path [[endId]] with an undefined distance. *)
Theorem dijkstra_unknown_end
    (nodes : list (node num)) (edges : list edge) (wheelchairMode : bool)
    (blockedEdges : list blocked_edge) (startId endId : string) :
  plain_graph nodes edges = true -> plain startId = true -> plain endId = true ->
  truthy endId = true -> is_node nodes endId = false -> endId <> startId ->
  Proto.dijkstra source startId endId nodes edges wheelchairMode blockedEdges
  = Proto.Returns (Some (Proto.mkRoute [Proto.Str endId] Proto.Missing)).
Proof.
  intros Hg Hs He Htr Hn Hne.
  rewrite (dijkstra_plain_keys source nodes edges wheelchairMode blockedEdges startId endId
             Hg Hs He).
  now rewrite (unknown_end nodes edges wheelchairMode blockedEdges startId endId Htr Hn Hne).
Qed.


Context {inf : InfLaws num}.



End KeyClaims.

(* ================================================================== *)
(** ** Properties of the direction synthesizers *)

Section DirectionClaims.

Context {num : Type} {ops : NumOps num} {laws : NumLaws num}.

Lemma above_half_pos (c : num) : ltb half c = true -> ltb zero c = true.
Proof. intros Hc. exact (lt_trans _ _ _ half_pos Hc). Qed.

Lemma below_neg_half_nonpos (c : num) : ltb c (neg half) = true -> ltb zero c = false.
Proof. intros Hc. apply lt_asym. exact (lt_trans _ _ _ Hc neg_half_neg). Qed.

Lemma above_half_abs (c : num) : ltb half c = true -> ltb (Math_abs c) half = false.
Proof.
  intros Hc. rewrite (abs_pos c (above_half_pos c Hc)). now apply lt_asym.
Qed.

Lemma below_neg_half_abs (c : num) : ltb c (neg half) = true -> ltb (Math_abs c) half = false.
Proof.
  intros Hc. rewrite (abs_nonpos c (below_neg_half_nonpos c Hc)).
  apply lt_asym. now rewrite lt_neg_half.
Qed.

(** The tag that [generateDirections] derives from its [turn] string. *)
Lemma simple_turn_tag (c : num) :
  (let turn := if ltb half (Math_abs c)
               then (if ltb zero c then "Turn left" else "Turn right")
               else "Continue straight" in
   if includes "left" turn then "left"
   else if includes "right" turn then "right" else "straight")
  = if ltb half c then "left" else if ltb c (neg half) then "right" else "straight".
Proof.
  cbv zeta. destruct (ltb zero c) eqn:Hz.
  - rewrite (abs_pos c Hz).
    destruct (ltb half c) eqn:Hc; [reflexivity|].
    destruct (ltb c (neg half)) eqn:Hn; [|reflexivity].
    rewrite (below_neg_half_nonpos c Hn) in Hz. discriminate.
  - rewrite (abs_nonpos c Hz), lt_neg_half.
    destruct (ltb half c) eqn:Hc; [rewrite (above_half_pos c Hc) in Hz; discriminate|].
    destruct (ltb c (neg half)); reflexivity.
Qed.

(** The four branches of [generateVoiceDirections] are three. *)
Lemma voice_turn_branches {A} (c dot : num) (L R S : A) :
  (if ltb (Math_abs c) half && ltb zero dot then S
   else if ltb half c then L else if ltb c (neg half) then R else S)
  = if ltb half c then L else if ltb c (neg half) then R else S.
Proof.
  destruct (ltb half c) eqn:Hc; [now rewrite (above_half_abs c Hc)|].
  destruct (ltb c (neg half)) eqn:Hn; [now rewrite (below_neg_half_abs c Hn)|].
  now destruct (ltb (Math_abs c) half && ltb zero dot).
Qed.

Lemma index_In_flat_map {A} (f : nat -> option A) (n i : nat) (a : A) :
  1 <= i -> i < n -> f i = Some a ->
  In a (flat_map (fun j => opt_list (f j)) (seq 1 (n - 1))).
Proof.
  intros H1 Hn Hf. apply in_flat_map. exists i. split.
  - apply in_seq. lia.
  - rewrite Hf. now left.
Qed.

Lemma special_types (t : string) :
  truthy (specialText_of t) = true <-> In t ["elevator"; "stairs"; "ramp"; "refuge"].
Proof.
  unfold specialText_of. simpl.
  destruct (String.eqb t "elevator") eqn:E1; [apply String.eqb_eq in E1; subst; simpl; tauto|].
  destruct (String.eqb t "stairs") eqn:E2; [apply String.eqb_eq in E2; subst; simpl; tauto|].
  destruct (String.eqb t "ramp") eqn:E3; [apply String.eqb_eq in E3; subst; simpl; tauto|].
  destruct (String.eqb t "refuge") eqn:E4; [apply String.eqb_eq in E4; subst; simpl; tauto|].
  apply String.eqb_neq in E1, E2, E3, E4. simpl. split; [discriminate|].
  intros [H | [H | [H | [H | []]]]]; congruence.
Qed.

(** C7 (amended).  At an interior node of a path, where the ids of the
    node, of the one before and of the one after resolve, with
    [cross = d1.x * d2.y - d1.y * d2.x] for [d1 = curr - prev] and
    [d2 = next - curr]: the step that [generateDirections] emits has type
    [left] when [cross > 0.5], [right] when [cross < -0.5] and [straight]
    otherwise; the step that [generateVoiceDirections] emits has type
    [left] when [cross > 0.5] and [right] when [cross < -0.5]; otherwise,
    at an elevator, stairs, a ramp or a refuge it has the type [special]
    and the advisory phrase of the node as its text, and at any other
    node the type [straight] and the text ["Continue straight."].  The
    dot product plays no part. *)
Theorem turn_classification
    (nodes : list (node num)) (p : list string) (i : nat) (prev curr next : node num) :
  1 <= i -> S i < List.length p ->
  node_at (build_nodeMap nodes) p (i - 1) = Some prev ->
  node_at (build_nodeMap nodes) p i = Some curr ->
  node_at (build_nodeMap nodes) p (i + 1) = Some next ->
  let cross := cross_of (sub (x curr) (x prev)) (sub (y curr) (y prev))
                        (sub (x next) (x curr)) (sub (y next) (y curr)) in
  (exists step,
      direction_at (build_nodeMap nodes) p i = Some step
      /\ In step (generateDirections p nodes)
      /\ d_type step
         = if ltb half cross then "left"
           else if ltb cross (neg half) then "right" else "straight")
  /\ (exists step,
         voice_at (build_nodeMap nodes) p i = Some step
         /\ (forall l, generateVoiceDirections p nodes = Some l -> In step l)
         /\ v_type step
            = (if ltb half cross then "left"
               else if ltb cross (neg half) then "right"
               else if truthy (specialText_of (type curr)) then "special"
               else "straight")
         /\ (ltb half cross = false -> ltb cross (neg half) = false ->
             (In (type curr) ["elevator"; "stairs"; "ramp"; "refuge"] ->
              v_type step = "special" /\ v_text step = specialText_of (type curr)
              /\ v_text step <> "")
             /\ (~ In (type curr) ["elevator"; "stairs"; "ramp"; "refuge"] ->
                 v_type step = "straight" /\ v_text step = "Continue straight."))).
Proof.
  intros H1 Hlen Hprev Hcurr Hnext cross.
  assert (Hlt : (i <? List.length p - 1) = true) by (apply Nat.ltb_lt; lia).
  assert (Hne : (i =? List.length p - 1) = false) by (apply Nat.eqb_neq; lia).
  assert (Hlong : (List.length p <? 2) = false) by (apply Nat.ltb_ge; lia).
  split.
  - assert (Hd : exists step,
               direction_at (build_nodeMap nodes) p i = Some step
               /\ d_type step
                  = if ltb half cross then "left"
                    else if ltb cross (neg half) then "right" else "straight").
    { unfold direction_at. cbv zeta. rewrite Hprev, Hcurr, Hlt, Hnext, Hne. cbv iota beta.
      eexists. split; [reflexivity|]. cbn [d_type]. apply simple_turn_tag. }
    destruct Hd as (step & Hs & Ht). exists step. split; [exact Hs|]. split; [|exact Ht].
    unfold generateDirections. rewrite Hlong.
    apply (index_In_flat_map (direction_at (build_nodeMap nodes) p) (List.length p) i);
      auto; lia.
  - assert (Hd : exists step,
               voice_at (build_nodeMap nodes) p i = Some step
               /\ v_type step
                  = (if ltb half cross then "left"
                     else if ltb cross (neg half) then "right"
                     else if truthy (specialText_of (type curr)) then "special"
                     else "straight")
               /\ (ltb half cross = false -> ltb cross (neg half) = false ->
                   v_text step = if truthy (specialText_of (type curr))
                                 then specialText_of (type curr)
                                 else "Continue straight.")).
    { unfold voice_at. cbv zeta. rewrite Hprev, Hcurr, Hlt, Hnext, Hne. cbv iota beta.
      fold cross. rewrite voice_turn_branches.
      destruct (ltb half cross); [eexists; split; [reflexivity|]; split;
                                  [reflexivity | discriminate]|].
      destruct (ltb cross (neg half)); [eexists; split; [reflexivity|]; split;
                                        [reflexivity | discriminate]|].
      eexists. split; [reflexivity|].
      unfold straight_step. destruct (truthy (specialText_of (type curr)));
        split; reflexivity. }
    destruct Hd as (step & Hs & Ht & Htext). exists step.
    split; [exact Hs|]. split; [|split; [exact Ht|]].
    + intros l. unfold generateVoiceDirections. rewrite Hlong.
      destruct (node_at (build_nodeMap nodes) p 0); [|discriminate].
      destruct (node_at (build_nodeMap nodes) p 1); [|discriminate].
      intros Heq. inversion Heq. right.
      apply (index_In_flat_map (voice_at (build_nodeMap nodes) p) (List.length p) i);
        auto; lia.
    + intros Hl Hr. specialize (Htext Hl Hr). rewrite Hl, Hr in Ht.
      pose proof (special_types (type curr)) as Hsp.
      destruct (truthy (specialText_of (type curr))) eqn:Htr.
      * split; [|intros Hno; exfalso; apply Hno, Hsp; reflexivity].
        intros _. split; [exact Ht|]. split; [exact Htext|].
        rewrite Htext. intros Hempty. rewrite Hempty in Htr. discriminate Htr.
      * split; [intros Hin; apply Hsp in Hin; discriminate Hin|].
        intros _. split; [exact Ht | exact Htext].
Qed.

(** Whatever the path, no step of [generateDirections] at a position whose
    own id, predecessor and successor resolve carries the heading phrase:
    its text starts with the turn, or with ["Arrive at"] at the last
    position. *)
Lemma direction_at_text
    (nodeMap : obj (node num)) (p : list string) (i : nat) (prev curr : node num)
    (step : direction) :
  node_at nodeMap p (i - 1) = Some prev ->
  node_at nodeMap p i = Some curr ->
  ((i <? List.length p - 1) = true -> node_at nodeMap p (i + 1) <> None) ->
  direction_at nodeMap p i = Some step ->
  String.prefix "Head " (text step) = false.
Proof.
  intros Hprev Hcurr Hnext.
  assert (Hi : i < List.length p).
  { unfold node_at in Hcurr. apply nth_error_Some.
    destruct (nth_error p i); [discriminate | discriminate Hcurr]. }
  unfold direction_at. cbv zeta. rewrite Hprev, Hcurr.
  cbv iota beta. destruct (i <? List.length p - 1) eqn:Hlt.
  - assert (Hne : (i =? List.length p - 1) = false).
    { apply Nat.eqb_neq. apply Nat.ltb_lt in Hlt. lia. }
    rewrite Hne. destruct (node_at nodeMap p (i + 1)) as [next|]; [|now destruct Hnext].
    intros Heq. inversion Heq; subst step. cbn [text].
    destruct (ltb half _); [destruct (ltb zero _)|]; reflexivity.
  - assert (He : (i =? List.length p - 1) = true).
    { apply Nat.eqb_eq. apply Nat.ltb_ge in Hlt. lia. }
    rewrite He. intros Heq. inversion Heq. reflexivity.
Qed.

End DirectionClaims.

(* ================================================================== *)
(** ** The building dataset *)

Lemma distinctb_NoDup (l : list string) : distinctb l = true -> NoDup l.
Proof.
  induction l as [|a r IH]; simpl; intros Hd; constructor;
    apply andb_true_iff in Hd; destruct Hd as [Ha Hr].
  - now apply negb_true_iff, set_has_false in Ha.
  - now apply IH.
Qed.

(** C9. In the dataset the ids of the nodes are pairwise distinct, and
    both ends of every edge are ids of nodes. *)
Theorem dataset_well_formed :
  NoDup (map id NODES)
  /\ forall e, In e EDGES -> In (from e) (map id NODES) /\ In (to e) (map id NODES).
Proof.
  split.
  - apply distinctb_NoDup. vm_compute. reflexivity.
  - assert (Hall : forallb (fun e => is_node NODES (from e) && is_node NODES (to e)) EDGES
                   = true) by (vm_compute; reflexivity).
    intros e He. rewrite forallb_forall in Hall. specialize (Hall e He).
    apply andb_true_iff in Hall. destruct Hall as [Hf Ht].
    split; now apply is_node_In.
Qed.

(* ================================================================== *)
(** ** The properties on the example graphs *)

Module Checks.

Import Rat Capped Examples.

Local Abbreviation QL := RatFacts.laws.
Local Abbreviation QI := RatFacts.inf_laws.

Lemma D_is_cut_off (e : edge) :
  In e triangle_edges -> from e = "D" \/ to e = "D" ->
  survives true fire_at_D e = false.
Proof.
  intros [<- | [<- | [<- | [<- | []]]]] [H | H]; try discriminate H; reflexivity.
Qed.


(** On the rationals no length is [Infinity]: where the solver on plain
    keys returns [null], no route leads to the target. *)
Lemma null_no_route (nodes : list (node Q)) (edges : list edge) (wm : bool)
    (bl : list blocked_edge) (s e : string) :
  ids_nonempty nodes = true ->
  dijkstra s e nodes edges wm bl = Some None ->
  forall q, is_route nodes edges wm bl s e q = false.
Proof.
  intros Hne Hnull q. destruct (is_route nodes edges wm bl s e q) eqn:Hq; [|reflexivity].
  destruct (dijkstra_optimal (laws := QL) (inf := QI) nodes edges wm bl s e q Hne Hq eq_refl)
    as (r & de & Hr & _).
  congruence.
Qed.


Lemma dijkstra_returns_shortest_route_witness :
  (is_route triangle_nodes triangle_edges false [] "A" "C" ["A"; "B"; "C"] = true
   /\ exists p de,
       Proto.dijkstra native_source "A" "C" triangle_nodes triangle_edges false []
       = Proto.Returns (Some (Proto.mkRoute (map Proto.Str p) (Proto.Own (Fin de))))
       /\ is_route triangle_nodes triangle_edges false [] "A" "C" p = true
       /\ NoDup p
       /\ de = path_length triangle_nodes p
       /\ forall q, is_route triangle_nodes triangle_edges false [] "A" "C" q = true ->
                    le de (path_length triangle_nodes q))
  /\ (is_route capped_triangle triangle_edges false [] "A" "C" ["A"; "B"; "C"] = true
      /\ is_inf (path_length capped_triangle ["A"; "B"; "C"]) = false
      /\ exists p de,
          Proto.dijkstra native_source "A" "C" capped_triangle triangle_edges false []
          = Proto.Returns (Some (Proto.mkRoute (map Proto.Str p) (Proto.Own (Fin de))))
          /\ is_route capped_triangle triangle_edges false [] "A" "C" p = true
          /\ NoDup p
          /\ de = path_length capped_triangle p
          /\ forall q, is_route capped_triangle triangle_edges false [] "A" "C" q = true ->
                       le de (path_length capped_triangle q)).
Proof.
  split.
  - split; [reflexivity|].
    apply (dijkstra_returns_shortest_route (laws := QL) (inf := QI) native_source
             triangle_nodes triangle_edges false [] "A" "C" ["A"; "B"; "C"]);
      reflexivity.
  - split; [reflexivity|]. split; [reflexivity|].
    apply (dijkstra_returns_shortest_route (laws := CappedFacts.capped_laws)
             (inf := CappedFacts.capped_inf_laws) native_source
             capped_triangle triangle_edges false [] "A" "C" ["A"; "B"; "C"]);
      reflexivity.
Defined.

(** C1 as stated fails in four ways.  Through a node whose id is the
    empty string the route [A], [""], [X] exists, and [dijkstra] returns
    [null].  From a node whose id is [constructor] the path returned
    starts with [Object.prototype.constructor], which is no id.  With an
    edge from the id [constructor], which is no node, to [A], [dijkstra]
    raises.  And where the length of the only route overflows, [dijkstra]
    returns [null]. *)
Lemma dijkstra_misses_route :
  (is_route unnamed_nodes unnamed_edges false [] "A" "X" ["A"; ""; "X"] = true
   /\ Proto.dijkstra native_source "A" "X" unnamed_nodes unnamed_edges false []
      = Proto.Returns None
   /\ ~ exists r, Proto.dijkstra native_source "A" "X" unnamed_nodes unnamed_edges false []
                  = Proto.Returns (Some r))
  /\ (is_route proto_nodes proto_edges false [] "constructor" "B" ["constructor"; "B"] = true
      /\ exists r,
          Proto.dijkstra native_source "constructor" "B" proto_nodes proto_edges false []
          = Proto.Returns (Some r)
          /\ Proto.path r = [Proto.Native "constructor"; Proto.Str "constructor";
                             Proto.Str "B"]
          /\ ~ exists p, Proto.path r = map Proto.Str p)
  /\ (is_route triangle_nodes (triangle_edges ++ [dangling]) false [] "A" "C"
               ["A"; "B"; "C"] = true
      /\ Proto.dijkstra native_source "A" "C" triangle_nodes (triangle_edges ++ [dangling])
                        false []
         = Proto.TypeError
      /\ ~ exists r, Proto.dijkstra native_source "A" "C" triangle_nodes
                                    (triangle_edges ++ [dangling]) false []
                     = Proto.Returns (Some r))
  /\ (is_route far_nodes far_edges false [] "A" "B" ["A"; "B"] = true
      /\ is_inf (path_length far_nodes ["A"; "B"]) = true
      /\ Proto.dijkstra native_source "A" "B" far_nodes far_edges false []
         = Proto.Returns None
      /\ ~ exists r, Proto.dijkstra native_source "A" "B" far_nodes far_edges false []
                     = Proto.Returns (Some r)).
Proof.
  assert (H1 : Proto.dijkstra native_source "A" "X" unnamed_nodes unnamed_edges false []
               = Proto.Returns None) by (vm_compute; reflexivity).
  assert (H3 : Proto.dijkstra native_source "A" "C" triangle_nodes
                              (triangle_edges ++ [dangling]) false []
               = Proto.TypeError) by (vm_compute; reflexivity).
  assert (H4 : Proto.dijkstra native_source "A" "B" far_nodes far_edges false []
               = Proto.Returns None) by (vm_compute; reflexivity).
  split.
  { split; [reflexivity|]. split; [exact H1|]. intros [r Hr]. rewrite H1 in Hr. discriminate. }
  split.
  { split; [reflexivity|]. eexists. split; [vm_compute; reflexivity|].
    split; [reflexivity|]. intros [[|k p] Hp]; discriminate Hp. }
  split.
  { split; [reflexivity|]. split; [exact H3|]. intros [r Hr]. rewrite H3 in Hr. discriminate. }
  split; [reflexivity|]. split; [reflexivity|]. split; [exact H4|].
  intros [r Hr]. rewrite H4 in Hr. discriminate.
Qed.

Lemma dijkstra_path_avoids_filtered_edges_witness :
  exists r,
    Proto.dijkstra native_source "A" "C" triangle_nodes triangle_edges true fire_at_D
    = Proto.Returns (Some r)
    /\ Proto.path r = [Proto.Str "A"; Proto.Str "B"; Proto.Str "C"]
    /\ forall i u v,
        nth_error (Proto.path r) i = Some u -> nth_error (Proto.path r) (S i) = Some v ->
        exists e, In e triangle_edges
                  /\ (true = true -> e_accessible e = true)
                  /\ (forall b, In b fire_at_D ->
                                ~ (b_from b = from e /\ b_to b = to e)
                                /\ ~ (b_from b = to e /\ b_to b = from e))
                  /\ ((u = Proto.Str (from e) /\ v = Proto.Str (to e))
                      \/ (u = Proto.Str (to e) /\ v = Proto.Str (from e))).
Proof.
  match eval vm_compute in
    (Proto.dijkstra native_source "A" "C" triangle_nodes triangle_edges true fire_at_D)
  with Proto.Returns (Some ?r) => exists r end.
  split; [vm_compute; reflexivity|]. split; [reflexivity|].
  apply (dijkstra_path_avoids_filtered_edges (laws := QL) native_source
           triangle_nodes triangle_edges true fire_at_D "A" "C");
    vm_compute; reflexivity.
Defined.

(** C2 as stated fails where the walk back along [prev] reads a member
    of [Object.prototype]: from the node [constructor], and to the id
    [constructor], which is no node, the path returned starts with
    [Object.prototype.constructor], and no edge joins it to the entry
    after it. *)
Lemma dijkstra_path_through_prototype :
  (exists r,
      Proto.dijkstra native_source "constructor" "B" proto_nodes proto_edges false []
      = Proto.Returns (Some r)
      /\ nth_error (Proto.path r) 0 = Some (Proto.Native "constructor")
      /\ nth_error (Proto.path r) 1 = Some (Proto.Str "constructor")
      /\ ~ exists e, In e proto_edges
                     /\ ((Proto.Native "constructor" = Proto.Str (from e)
                          /\ Proto.Str "constructor" = Proto.Str (to e))
                         \/ (Proto.Native "constructor" = Proto.Str (to e)
                             /\ Proto.Str "constructor" = Proto.Str (from e))))
  /\ (exists r,
         Proto.dijkstra native_source "A" "constructor" triangle_nodes triangle_edges false []
         = Proto.Returns (Some r)
         /\ nth_error (Proto.path r) 0 = Some (Proto.Native "constructor")
         /\ nth_error (Proto.path r) 1 = Some (Proto.Str "constructor")
         /\ ~ exists e, In e triangle_edges
                        /\ ((Proto.Native "constructor" = Proto.Str (from e)
                             /\ Proto.Str "constructor" = Proto.Str (to e))
                            \/ (Proto.Native "constructor" = Proto.Str (to e)
                                /\ Proto.Str "constructor" = Proto.Str (from e)))).
Proof.
  split.
  - eexists. split; [vm_compute; reflexivity|]. split; [reflexivity|].
    split; [reflexivity|]. intros (e & _ & [[H _] | [H _]]); discriminate H.
  - eexists. split; [vm_compute; reflexivity|]. split; [reflexivity|].
    split; [reflexivity|]. intros (e & _ & [[H _] | [H _]]); discriminate H.
Qed.

Lemma dijkstra_unreachable_is_null_witness :
  Proto.dijkstra native_source "A" "D" triangle_nodes triangle_edges true fire_at_D
  = Proto.Returns None
  /\ Proto.dijkstra native_source "D" "A" triangle_nodes triangle_edges true fire_at_D
     = Proto.Returns None.
Proof.
  destruct (dijkstra_unreachable_is_null (laws := QL) native_source
              triangle_nodes triangle_edges true fire_at_D eq_refl) as [Hfirst Hsecond].
  split.
  - apply Hfirst; [reflexivity | reflexivity | discriminate |].
    intros q. apply (isolated_no_route _ _ _ _ "D"); [exact D_is_cut_off | discriminate | now right].
  - apply (Hsecond "D" "A"); [reflexivity | reflexivity | discriminate | exact D_is_cut_off].
Defined.

(** C5 as stated fails where an edge leads from an id that is no node and
    names a member of [Object.prototype]: no route leads from [A] to [D],
    and [dijkstra] raises a [TypeError]. *)
Lemma dijkstra_raises_on_dangling_edge :
  is_node triangle_nodes "A" = true /\ is_node triangle_nodes "D" = true /\ "A" <> "D"
  /\ (forall q, is_route triangle_nodes [mkEdge "C" "D" "door" true; dangling] false []
                         "A" "D" q = false)
  /\ Proto.dijkstra native_source "A" "D" triangle_nodes
                    [mkEdge "C" "D" "door" true; dangling] false []
     = Proto.TypeError
  /\ Proto.dijkstra native_source "A" "D" triangle_nodes
                    [mkEdge "C" "D" "door" true; dangling] false []
     <> Proto.Returns None.
Proof.
  assert (Hd : Proto.dijkstra native_source "A" "D" triangle_nodes
                              [mkEdge "C" "D" "door" true; dangling] false []
               = Proto.TypeError) by (vm_compute; reflexivity).
  split; [reflexivity|]. split; [reflexivity|]. split; [discriminate|].
  split; [apply null_no_route; vm_compute; reflexivity|].
  split; [exact Hd|]. rewrite Hd. discriminate.
Qed.

Lemma dijkstra_same_start_end_witness :
  Proto.dijkstra native_source "A" "A" triangle_nodes triangle_edges true fire_at_D
  = Proto.Returns (Some (Proto.mkRoute [Proto.Str "A"] (Proto.Own (Fin zero)))).
Proof.
  apply (dijkstra_same_start_end (laws := QL)); reflexivity.
Defined.

(** C6 as stated fails for the node whose id is the empty string, where
    the path returned is empty; for a node whose id is [constructor],
    where the path returned starts with [Object.prototype.constructor];
    and where an edge leads from the id [constructor], which is no node,
    where [dijkstra] raises. *)
Lemma dijkstra_to_itself_not_alone :
  (is_node unnamed_nodes "" = true
   /\ Proto.dijkstra native_source "" "" unnamed_nodes unnamed_edges false []
      = Proto.Returns (Some (Proto.mkRoute [] (Proto.Own (Fin zero))))
   /\ Proto.dijkstra native_source "" "" unnamed_nodes unnamed_edges false []
      <> Proto.Returns (Some (Proto.mkRoute [Proto.Str ""] (Proto.Own (Fin zero)))))
  /\ (is_node proto_nodes "constructor" = true
      /\ Proto.dijkstra native_source "constructor" "constructor" proto_nodes proto_edges
                        false []
         = Proto.Returns
             (Some (Proto.mkRoute [Proto.Native "constructor"; Proto.Str "constructor"]
                                  (Proto.Own (Fin zero))))
      /\ Proto.dijkstra native_source "constructor" "constructor" proto_nodes proto_edges
                        false []
         <> Proto.Returns
              (Some (Proto.mkRoute [Proto.Str "constructor"] (Proto.Own (Fin zero)))))
  /\ (is_node triangle_nodes "A" = true
      /\ Proto.dijkstra native_source "A" "A" triangle_nodes (triangle_edges ++ [dangling])
                        false []
         = Proto.TypeError
      /\ Proto.dijkstra native_source "A" "A" triangle_nodes (triangle_edges ++ [dangling])
                        false []
         <> Proto.Returns (Some (Proto.mkRoute [Proto.Str "A"] (Proto.Own (Fin zero))))).
Proof.
  assert (H1 : Proto.dijkstra native_source "" "" unnamed_nodes unnamed_edges false []
               = Proto.Returns (Some (Proto.mkRoute [] (Proto.Own (Fin zero)))))
    by (vm_compute; reflexivity).
  assert (H2 : Proto.dijkstra native_source "constructor" "constructor" proto_nodes
                              proto_edges false []
               = Proto.Returns
                   (Some (Proto.mkRoute [Proto.Native "constructor"; Proto.Str "constructor"]
                                        (Proto.Own (Fin zero)))))
    by (vm_compute; reflexivity).
  assert (H3 : Proto.dijkstra native_source "A" "A" triangle_nodes
                              (triangle_edges ++ [dangling]) false []
               = Proto.TypeError) by (vm_compute; reflexivity).
  split; [split; [reflexivity|]; split; [exact H1 | rewrite H1; discriminate]|].
  split; [split; [reflexivity|]; split; [exact H2 | rewrite H2; discriminate]|].
  split; [reflexivity|]. split; [exact H3 | rewrite H3; discriminate].
Qed.

Lemma dijkstra_unknown_end_witness :
  Proto.dijkstra native_source "A" "Z" triangle_nodes triangle_edges false []
  = Proto.Returns (Some (Proto.mkRoute [Proto.Str "Z"] Proto.Missing)).
Proof.
  apply (dijkstra_unknown_end (laws := QL));
    [reflexivity | reflexivity | reflexivity | reflexivity | reflexivity | discriminate].
Defined.

(** C10 as stated fails for an [endId] that names a member of
    [Object.prototype]: the path returned starts with that member and the
    distance is that member.  It also fails, with a [TypeError], for a
    [startId] that is no node and names such a member, and where an edge
    leads from such an id. *)
Lemma dijkstra_unknown_end_on_prototype :
  (truthy "constructor" = true /\ is_node triangle_nodes "constructor" = false
   /\ "constructor" <> "A"
   /\ Proto.dijkstra native_source "A" "constructor" triangle_nodes triangle_edges false []
      = Proto.Returns
          (Some (Proto.mkRoute [Proto.Native "constructor"; Proto.Str "constructor"]
                               (Proto.Inherited "constructor")))
   /\ Proto.dijkstra native_source "A" "constructor" triangle_nodes triangle_edges false []
      <> Proto.Returns (Some (Proto.mkRoute [Proto.Str "constructor"] Proto.Missing)))
  /\ (truthy "Z" = true /\ is_node triangle_nodes "Z" = false /\ "Z" <> "constructor"
      /\ Proto.dijkstra native_source "constructor" "Z" triangle_nodes triangle_edges false []
         = Proto.TypeError
      /\ Proto.dijkstra native_source "constructor" "Z" triangle_nodes triangle_edges false []
         <> Proto.Returns (Some (Proto.mkRoute [Proto.Str "Z"] Proto.Missing)))
  /\ (truthy "Z" = true /\ is_node triangle_nodes "Z" = false /\ "Z" <> "A"
      /\ Proto.dijkstra native_source "A" "Z" triangle_nodes (triangle_edges ++ [dangling])
                        false []
         = Proto.TypeError
      /\ Proto.dijkstra native_source "A" "Z" triangle_nodes (triangle_edges ++ [dangling])
                        false []
         <> Proto.Returns (Some (Proto.mkRoute [Proto.Str "Z"] Proto.Missing))).
Proof.
  assert (H1 : Proto.dijkstra native_source "A" "constructor" triangle_nodes triangle_edges
                              false []
               = Proto.Returns
                   (Some (Proto.mkRoute [Proto.Native "constructor"; Proto.Str "constructor"]
                                        (Proto.Inherited "constructor"))))
    by (vm_compute; reflexivity).
  assert (H2 : Proto.dijkstra native_source "constructor" "Z" triangle_nodes triangle_edges
                              false []
               = Proto.TypeError) by (vm_compute; reflexivity).
  assert (H3 : Proto.dijkstra native_source "A" "Z" triangle_nodes
                              (triangle_edges ++ [dangling]) false []
               = Proto.TypeError) by (vm_compute; reflexivity).
  split.
  { split; [reflexivity|]. split; [reflexivity|]. split; [discriminate|].
    split; [exact H1 | rewrite H1; discriminate]. }
  split.
  { split; [reflexivity|]. split; [reflexivity|]. split; [discriminate|].
    split; [exact H2 | rewrite H2; discriminate]. }
  split; [reflexivity|]. split; [reflexivity|]. split; [discriminate|].
  split; [exact H3 | rewrite H3; discriminate].
Qed.





Lemma turn_classification_witness :
  (exists step,
      direction_at (build_nodeMap tour_nodes) tour 3 = Some step
      /\ In step (generateDirections tour tour_nodes)
      /\ d_type step = "straight")
  /\ (exists step,
         voice_at (build_nodeMap tour_nodes) tour 3 = Some step
         /\ (forall l, generateVoiceDirections tour tour_nodes = Some l -> In step l)
         /\ v_type step = "special"
         /\ v_text step = "Take the elevator.").
Proof.
  destruct (turn_classification (laws := QL) tour_nodes tour 3
              (pt "P2" 4 3 "intersection") (pt "P3" 8 3 "elevator")
              (pt "P4" 12 3 "intersection")
              ltac:(lia) ltac:(simpl; lia) eq_refl eq_refl eq_refl) as [Hd Hv].
  split; [exact Hd|].
  destruct Hv as (step & Hs & Hin & _ & Hrest).
  destruct (Hrest eq_refl eq_refl) as [Hsp _].
  destruct (Hsp ltac:(simpl; auto)) as (Hty & Htext & _).
  exists step. split; [exact Hs|]. split; [exact Hin|]. split; [exact Hty | exact Htext].
Defined.

(** C7 as stated fails for the voice synthesizer at a node with an
    advisory phrase: straight on past the elevator [P3] the cross product
    is neither above [0.5] nor below [-0.5], and the step has type
    [special]. *)
Lemma voice_straight_past_elevator :
  let cross : Q := (cross_of (sub 8 4) (sub 3 3) (sub 12 8) (sub 3 3))%Q in
  node_at (build_nodeMap tour_nodes) tour 2 = Some (pt "P2" 4 3 "intersection")
  /\ node_at (build_nodeMap tour_nodes) tour 3 = Some (pt "P3" 8 3 "elevator")
  /\ node_at (build_nodeMap tour_nodes) tour 4 = Some (pt "P4" 12 3 "intersection")
  /\ ltb half cross = false /\ ltb cross (neg half) = false
  /\ voice_at (build_nodeMap tour_nodes) tour 3
     = Some (mkVoice "Take the elevator." "P3" "special")
  /\ (forall step, voice_at (build_nodeMap tour_nodes) tour 3 = Some step ->
                   v_type step <> "straight")
  /\ generateVoiceDirections tour tour_nodes
     = Some [mkVoice "Route calculated. Head east." "P0" "start";
             mkVoice "Turn left." "P1" "left";
             mkVoice "Turn right." "P2" "right";
             mkVoice "Take the elevator." "P3" "special";
             mkVoice "Continue straight." "P4" "straight";
             mkVoice "Continue straight." "P5" "straight";
             mkVoice "You have arrived at intersection." "P6" "arrive"].
Proof.
  assert (Hv : voice_at (build_nodeMap tour_nodes) tour 3
               = Some (mkVoice "Take the elevator." "P3" "special"))
    by (vm_compute; reflexivity).
  cbv zeta. do 5 (split; [vm_compute; reflexivity|]).
  split; [exact Hv|]. split; [|vm_compute; reflexivity].
  intros step Hs. rewrite Hv in Hs. inversion Hs. discriminate.
Qed.

(** C8: what [generateDirections] emits for the first hop.  On a path of
    two nodes the only step is the arrival, on a longer path the first
    step is the turn at the second node; neither is the heading phrase. *)
Theorem generateDirections_first_hop :
  generateDirections ["P0"; "P1"] tour_nodes
  = [mkDirection "Arrive at P1" "4" "arrive"]
  /\ generateDirections ["P0"; "P1"; "P2"] tour_nodes
     = [mkDirection "Turn left at P1" "4" "left";
        mkDirection "Arrive at P2" "3" "arrive"]
  /\ forall step,
      In step (generateDirections ["P0"; "P1"] tour_nodes)
      \/ In step (generateDirections ["P0"; "P1"; "P2"] tour_nodes) ->
      text step <> "Head east — 4m".
Proof.
  split; [vm_compute; reflexivity|]. split; [vm_compute; reflexivity|].
  intros step [H | H]; vm_compute in H;
    repeat (destruct H as [<- | H]; [discriminate|]); destruct H.
Qed.

End Checks.

(* ================================================================== *)
(** ** The laws hold in the real numbers *)

Module RealFacts.

Import Real.

Lemma Rltb_true (a b : R) : Rltb a b = true <-> (a < b)%R.
Proof. unfold Rltb. destruct (Rlt_dec a b); split; intros; auto; discriminate. Qed.

Lemma Rltb_false (a b : R) : Rltb a b = false <-> (b <= a)%R.
Proof.
  unfold Rltb. destruct (Rlt_dec a b) as [Hlt | Hge]; split; intros H; auto.
  - discriminate.
  - exfalso. Lra.lra.
  - Lra.lra.
Qed.

#[export] Instance laws : NumLaws R.
Proof.
  constructor; unfold le; simpl.
  - intros a b c. rewrite !Rltb_false. intros. Lra.lra.
  - intros a b. rewrite Rltb_true, Rltb_false. intros. Lra.lra.
  - intros a b w. rewrite !Rltb_false. intros. Lra.lra.
  - intros a w. rewrite !Rltb_false. intros. Lra.lra.
  - intros a. rewrite Rltb_false. apply sqrt_pos.
  - intros a b. ring.
  - intros a. rewrite Rltb_true. intros Ha. apply Rabs_pos_eq. Lra.lra.
  - intros a. rewrite Rltb_false. apply Rabs_left1.
  - intros a. apply eq_iff_eq_true. rewrite !Rltb_true. split; intros; Lra.lra.
  - apply Rltb_true. Lra.lra.
  - apply Rltb_true. Lra.lra.
Qed.

#[export] Instance real_inf_laws : InfLaws R.
Proof. constructor; simpl; [discriminate | discriminate | reflexivity]. Qed.

End RealFacts.

(* ================================================================== *)
(** ** The scenarios of the specification on the building dataset *)

Module Building.

Import Rat.

(** From [NODE_NC_W] to [NODE_SC_SE], without wheelchair mode and without
    hazards, the route leads through the east wing. *)
Lemma east_wing_route :
  option_map (option_map path) (dijkstra "NODE_NC_W" "NODE_SC_SE" NODES EDGES false [])
  = Some (Some ["NODE_NC_W"; "NODE_NC_1"; "NODE_NC_NW"; "NODE_NC_2"; "NODE_NC_C";
                "NODE_NC_3"; "NODE_NC_E"; "NODE_EW_MID"; "NODE_SC_E"; "NODE_SC_SE"]).
Proof. vm_compute. reflexivity. Qed.

(** With the hazard of the demonstration the nearest exit from
    [NODE_NC_1] is reached around the blocked segment. *)
Lemma hazard_reroute :
  option_map (option_map (fun b => (targetId b, isRefuge b, x_path b)))
    (findNearestExit "NODE_NC_1" NODES EDGES false
       [mkBlocked "NODE_NC_3" "NODE_NC_E"; mkBlocked "NODE_NC_E" "NODE_EW_MID"])
  = Some (Some ("NODE_EXIT_C", false,
                ["NODE_NC_1"; "NODE_NC_NW"; "NODE_NW_MID"; "NODE_EXIT_C"])).
Proof. vm_compute. reflexivity. Qed.

(** The dataset has no node with an empty id, so the properties of
    [dijkstra] and [findNearestExit] above apply to it as they stand. *)
Lemma dataset_ids_nonempty : ids_nonempty NODES = true.
Proof. vm_compute. reflexivity. Qed.

End Building.

(* ================================================================== *)
(** ** Further properties of [dijkstra] *)

Section DijkstraMore.

Context {num : Type} {ops : NumOps num} {laws : NumLaws num}.

Lemma fold_left_filter {A B} (f : A -> B -> A) (keep : B -> bool) (l : list B) :
  forall a, fold_left f (filter keep l) a
            = fold_left (fun acc b => if keep b then f acc b else acc) l a.
Proof.
  induction l as [|b l IH]; intros a; simpl; [reflexivity|].
  destruct (keep b); simpl; apply IH.
Qed.

Lemma fold_left_ext {A B} (f g : A -> B -> A) (l : list B) :
  (forall a b, f a b = g a b) -> forall a, fold_left f l a = fold_left g l a.
Proof.
  intros Hfg. induction l as [|b l IH]; intros a; simpl; [reflexivity|].
  rewrite Hfg. apply IH.
Qed.



Lemma add_edge_dangling (nodes : list (node num)) (wheelchairMode : bool)
    (blockedEdges : list blocked_edge) (a : obj (list (string * num))) (e : edge) :
  is_node nodes (from e) && is_node nodes (to e) = false ->
  add_edge wheelchairMode blockedEdges (build_nodeMap nodes) a e = a.
Proof.
  intros Hd. unfold add_edge.
  destruct (wheelchairMode && negb (e_accessible e)); [reflexivity|].
  destruct (isBlocked blockedEdges e); [reflexivity|].
  destruct (obj_get (from e) (build_nodeMap nodes)) as [n1|] eqn:H1; [|reflexivity].
  destruct (obj_get (to e) (build_nodeMap nodes)) as [n2|] eqn:H2; [|reflexivity].
  assert (Hf : is_node nodes (from e) = true) by (apply nodeMap_defined; congruence).
  assert (Ht : is_node nodes (to e) = true) by (apply nodeMap_defined; congruence).
  rewrite Hf, Ht in Hd. discriminate.
Qed.

Lemma build_adj_known_ends (nodes : list (node num)) (edges : list edge)
    (wheelchairMode : bool) (blockedEdges : list blocked_edge) :
  build_adj nodes edges wheelchairMode blockedEdges
  = build_adj nodes
      (filter (fun e => is_node nodes (from e) && is_node nodes (to e)) edges)
      wheelchairMode blockedEdges.
Proof.
  unfold build_adj. rewrite fold_left_filter. apply fold_left_ext.
  intros a e.
  destruct (is_node nodes (from e) && is_node nodes (to e)) eqn:Hk; [reflexivity|].
  now apply add_edge_dangling.
Qed.

Lemma dijkstra_adj (nodes : list (node num)) (edges edges' : list edge)
    (wm wm' : bool) (bl bl' : list blocked_edge) (s e : string) :
  build_adj nodes edges wm bl = build_adj nodes edges' wm' bl' ->
  dijkstra s e nodes edges wm bl = dijkstra s e nodes edges' wm' bl'.
Proof. intros Ha. unfold dijkstra. now rewrite Ha. Qed.

(** Soundness of a result for a known, non-empty target. *)
Lemma dijkstra_sound
    (nodes : list (node num)) (edges : list edge) (wheelchairMode : bool)
    (blockedEdges : list blocked_edge) (startId endId : string) (r : route num) :
  truthy endId = true -> is_node nodes endId = true ->
  dijkstra startId endId nodes edges wheelchairMode blockedEdges = Some (Some r) ->
  is_route nodes edges wheelchairMode blockedEdges startId endId (path r) = true
  /\ NoDup (path r)
  /\ distance r = Some (Fin (path_length nodes (path r))).
Proof.
  intros Htr He Hr.
  destruct (dijkstra_cases nodes edges wheelchairMode blockedEdges startId endId)
    as [H0 | [(de & rest & H1 & _ & Hl & Hw & Hsum & Hnd) | [(de & H2 & Hempty) | (H3 & _ & Hn)]]].
  - congruence.
  - rewrite Hr in H1. inversion H1; subst r. simpl.
    split; [now apply is_route_intro|]. split; [exact Hnd|]. now rewrite Hsum.
  - subst endId. discriminate.
  - congruence.
Qed.

(** From a start that is not an id of the node list no node of the
    list is found. *)
Lemma unknown_start
    (nodes : list (node num)) (edges : list edge) (wheelchairMode : bool)
    (blockedEdges : list blocked_edge) (startId endId : string) :
  is_node nodes startId = false -> is_node nodes endId = true ->
  dijkstra startId endId nodes edges wheelchairMode blockedEdges = Some None.
Proof.
  intros Hs He. apply dijkstra_unreachable; [exact He|].
  intros q. destruct (is_route nodes edges wheelchairMode blockedEdges startId endId q) eqn:Hq;
    [|reflexivity].
  destruct (is_route_elim _ _ _ _ _ _ _ Hq) as (_ & _ & _ & _ & Hs' & _). congruence.
Qed.


(** An edge one of whose ends is not an id of the node list is skipped. *)
Lemma skips_dangling_edges
    (nodes : list (node num)) (edges : list edge) (wheelchairMode : bool)
    (blockedEdges : list blocked_edge) (startId endId : string) :
  dijkstra startId endId nodes edges wheelchairMode blockedEdges
  = dijkstra startId endId nodes
      (filter (fun e => is_node nodes (from e) && is_node nodes (to e)) edges)
      wheelchairMode blockedEdges.
Proof. apply dijkstra_adj, build_adj_known_ends. Qed.

Lemma isBlocked_incl (bl bl' : list blocked_edge) (e : edge) :
  incl bl bl' -> isBlocked bl e = true -> isBlocked bl' e = true.
Proof.
  unfold isBlocked. rewrite !existsb_exists. intros Hi [b [Hb Hm]]. exists b. auto.
Qed.

Lemma survives_weaker (wm wm' : bool) (bl bl' : list blocked_edge) (e : edge) :
  (wm = true -> wm' = true) -> incl bl bl' ->
  survives wm' bl' e = true -> survives wm bl e = true.
Proof.
  unfold survives. intros Hwm Hi Hs.
  apply andb_true_iff in Hs. destruct Hs as [Ha Hb].
  apply andb_true_iff. split.
  - destruct wm; [|reflexivity]. now rewrite (Hwm eq_refl) in Ha.
  - apply negb_true_iff. apply negb_true_iff in Hb.
    destruct (isBlocked bl e) eqn:E; [|reflexivity].
    rewrite (isBlocked_incl bl bl' e Hi E) in Hb. discriminate.
Qed.

Lemma linked_weaker (edges : list edge) (wm wm' : bool) (bl bl' : list blocked_edge)
    (u v : string) :
  (wm = true -> wm' = true) -> incl bl bl' ->
  linked edges wm' bl' u v = true -> linked edges wm bl u v = true.
Proof.
  unfold linked. rewrite !existsb_exists. intros Hwm Hi [e [Hin He]].
  apply andb_true_iff in He. destruct He as [Hs Hj].
  exists e. split; [exact Hin|]. now rewrite (survives_weaker wm wm' bl bl' e Hwm Hi Hs), Hj.
Qed.

Lemma hops_ok_weaker (nodes : list (node num)) (edges : list edge) (wm wm' : bool)
    (bl bl' : list blocked_edge) (rest : list string) :
  (wm = true -> wm' = true) -> incl bl bl' ->
  forall u, hops_ok nodes edges wm' bl' u rest = true ->
            hops_ok nodes edges wm bl u rest = true.
Proof.
  intros Hwm Hi. induction rest as [|v r IH]; intros u Hh; simpl in *; [reflexivity|].
  apply andb_true_iff in Hh. destruct Hh as [Hh Hr].
  apply andb_true_iff in Hh. destruct Hh as [Hl Hv].
  now rewrite (linked_weaker edges wm wm' bl bl' u v Hwm Hi Hl), Hv, IH.
Qed.

Lemma is_route_weaker (nodes : list (node num)) (edges : list edge) (wm wm' : bool)
    (bl bl' : list blocked_edge) (s e : string) (q : list string) :
  (wm = true -> wm' = true) -> incl bl bl' ->
  is_route nodes edges wm' bl' s e q = true -> is_route nodes edges wm bl s e q = true.
Proof.
  intros Hwm Hi. unfold is_route. destruct q as [|u rest]; [auto|].
  rewrite !andb_true_iff. intros [[[H1 H2] H3] H4].
  repeat split; auto. eapply hops_ok_weaker; eauto.
Qed.

Context {inf : InfLaws num}.

(** With fewer filters a route is found as well, and it is not longer. *)
Lemma fewer_filters_not_longer
    (nodes : list (node num)) (edges : list edge) (wm wm' : bool)
    (bl bl' : list blocked_edge) (startId endId : string) (r' : route num) :
  ids_nonempty nodes = true -> is_node nodes endId = true ->
  (wm = true -> wm' = true) -> incl bl bl' ->
  dijkstra startId endId nodes edges wm' bl' = Some (Some r') ->
  exists r d d',
    dijkstra startId endId nodes edges wm bl = Some (Some r)
    /\ distance r = Some (Fin d) /\ distance r' = Some (Fin d')
    /\ le d d'.
Proof.
  intros Hne He Hwm Hi Hr'.
  destruct (dijkstra_sound nodes edges wm' bl' startId endId r'
              (ids_nonempty_truthy nodes endId Hne He) He Hr') as (Hroute & _ & Hd').
  pose proof (is_route_weaker nodes edges wm wm' bl bl' _ _ _ Hwm Hi Hroute) as Hroute0.
  pose proof (dijkstra_distance_fin nodes edges wm' bl' startId endId r' _ Hr' Hd') as Hfin.
  destruct (dijkstra_optimal nodes edges wm bl startId endId (path r') Hne Hroute0 Hfin)
    as (r & d & Hr & _ & _ & Hd & _ & Hopt).
  exists r, d, (path_length nodes (path r')). repeat split; auto.
Qed.

Lemma linked_sym (edges : list edge) (wm : bool) (bl : list blocked_edge) (u v : string) :
  linked edges wm bl u v = linked edges wm bl v u.
Proof.
  unfold linked, joins. induction edges as [|e edges IH]; simpl; [reflexivity|].
  rewrite IH. f_equal. f_equal. apply orb_comm.
Qed.

Lemma hops_ok_snoc (nodes : list (node num)) (edges : list edge) (wm : bool)
    (bl : list blocked_edge) (rest : list string) (v : string) :
  forall u,
    hops_ok nodes edges wm bl u (rest ++ [v])
    = hops_ok nodes edges wm bl u rest
      && (linked edges wm bl (last rest u) v && is_node nodes v).
Proof.
  induction rest as [|a rest IH]; intros u.
  - simpl. now rewrite andb_true_r.
  - simpl app. simpl hops_ok. rewrite IH, last_cons. now rewrite andb_assoc.
Qed.

Lemma is_route_snoc (nodes : list (node num)) (edges : list edge) (wm : bool)
    (bl : list blocked_edge) (a v u : string) (q : list string) :
  is_route nodes edges wm bl a v q = true ->
  linked edges wm bl v u = true -> is_node nodes u = true ->
  is_route nodes edges wm bl a u (q ++ [u]) = true.
Proof.
  unfold is_route. destruct q as [|a' rest]; [discriminate|].
  rewrite !andb_true_iff. intros [[[H1 H2] H3] H4] Hl Hu.
  apply String.eqb_eq in H3. simpl app.
  rewrite !andb_true_iff, last_last, hops_ok_snoc, H3, H4, Hl, Hu, String.eqb_refl.
  auto.
Qed.

Lemma is_route_rev (nodes : list (node num)) (edges : list edge) (wm : bool)
    (bl : list blocked_edge) (rest : list string) :
  forall u,
    is_node nodes u = true -> hops_ok nodes edges wm bl u rest = true ->
    is_route nodes edges wm bl (last rest u) u (rev (u :: rest)) = true.
Proof.
  induction rest as [|v r IH]; intros u Hu Hh.
  - simpl. now rewrite String.eqb_refl, Hu.
  - simpl in Hh. apply andb_true_iff in Hh. destruct Hh as [Hh Hr].
    apply andb_true_iff in Hh. destruct Hh as [Hl Hv].
    rewrite last_cons. change (rev (u :: v :: r)) with (rev (v :: r) ++ [u]).
    apply (is_route_snoc nodes edges wm bl (last r v) v u); auto.
    now rewrite linked_sym.
Qed.

(** A route found one way is found the other way, when its length
    walked backwards is not [Infinity]. *)
Lemma reachability_symmetric
    (nodes : list (node num)) (edges : list edge) (wheelchairMode : bool)
    (blockedEdges : list blocked_edge) (startId endId : string) (r : route num) :
  ids_nonempty nodes = true -> is_node nodes endId = true ->
  dijkstra startId endId nodes edges wheelchairMode blockedEdges = Some (Some r) ->
  is_inf (path_length nodes (rev (path r))) = false ->
  exists r',
    dijkstra endId startId nodes edges wheelchairMode blockedEdges = Some (Some r')
    /\ is_route nodes edges wheelchairMode blockedEdges endId startId (path r') = true.
Proof.
  intros Hne He Hr Hfin.
  destruct (dijkstra_sound nodes edges wheelchairMode blockedEdges startId endId r
              (ids_nonempty_truthy nodes endId Hne He) He Hr) as (Hroute & _ & _).
  assert (Hback : is_route nodes edges wheelchairMode blockedEdges endId startId
                           (rev (path r)) = true).
  { unfold is_route in Hroute. destruct (path r) as [|u rest]; [discriminate|].
    rewrite !andb_true_iff in Hroute. destruct Hroute as [[[H1 H2] H3] H4].
    apply String.eqb_eq in H1. apply String.eqb_eq in H3. subst u.
    rewrite <- H3. now apply is_route_rev. }
  destruct (dijkstra_optimal nodes edges wheelchairMode blockedEdges endId startId
              (rev (path r)) Hne Hback Hfin) as (r' & d & Hr' & Hroute' & _).
  exists r'. auto.
Qed.

End DijkstraMore.

(* ================================================================== *)
(** ** Further properties of [findNearestExit] *)

Section ExitMore.

Context {num : Type} {ops : NumOps num} {laws : NumLaws num}.

(** Soundness of a result of [findNearestExit]. *)
Lemma findNearestExit_sound
    (nodes : list (node num)) (edges : list edge) (wheelchairMode : bool)
    (blockedEdges : list blocked_edge) (startId : string) (b : exit_route num) :
  findNearestExit startId nodes edges wheelchairMode blockedEdges = Some (Some b) ->
  (exists x, In x nodes /\ targetId b = id x
             /\ type x = if isRefuge b then "refuge" else "exit")
  /\ dijkstra startId (targetId b) nodes edges wheelchairMode blockedEdges
     = Some (Some (mkRoute (x_path b) (x_distance b)))
  /\ (isRefuge b = true ->
      wheelchairMode = true
      /\ forall x, In x nodes -> type x = "exit" ->
                   dijkstra startId (id x) nodes edges wheelchairMode blockedEdges
                   = Some None).
Proof.
  destruct (targets_loop nodes edges wheelchairMode blockedEdges startId false "exit")
    as (bx & Hfx & Hbx).
  destruct (targets_loop nodes edges wheelchairMode blockedEdges startId true "refuge")
    as (br & Hfr & Hbr).
  unfold findNearestExit. cbv zeta. rewrite Hfx.
  destruct bx as [b0|].
  - intros Heq. inversion Heq; subst b0.
    destruct Hbx as [(t0 & r0 & Hin & Hr0 & ->) _]. simpl.
    apply target_In in Hin. destruct Hin as [Hin Hty].
    split; [eauto|]. split; [now destruct r0 | discriminate].
  - rewrite Hfr. destruct wheelchairMode; [|discriminate].
    intros Heq. inversion Heq; subst br.
    destruct Hbr as [(t0 & r0 & Hin & Hr0 & ->) _]. simpl.
    apply target_In in Hin. destruct Hin as [Hin Hty].
    split; [eauto|]. split; [now destruct r0|].
    intros _. split; [reflexivity|].
    intros x Hx Htx. apply Hbx. now apply target_In.
Qed.


End ExitMore.

(* ================================================================== *)
(** ** Further properties of the direction synthesizers *)

Section DirectionMore.

Context {num : Type} {ops : NumOps num} {laws : NumLaws num}.

Lemma prefix_empty (s : string) : String.prefix "" s = true.
Proof. now destruct s. Qed.

Lemma flat_map_opt_nth {A} (f : nat -> option A) (l : list nat) :
  (forall i, In i l -> f i <> None) ->
  forall j, nth_error (flat_map (fun i => opt_list (f i)) l) j
            = match nth_error l j with
              | Some i => f i
              | None => None
              end.
Proof.
  induction l as [|a l IH]; intros Hall j.
  - now destruct j.
  - cbn [flat_map]. destruct (f a) as [x|] eqn:Ha;
      [|exfalso; apply (Hall a); [now left | exact Ha]].
    cbn [opt_list app]. destruct j as [|j]; cbn [nth_error]; [now rewrite Ha|].
    apply IH. intros i Hi. apply Hall. now right.
Qed.

Lemma flat_map_opt_length {A} (f : nat -> option A) (l : list nat) :
  (forall i, In i l -> f i <> None) ->
  List.length (flat_map (fun i => opt_list (f i)) l) = List.length l.
Proof.
  induction l as [|a l IH]; intros Hall; [reflexivity|].
  cbn [flat_map]. destruct (f a) as [x|] eqn:Ha;
    [|exfalso; apply (Hall a); [now left | exact Ha]].
  cbn [opt_list app List.length]. f_equal. apply IH. intros i Hi. apply Hall. now right.
Qed.

Lemma flat_map_opt_bound {A} (f : nat -> option A) (l : list nat) :
  List.length (flat_map (fun i => opt_list (f i)) l) <= List.length l.
Proof.
  induction l as [|a l IH]; simpl; [lia|].
  rewrite length_app. destruct (f a); simpl; lia.
Qed.

Lemma nth_error_seq (start len j : nat) :
  nth_error (seq start len) j = if j <? len then Some (start + j) else None.
Proof.
  revert start j. induction len as [|len IH]; intros start j; simpl.
  - now destruct j.
  - destruct j as [|j]; simpl; [now rewrite Nat.add_0_r|].
    rewrite IH. change (S j <? S len) with (j <? len).
    destruct (j <? len); [f_equal; lia | reflexivity].
Qed.

Lemma all_resolve_node_at (nodes : list (node num)) (p : list string) (i : nat) :
  all_resolve nodes p = true -> i < List.length p ->
  exists n, node_at (build_nodeMap nodes) p i = Some n.
Proof.
  unfold all_resolve, node_at. rewrite forallb_forall. intros Hall Hi.
  destruct (nth_error p i) as [k|] eqn:Hk; [|apply nth_error_None in Hk; lia].
  assert (Hn : is_node nodes k = true) by (apply Hall; eapply nth_error_In; eauto).
  apply nodeMap_defined in Hn.
  destruct (obj_get k (build_nodeMap nodes)); [eauto | congruence].
Qed.

(** The step of [generateDirections] at a position whose own id, the id
    before and, when there is one, the id after resolve. *)
Lemma direction_at_resolved
    (nodeMap : obj (node num)) (p : list string) (i : nat) (prev curr : node num) :
  1 <= i -> i < List.length p ->
  node_at nodeMap p (i - 1) = Some prev ->
  node_at nodeMap p i = Some curr ->
  (S i < List.length p -> node_at nodeMap p (i + 1) <> None) ->
  exists step,
    direction_at nodeMap p i = Some step
    /\ String.prefix "Head " (text step) = false
    /\ if i =? List.length p - 1
       then text step = ("Arrive at " ++ label_of curr)%string
            /\ d_type step = "arrive"
       else (text step = ("Turn left at " ++ label_of curr)%string
             /\ d_type step = "left")
            \/ (text step = ("Turn right at " ++ label_of curr)%string
                /\ d_type step = "right")
            \/ (text step = ("Continue straight at " ++ label_of curr)%string
                /\ d_type step = "straight").
Proof.
  intros H1 Hi Hprev Hcurr Hnext.
  unfold direction_at. cbv zeta. rewrite Hprev, Hcurr. cbv iota beta.
  destruct (i =? List.length p - 1) eqn:He.
  - eexists. split; [reflexivity|]. cbn [text d_type]. auto.
  - assert (Hlt : (i <? List.length p - 1) = true).
    { apply Nat.eqb_neq in He. apply Nat.ltb_lt. lia. }
    rewrite Hlt.
    destruct (node_at nodeMap p (i + 1)) as [next|];
      [|exfalso; apply Hnext; [apply Nat.ltb_lt in Hlt; lia | reflexivity]].
    eexists. split; [reflexivity|]. cbn [text d_type].
    destruct (ltb half _); [destruct (ltb zero _)|]; simpl; auto.
Qed.

Lemma generateDirections_resolved (nodes : list (node num)) (p : list string) :
  all_resolve nodes p = true ->
  List.length (generateDirections p nodes) = List.length p - 1
  /\ forall j step,
      nth_error (generateDirections p nodes) j = Some step ->
      S j < List.length p
      /\ direction_at (build_nodeMap nodes) p (S j) = Some step.
Proof.
  intros Hall. unfold generateDirections.
  destruct (List.length p <? 2) eqn:Hshort.
  - apply Nat.ltb_lt in Hshort. split; [simpl; lia|]. intros [|j] step Hs; discriminate.
  - apply Nat.ltb_ge in Hshort.
    assert (Hsome : forall i, In i (seq 1 (List.length p - 1)) ->
                              direction_at (build_nodeMap nodes) p i <> None).
    { intros i Hi. apply in_seq in Hi.
      destruct (all_resolve_node_at nodes p (i - 1) Hall) as [prev Hprev]; [lia|].
      destruct (all_resolve_node_at nodes p i Hall) as [curr Hcurr]; [lia|].
      destruct (direction_at_resolved (build_nodeMap nodes) p i prev curr)
        as (step & Hs & _); auto; try lia; [|congruence].
      intros Hn. replace (i + 1) with (S i) by lia.
      destruct (all_resolve_node_at nodes p (S i) Hall) as [next Hnx]; [lia | congruence]. }
    split.
    + rewrite flat_map_opt_length by assumption. now rewrite length_seq.
    + intros j step. rewrite flat_map_opt_nth by assumption. rewrite nth_error_seq.
      destruct (j <? List.length p - 1) eqn:Hj; [|discriminate].
      apply Nat.ltb_lt in Hj. simpl. intros Hs. split; [lia | exact Hs].
Qed.

(** X8. For a path all of whose ids resolve, [generateDirections] gives
    one step per hop, in order.  The step for the last hop is
    ["Arrive at <label>"] with type [arrive]; the step for every other
    hop is the turn at the node the hop ends in, ["Turn left at"],
    ["Turn right at"] or ["Continue straight at"] followed by its label,
    with type [left], [right] or [straight].  No step carries the heading
    phrase. *)
Theorem generateDirections_one_step_per_hop
    (nodes : list (node num)) (p : list string) :
  all_resolve nodes p = true ->
  List.length (generateDirections p nodes) = List.length p - 1
  /\ forall j step,
      nth_error (generateDirections p nodes) j = Some step ->
      exists curr,
        node_at (build_nodeMap nodes) p (S j) = Some curr
        /\ String.prefix "Head " (text step) = false
        /\ if S j =? List.length p - 1
           then text step = ("Arrive at " ++ label_of curr)%string
                /\ d_type step = "arrive"
           else (text step = ("Turn left at " ++ label_of curr)%string
                 /\ d_type step = "left")
                \/ (text step = ("Turn right at " ++ label_of curr)%string
                    /\ d_type step = "right")
                \/ (text step = ("Continue straight at " ++ label_of curr)%string
                    /\ d_type step = "straight").
Proof.
  intros Hall. destruct (generateDirections_resolved nodes p Hall) as [Hlen Hnth].
  split; [exact Hlen|]. intros j step Hs.
  destruct (Hnth j step Hs) as [Hj Hd].
  destruct (all_resolve_node_at nodes p (S j - 1) Hall) as [prev Hprev]; [lia|].
  destruct (all_resolve_node_at nodes p (S j) Hall) as [curr Hcurr]; [lia|].
  destruct (direction_at_resolved (build_nodeMap nodes) p (S j) prev curr)
    as (step' & Hs' & Hrest); auto; try lia.
  - intros Hn. replace (S j + 1) with (S (S j)) by lia.
    destruct (all_resolve_node_at nodes p (S (S j)) Hall) as [next Hnx]; [lia | congruence].
  - rewrite Hd in Hs'. inversion Hs'; subst step'. exists curr. auto.
Qed.

(** X9. When no node has the id [__proto__]: at a position whose id and
    the id before it resolve, and where the id after it, when it is not
    an id of the node list, names no member of [Object.prototype], the
    step of [generateDirections] carries the heading phrase
    ["Head <direction> — <distance>m"] exactly when the position is not
    the last one and the id after it does not resolve. *)
Theorem heading_phrase_only_before_unknown_node
    (nodes : list (node num)) (p : list string) (i : nat) (prev curr : node num)
    (step : direction) :
  is_node nodes "__proto__" = false ->
  (forall k, nth_error p (i + 1) = Some k -> is_node nodes k = false -> plain k = true) ->
  node_at (build_nodeMap nodes) p (i - 1) = Some prev ->
  node_at (build_nodeMap nodes) p i = Some curr ->
  direction_at (build_nodeMap nodes) p i = Some step ->
  (String.prefix "Head " (text step) = true
   <-> i < List.length p - 1 /\ node_at (build_nodeMap nodes) p (i + 1) = None).
Proof.
  intros _ _. generalize (build_nodeMap nodes). intros nodeMap Hprev Hcurr Hstep. split.
  - intros Hhead.
    destruct (i <? List.length p - 1) eqn:Hlt.
    + split; [now apply Nat.ltb_lt|].
      destruct (node_at nodeMap p (i + 1)) eqn:Hn; [|reflexivity].
      rewrite (direction_at_text nodeMap p i prev curr step Hprev Hcurr) in Hhead;
        [discriminate | congruence | exact Hstep].
    + rewrite (direction_at_text nodeMap p i prev curr step Hprev Hcurr) in Hhead;
        [discriminate | congruence | exact Hstep].
  - intros [Hlt Hn]. revert Hstep. unfold direction_at. cbv zeta.
    rewrite Hprev, Hcurr, Hn. cbv iota beta.
    assert (Hl : (i <? List.length p - 1) = true) by now apply Nat.ltb_lt.
    assert (He : (i =? List.length p - 1) = false) by (apply Nat.eqb_neq; lia).
    rewrite Hl, He. intros Heq. inversion Heq. simpl. apply prefix_empty.
Qed.

End DirectionMore.

(* ================================================================== *)
(** ** Properties of [generateVoiceDirections] and of the feedback *)

Section VoiceMore.

Context {num : Type} {ops : NumOps num} {laws : NumLaws num}.

(** The step of [generateVoiceDirections] at a position whose own id, the
    id before and, when there is one, the id after resolve. *)
Lemma voice_at_resolved
    (nodeMap : obj (node num)) (p : list string) (i : nat) (prev curr : node num) :
  1 <= i -> i < List.length p ->
  node_at nodeMap p (i - 1) = Some prev ->
  node_at nodeMap p i = Some curr ->
  (S i < List.length p -> node_at nodeMap p (i + 1) <> None) ->
  exists step,
    voice_at nodeMap p i = Some step
    /\ nodeId step = nth i p ""
    /\ if i =? List.length p - 1
       then v_type step = "arrive"
            /\ v_text step
               = (if String.eqb (type curr) "refuge"
                  then "You have reached the refuge area. Help is on the way."
                  else if String.eqb (type curr) "exit"
                  then ("You have reached " ++ voice_label curr
                        ++ ". Exit the building now.")%string
                  else ("You have arrived at " ++ voice_label curr ++ ".")%string)
       else In (v_type step) ["left"; "right"; "straight"; "special"].
Proof.
  intros H1 Hi Hprev Hcurr Hnext.
  unfold voice_at. cbv zeta. rewrite Hprev, Hcurr. cbv iota beta.
  destruct (i =? List.length p - 1) eqn:He.
  - eexists. split; [reflexivity|]. cbn [nodeId v_type v_text].
    split; [reflexivity|]. split; [reflexivity|].
    destruct (String.eqb (type curr) "refuge"); [reflexivity|].
    destruct (String.eqb (type curr) "exit"); reflexivity.
  - assert (Hlt : (i <? List.length p - 1) = true).
    { apply Nat.eqb_neq in He. apply Nat.ltb_lt. lia. }
    rewrite Hlt.
    destruct (node_at nodeMap p (i + 1)) as [next|];
      [|exfalso; apply Hnext; [apply Nat.ltb_lt in Hlt; lia | reflexivity]].
    unfold straight_step.
    destruct (ltb (Math_abs _) half && ltb zero _);
      [destruct (truthy _); eexists; (split; [reflexivity|]); simpl; auto 10|].
    destruct (ltb half _); [eexists; (split; [reflexivity|]); simpl; auto 10|].
    destruct (ltb _ (neg half)); [eexists; (split; [reflexivity|]); simpl; auto 10|].
    destruct (truthy _); eexists; (split; [reflexivity|]); simpl; auto 10.
Qed.

(** The types of the steps that [voice_at] can push. *)
Lemma voice_at_types (nodeMap : obj (node num)) (p : list string) (i : nat)
    (step : voice_direction) :
  voice_at nodeMap p i = Some step ->
  In (v_type step) ["arrive"; "left"; "right"; "straight"; "special"].
Proof.
  unfold voice_at. cbv zeta.
  destruct (node_at nodeMap p (i - 1)) as [prev|]; [|discriminate].
  destruct (node_at nodeMap p i) as [curr|]; [|discriminate].
  destruct (i =? List.length p - 1);
    [intros Heq; inversion Heq; simpl; auto|].
  destruct (if i <? List.length p - 1 then node_at nodeMap p (i + 1) else None)
    as [next|]; [|discriminate].
  unfold straight_step.
  destruct (ltb (Math_abs _) half && ltb zero _);
    [destruct (truthy _); intros Heq; inversion Heq; simpl; auto 10|].
  destruct (ltb half _); [intros Heq; inversion Heq; simpl; auto 10|].
  destruct (ltb _ (neg half)); [intros Heq; inversion Heq; simpl; auto 10|].
  destruct (truthy _); intros Heq; inversion Heq; simpl; auto 10.
Qed.

Lemma generateVoiceDirections_types (nodes : list (node num)) (p : list string)
    (l : list voice_direction) (step : voice_direction) :
  generateVoiceDirections p nodes = Some l -> In step l ->
  In (v_type step) ["start"; "arrive"; "left"; "right"; "straight"; "special"].
Proof.
  unfold generateVoiceDirections. destruct (List.length p <? 2).
  - intros Heq. inversion Heq. intros [].
  - destruct (node_at (build_nodeMap nodes) p 0); [|discriminate].
    destruct (node_at (build_nodeMap nodes) p 1); [|discriminate].
    intros Heq. inversion Heq. intros [<- | Hin]; [simpl; auto|].
    apply in_flat_map in Hin. destruct Hin as (i & _ & Hi).
    destruct (voice_at (build_nodeMap nodes) p i) eqn:Hv; simpl in Hi; [|contradiction].
    destruct Hi as [<- | []]. right. eapply voice_at_types; eauto.
Qed.

Lemma generateVoiceDirections_resolved (nodes : list (node num)) (p : list string) :
  all_resolve nodes p = true -> 2 <= List.length p ->
  exists l,
    generateVoiceDirections p nodes = Some l
    /\ List.length l = List.length p
    /\ (exists first, nth_error l 0 = Some first
                      /\ v_type first = "start" /\ nodeId first = nth 0 p "")
    /\ forall j step,
        nth_error l (S j) = Some step ->
        S j < List.length p
        /\ voice_at (build_nodeMap nodes) p (S j) = Some step.
Proof.
  intros Hall Hlen. unfold generateVoiceDirections.
  assert (Hlong : (List.length p <? 2) = false) by (apply Nat.ltb_ge; lia).
  rewrite Hlong.
  destruct (all_resolve_node_at nodes p 0 Hall) as [n0 H0]; [lia|].
  destruct (all_resolve_node_at nodes p 1 Hall) as [n1 H1]; [lia|].
  rewrite H0, H1.
  assert (Hsome : forall i, In i (seq 1 (List.length p - 1)) ->
                            voice_at (build_nodeMap nodes) p i <> None).
  { intros i Hi. apply in_seq in Hi.
    destruct (all_resolve_node_at nodes p (i - 1) Hall) as [prev Hprev]; [lia|].
    destruct (all_resolve_node_at nodes p i Hall) as [curr Hcurr]; [lia|].
    destruct (voice_at_resolved (build_nodeMap nodes) p i prev curr)
      as (step & Hs & _); auto; try lia; [|congruence].
    intros Hn. replace (i + 1) with (S i) by lia.
    destruct (all_resolve_node_at nodes p (S i) Hall) as [next Hnx]; [lia | congruence]. }
  eexists. split; [reflexivity|]. split; [|split].
  - cbn [List.length]. rewrite flat_map_opt_length by assumption.
    rewrite length_seq. lia.
  - eexists. split; [reflexivity|]. split; reflexivity.
  - intros j step. cbn [nth_error]. rewrite flat_map_opt_nth by assumption.
    rewrite nth_error_seq.
    destruct (j <? List.length p - 1) eqn:Hj; [|discriminate].
    apply Nat.ltb_lt in Hj. simpl. intros Hs. split; [lia | exact Hs].
Qed.

(** The steps of [generateVoiceDirections] on a resolving path. *)
Lemma generateVoiceDirections_steps
    (nodes : list (node num)) (p : list string) :
  all_resolve nodes p = true -> 2 <= List.length p ->
  exists l,
    generateVoiceDirections p nodes = Some l
    /\ map nodeId l = p
    /\ (forall j step,
           nth_error l j = Some step ->
           (v_type step = "start" <-> j = 0)
           /\ (v_type step = "arrive" <-> j = List.length p - 1))
    /\ forall step curr,
        nth_error l (List.length p - 1) = Some step ->
        node_at (build_nodeMap nodes) p (List.length p - 1) = Some curr ->
        v_text step
        = if String.eqb (type curr) "refuge"
          then "You have reached the refuge area. Help is on the way."
          else if String.eqb (type curr) "exit"
          then ("You have reached " ++ voice_label curr
                ++ ". Exit the building now.")%string
          else ("You have arrived at " ++ voice_label curr ++ ".")%string.
Proof.
  intros Hall Hlen.
  destruct (generateVoiceDirections_resolved nodes p Hall Hlen)
    as (l & Hl & Hlength & (first & Hf & Hft & Hfid) & Hrest).
  assert (Hstep : forall j step,
             nth_error l (S j) = Some step ->
             exists curr,
               node_at (build_nodeMap nodes) p (S j) = Some curr
               /\ nodeId step = nth (S j) p ""
               /\ if S j =? List.length p - 1
                  then v_type step = "arrive"
                       /\ v_text step
                          = (if String.eqb (type curr) "refuge"
                             then "You have reached the refuge area. Help is on the way."
                             else if String.eqb (type curr) "exit"
                             then ("You have reached " ++ voice_label curr
                                   ++ ". Exit the building now.")%string
                             else ("You have arrived at " ++ voice_label curr ++ ".")%string)
                  else In (v_type step) ["left"; "right"; "straight"; "special"]).
  { intros j step Hs. destruct (Hrest j step Hs) as [Hj Hv].
    destruct (all_resolve_node_at nodes p (S j - 1) Hall) as [prev Hprev]; [lia|].
    destruct (all_resolve_node_at nodes p (S j) Hall) as [curr Hcurr]; [lia|].
    destruct (voice_at_resolved (build_nodeMap nodes) p (S j) prev curr)
      as (step' & Hs' & Hid & Hty); auto; try lia.
    - intros Hn. replace (S j + 1) with (S (S j)) by lia.
      destruct (all_resolve_node_at nodes p (S (S j)) Hall) as [next Hnx]; [lia | congruence].
    - rewrite Hv in Hs'. inversion Hs'; subst step'. exists curr. auto. }
  exists l. split; [exact Hl|]. split; [|split].
  - apply nth_error_ext. intros j. rewrite nth_error_map.
    destruct j as [|j].
    + rewrite Hf. cbn [option_map]. rewrite Hfid. symmetry.
      apply (nth_error_nth' p ""). lia.
    + destruct (nth_error l (S j)) as [step|] eqn:Hs; cbn [option_map].
      * destruct (Hstep j step Hs) as (curr & _ & Hid & _).
        destruct (Hrest j step Hs) as [Hj _].
        rewrite Hid. symmetry. now apply (nth_error_nth' p "").
      * symmetry. apply nth_error_None. apply nth_error_None in Hs. lia.
  - intros [|j] step Hs.
    + rewrite Hf in Hs. inversion Hs; subst step. rewrite Hft.
      split; split; auto; try discriminate. lia.
    + destruct (Hstep j step Hs) as (curr & _ & _ & Hty).
      destruct (S j =? List.length p - 1) eqn:He.
      * apply Nat.eqb_eq in He. destruct Hty as [Hty _]. rewrite Hty.
        split; split; auto; discriminate.
      * apply Nat.eqb_neq in He.
        split; split; try discriminate; try lia;
          intros Heq; rewrite Heq in Hty; simpl in Hty;
          repeat (destruct Hty as [Hty | Hty]; [discriminate|]); destruct Hty.
  - intros step curr Hs Hcurr.
    destruct (List.length p - 1) as [|j] eqn:Hn; [lia|].
    destruct (Hstep j step Hs) as (curr' & Hcurr' & _ & Hty).
    rewrite Nat.eqb_refl in Hty. destruct Hty as [_ Htx].
    rewrite Hcurr in Hcurr'. inversion Hcurr'; subst curr'. exact Htx.
Qed.

(** X10. For a path of two or more ids that all resolve,
    [generateVoiceDirections] does not raise and gives one step per node
    of the path, in order: the [nodeId]s of the steps are the path; the
    first step, and no other, has type [start]; the last step, and no
    other, has type [arrive], with the phrase of the type of the last node
    (refuge, exit, or any other). *)
Theorem generateVoiceDirections_one_step_per_node
    (nodes : list (node num)) (p : list string) :
  all_resolve nodes p = true -> 2 <= List.length p ->
  exists l,
    generateVoiceDirections p nodes = Some l
    /\ map nodeId l = p
    /\ (forall j step,
           nth_error l j = Some step ->
           (v_type step = "start" <-> j = 0)
           /\ (v_type step = "arrive" <-> j = List.length p - 1))
    /\ forall step curr,
        nth_error l (List.length p - 1) = Some step ->
        node_at (build_nodeMap nodes) p (List.length p - 1) = Some curr ->
        v_text step
        = if String.eqb (type curr) "refuge"
          then "You have reached the refuge area. Help is on the way."
          else if String.eqb (type curr) "exit"
          then ("You have reached " ++ voice_label curr
                ++ ". Exit the building now.")%string
          else ("You have arrived at " ++ voice_label curr ++ ".")%string.
Proof. apply generateVoiceDirections_steps. Qed.


(** X12. The advisory phrase of a node overrides the phrase of the turn.
    At an interior node whose id, with the ids before and after, resolves:
    when the node is an elevator, stairs, a ramp or a refuge, the text of
    the step is the phrase of that type, whatever the turn; otherwise it
    is ["Turn left."] when [cross > 0.5], ["Turn right."] when
    [cross < -0.5] and ["Continue straight."] in every other case. *)
Theorem voice_special_node_override
    (nodes : list (node num)) (p : list string) (i : nat) (prev curr next : node num)
    (step : voice_direction) :
  1 <= i -> S i < List.length p ->
  node_at (build_nodeMap nodes) p (i - 1) = Some prev ->
  node_at (build_nodeMap nodes) p i = Some curr ->
  node_at (build_nodeMap nodes) p (i + 1) = Some next ->
  voice_at (build_nodeMap nodes) p i = Some step ->
  let cross := cross_of (sub (x curr) (x prev)) (sub (y curr) (y prev))
                        (sub (x next) (x curr)) (sub (y next) (y curr)) in
  (In (type curr) ["elevator"; "stairs"; "ramp"; "refuge"] ->
   v_text step = specialText_of (type curr) /\ v_text step <> "")
  /\ (~ In (type curr) ["elevator"; "stairs"; "ramp"; "refuge"] ->
      v_text step = if ltb half cross then "Turn left."
                    else if ltb cross (neg half) then "Turn right."
                    else "Continue straight.").
Proof.
  intros H1 Hlen Hprev Hcurr Hnext Hstep cross.
  assert (Hlt : (i <? List.length p - 1) = true) by (apply Nat.ltb_lt; lia).
  assert (Hne : (i =? List.length p - 1) = false) by (apply Nat.eqb_neq; lia).
  assert (Htext : v_text step
                  = if truthy (specialText_of (type curr)) then specialText_of (type curr)
                    else if ltb half cross then "Turn left."
                         else if ltb cross (neg half) then "Turn right."
                         else "Continue straight.").
  { revert Hstep. unfold voice_at. cbv zeta.
    rewrite Hprev, Hcurr, Hlt, Hnext, Hne. cbv iota beta.
    fold cross. rewrite voice_turn_branches. unfold straight_step, or_else.
    destruct (ltb half cross); [|destruct (ltb cross (neg half))];
      destruct (truthy (specialText_of (type curr)));
      intros Heq; inversion Heq; reflexivity. }
  split.
  - intros Hin. apply special_types in Hin. rewrite Htext, Hin. split; [reflexivity|].
    intros Hempty. rewrite Hempty in Hin. discriminate.
  - intros Hnot. rewrite Htext.
    destruct (truthy (specialText_of (type curr))) eqn:Ht; [|reflexivity].
    apply special_types in Ht. contradiction.
Qed.

(** X13. Every step of [generateVoiceDirections] has a vibration pattern
    of its own: [vibrate] finds the type of the step in
    [VIBRATION_PATTERNS] and does not fall back on the pattern of
    [straight]; two steps of different types get different patterns, and,
    unless one of them is the arrival, patterns with different numbers of
    buzzes. *)
Theorem vibrate_tells_steps_apart
    (nodes : list (node num)) (p : list string) (l : list voice_direction)
    (step step' : voice_direction) :
  generateVoiceDirections p nodes = Some l -> In step l -> In step' l ->
  obj_get (v_type step) VIBRATION_PATTERNS = Some (pattern_of (v_type step))
  /\ vibrate true (v_type step) = Some (pattern_of (v_type step))
  /\ (v_type step <> v_type step' ->
      pattern_of (v_type step) <> pattern_of (v_type step')
      /\ (v_type step <> "arrive" -> v_type step' <> "arrive" ->
          buzzes (pattern_of (v_type step)) <> buzzes (pattern_of (v_type step')))).
Proof.
  intros Hl Hin Hin'.
  pose proof (generateVoiceDirections_types nodes p l step Hl Hin) as Ht.
  pose proof (generateVoiceDirections_types nodes p l step' Hl Hin') as Ht'.
  simpl in Ht, Ht'.
  destruct Ht as [<- | [<- | [<- | [<- | [<- | [<- | []]]]]]];
    (split; [reflexivity|]); (split; [reflexivity|]);
    destruct Ht' as [<- | [<- | [<- | [<- | [<- | [<- | []]]]]]];
    intros Hne; try (exfalso; apply Hne; reflexivity);
    (split; [vm_compute; discriminate|]);
    intros Ha Ha'; try (exfalso; apply Ha; reflexivity);
    try (exfalso; apply Ha'; reflexivity); vm_compute; discriminate.
Qed.

End VoiceMore.

(* ================================================================== *)
(** ** From a route to its directions *)

Section PipelineMore.

Context {num : Type} {ops : NumOps num} {laws : NumLaws num}.

Lemma hops_ok_resolve (nodes : list (node num)) (edges : list edge) (wm : bool)
    (bl : list blocked_edge) (u : string) (rest : list string) :
  hops_ok nodes edges wm bl u rest = true -> forallb (is_node nodes) rest = true.
Proof.
  revert u. induction rest as [|v r IH]; intros u Hh; [reflexivity|].
  simpl in Hh. apply andb_true_iff in Hh. destruct Hh as [Hh Hr].
  apply andb_true_iff in Hh. destruct Hh as [_ Hv].
  simpl. rewrite Hv. simpl. now apply (IH v).
Qed.

(** The ids of a route all resolve, and a route between two different ids
    has two ids or more. *)
Lemma route_all_resolve (nodes : list (node num)) (edges : list edge) (wm : bool)
    (bl : list blocked_edge) (s e : string) (p : list string) :
  is_route nodes edges wm bl s e p = true ->
  all_resolve nodes p = true
  /\ 1 <= List.length p
  /\ (s = e -> NoDup p -> p = [s])
  /\ (s <> e -> 2 <= List.length p).
Proof.
  unfold is_route, all_resolve. destruct p as [|u rest]; [discriminate|].
  rewrite !andb_true_iff. intros [[[Hu Hs] Hl] Hh].
  apply String.eqb_eq in Hu. apply String.eqb_eq in Hl. subst u.
  split; [|split; [|split]].
  - simpl. rewrite Hs. simpl. eapply hops_ok_resolve; eauto.
  - simpl. lia.
  - intros -> Hnd. destruct rest as [|v r]; [reflexivity|]. exfalso.
    inversion Hnd as [|? ? Hnot _]. apply Hnot. rewrite <- Hl at 1.
    rewrite last_cons.
    clear. revert v. induction r as [|w r IH]; intros v; [left; reflexivity|].
    rewrite last_cons. right. apply IH.
  - intros Hne. destruct rest as [|v r]; [simpl in Hl; congruence | simpl; lia].
Qed.

Lemma route_directions
    (nodes : list (node num)) (edges : list edge) (wm : bool)
    (bl : list blocked_edge) (s e : string) (r : route num) :
  ids_nonempty nodes = true -> is_node nodes e = true ->
  dijkstra s e nodes edges wm bl = Some (Some r) ->
  List.length (generateDirections (path r) nodes) = List.length (path r) - 1
  /\ exists l,
      generateVoiceDirections (path r) nodes = Some l
      /\ (s = e -> l = [] /\ generateDirections (path r) nodes = [])
      /\ (s <> e -> map nodeId l = path r
                    /\ generateDirections (path r) nodes <> []).
Proof.
  intros Hids He Hr.
  assert (Htr : truthy e = true) by (eapply ids_nonempty_truthy; eauto).
  destruct (dijkstra_sound nodes edges wm bl s e r Htr He Hr) as (Hroute & Hnd & _).
  destruct (route_all_resolve nodes edges wm bl s e (path r) Hroute)
    as (Hall & Hlen1 & Hsame & Hdiff).
  destruct (generateDirections_resolved nodes (path r) Hall) as [Hlen _].
  split; [exact Hlen|].
  destruct (String.eqb s e) eqn:Hse.
  - apply String.eqb_eq in Hse. rewrite (Hsame Hse Hnd).
    exists []. split; [reflexivity|]. split; [split; reflexivity | congruence].
  - apply String.eqb_neq in Hse. specialize (Hdiff Hse).
    destruct (generateVoiceDirections_steps nodes (path r) Hall Hdiff)
      as (l & Hl & Hmap & _).
    exists l. split; [exact Hl|]. split; [congruence|]. intros _.
    split; [exact Hmap|]. intros Hnil. rewrite Hnil in Hlen. simpl in Hlen. lia.
Qed.

(** Likewise on the path of a result of [findNearestExit]. *)
Lemma exit_route_directions
    (nodes : list (node num)) (edges : list edge) (wheelchairMode : bool)
    (blockedEdges : list blocked_edge) (startId : string) (b : exit_route num) :
  ids_nonempty nodes = true ->
  findNearestExit startId nodes edges wheelchairMode blockedEdges = Some (Some b) ->
  List.length (generateDirections (x_path b) nodes) = List.length (x_path b) - 1
  /\ exists l,
      generateVoiceDirections (x_path b) nodes = Some l
      /\ (startId <> targetId b ->
          map nodeId l = x_path b
          /\ last (map nodeId l) startId = targetId b).
Proof.
  intros Hids Hb.
  destruct (findNearestExit_sound nodes edges wheelchairMode blockedEdges startId b Hb)
    as ((x & Hx & Hid & _) & Hd & _).
  assert (He : is_node nodes (targetId b) = true)
    by (rewrite Hid; now apply In_is_node).
  destruct (route_directions nodes edges wheelchairMode blockedEdges startId (targetId b)
              _ Hids He Hd) as (Hlen & l & Hl & _ & Hdiff).
  simpl in Hlen, Hl, Hdiff.
  split; [exact Hlen|]. exists l. split; [exact Hl|]. intros Hne.
  destruct (Hdiff Hne) as [Hmap _]. split; [exact Hmap|]. rewrite Hmap.
  assert (Htr : truthy (targetId b) = true) by (eapply ids_nonempty_truthy; eauto).
  destruct (dijkstra_sound nodes edges wheelchairMode blockedEdges startId (targetId b)
              _ Htr He Hd) as (Hroute & _).
  simpl in Hroute. unfold is_route in Hroute.
  destruct (x_path b) as [|u rest]; [discriminate|].
  rewrite !andb_true_iff in Hroute. destruct Hroute as [[[Hu _] Hlast] _].
  apply String.eqb_eq in Hu. apply String.eqb_eq in Hlast. subst u.
  destruct rest as [|v r]; [simpl in Hlast; congruence|].
  rewrite <- Hlast. apply last_cons.
Qed.

End PipelineMore.

(* ================================================================== *)
(** ** Further properties of [dijkstra] and [findNearestExit] as the code
       runs them *)

Section KeyMore.

Context {num : Type} {ops : NumOps num} {laws : NumLaws num}.

Variable source : string -> string.

(** X1. On a graph in which no id of a node names a member of
    [Object.prototype], and for a start that names none, a result of
    [dijkstra] for a target that is a non-empty id of the node list is
    sound: its path is a list of ids, a route of the filtered graph from
    [startId] to [endId] that visits no node twice, and its distance is
    the sum of the Euclidean lengths of its hops. *)
Theorem dijkstra_result_sound
    (nodes : list (node num)) (edges : list edge) (wheelchairMode : bool)
    (blockedEdges : list blocked_edge) (startId endId : string) (r : Proto.route num) :
  plain_nodes nodes = true -> plain startId = true ->
  truthy endId = true -> is_node nodes endId = true ->
  Proto.dijkstra source startId endId nodes edges wheelchairMode blockedEdges
  = Proto.Returns (Some r) ->
  exists p,
    Proto.path r = map Proto.Str p
    /\ is_route nodes edges wheelchairMode blockedEdges startId endId p = true
    /\ NoDup p
    /\ Proto.distance r = Proto.Own (Fin (path_length nodes p)).
Proof.
  intros Hn Hs Htr He Hr.
  destruct (returns_plain source nodes edges wheelchairMode blockedEdges startId endId r
              Hn Hs (plain_nodes_id nodes endId Hn He) Hr) as (r0 & Hr0 & ->).
  destruct (dijkstra_sound nodes edges wheelchairMode blockedEdges startId endId r0
              Htr He Hr0) as (Hroute & Hnd & Hd).
  exists (path r0). simpl. rewrite Hd. auto.
Qed.

(** X2. On a graph none of whose ids names a member of [Object.prototype],
    from a start that names none and is not an id of the node list no
    node of the list is found: [dijkstra] returns [null]. *)
Theorem dijkstra_unknown_start
    (nodes : list (node num)) (edges : list edge) (wheelchairMode : bool)
    (blockedEdges : list blocked_edge) (startId endId : string) :
  plain_graph nodes edges = true -> plain startId = true ->
  is_node nodes startId = false -> is_node nodes endId = true ->
  Proto.dijkstra source startId endId nodes edges wheelchairMode blockedEdges
  = Proto.Returns None.
Proof.
  intros Hg Hps Hs He.
  rewrite (dijkstra_plain_keys source nodes edges wheelchairMode blockedEdges startId endId
             Hg Hps (plain_graph_id nodes edges endId Hg He)).
  now rewrite (unknown_start nodes edges wheelchairMode blockedEdges startId endId Hs He).
Qed.

Lemma add_edge_dangling_plain (nodes : list (node num)) (wheelchairMode : bool)
    (blockedEdges : list blocked_edge)
    (acc : Proto.outcome (obj (list (string * num)))) (e : edge) :
  plain (from e) = true -> plain (to e) = true ->
  is_node nodes (from e) && is_node nodes (to e) = false ->
  Proto.add_edge wheelchairMode blockedEdges (build_nodeMap nodes) acc e = acc.
Proof.
  intros Hf Ht Hd. destruct acc as [adj| |]; try reflexivity.
  unfold Proto.add_edge.
  destruct (wheelchairMode && negb (e_accessible e)); [reflexivity|].
  destruct (isBlocked blockedEdges e); [reflexivity|].
  rewrite (get_plain _ _ Hf), (get_plain _ _ Ht).
  destruct (obj_get (from e) (build_nodeMap nodes)) as [n1|] eqn:H1; [|reflexivity].
  destruct (obj_get (to e) (build_nodeMap nodes)) as [n2|] eqn:H2; [|reflexivity].
  assert (Hnf : is_node nodes (from e) = true) by (apply nodeMap_defined; congruence).
  assert (Hnt : is_node nodes (to e) = true) by (apply nodeMap_defined; congruence).
  rewrite Hnf, Hnt in Hd. discriminate.
Qed.

(** X4. When no node has the id [__proto__] and no end of an edge names a
    member of [Object.prototype], an edge one of whose ends is not an id
    of the node list is skipped: the outcome is that of the query on the
    edge list without such edges. *)
Theorem dijkstra_skips_dangling_edges
    (nodes : list (node num)) (edges : list edge) (wheelchairMode : bool)
    (blockedEdges : list blocked_edge) (startId endId : string) :
  is_node nodes "__proto__" = false -> plain_edges edges = true ->
  Proto.dijkstra source startId endId nodes edges wheelchairMode blockedEdges
  = Proto.dijkstra source startId endId nodes
      (filter (fun e => is_node nodes (from e) && is_node nodes (to e)) edges)
      wheelchairMode blockedEdges.
Proof.
  intros _ He.
  assert (Hadj : Proto.build_adj nodes edges wheelchairMode blockedEdges
                 = Proto.build_adj nodes
                     (filter (fun e => is_node nodes (from e) && is_node nodes (to e)) edges)
                     wheelchairMode blockedEdges).
  { unfold Proto.build_adj. rewrite fold_left_filter. apply fold_left_ext_in.
    intros acc e Hin.
    destruct (is_node nodes (from e) && is_node nodes (to e)) eqn:Hk; [reflexivity|].
    unfold plain_edges in He. rewrite forallb_forall in He.
    specialize (He e Hin). apply andb_true_iff in He. destruct He as [Hf Ht].
    now apply add_edge_dangling_plain. }
  unfold Proto.dijkstra. now rewrite Hadj.
Qed.

(** X14. Directions exist for every route.  On a graph in which no node
    has the empty string as its id and no id of a node names a member of
    [Object.prototype], and for a start that names none: when [dijkstra]
    returns a result for a target of the node list, its path is a list of
    ids on which [generateDirections] gives one step per hop and
    [generateVoiceDirections] does not raise; for a target other than the
    start the steps of the latter name the ids of the path, one by one,
    and for the start itself both lists are empty. *)
Theorem dijkstra_route_has_directions
    (nodes : list (node num)) (edges : list edge) (wheelchairMode : bool)
    (blockedEdges : list blocked_edge) (startId endId : string) (r : Proto.route num) :
  plain_nodes nodes = true -> plain startId = true ->
  ids_nonempty nodes = true -> is_node nodes endId = true ->
  Proto.dijkstra source startId endId nodes edges wheelchairMode blockedEdges
  = Proto.Returns (Some r) ->
  exists p,
    Proto.path r = map Proto.Str p
    /\ List.length (generateDirections p nodes) = List.length p - 1
    /\ exists l,
        generateVoiceDirections p nodes = Some l
        /\ (startId = endId -> l = [] /\ generateDirections p nodes = [])
        /\ (startId <> endId -> map nodeId l = p /\ generateDirections p nodes <> []).
Proof.
  intros Hn Hs Hids He Hr.
  destruct (returns_plain source nodes edges wheelchairMode blockedEdges startId endId r
              Hn Hs (plain_nodes_id nodes endId Hn He) Hr) as (r0 & Hr0 & ->).
  exists (path r0). split; [reflexivity|].
  exact (route_directions nodes edges wheelchairMode blockedEdges startId endId r0
           Hids He Hr0).
Qed.

(** X15. Directions exist for every evacuation route.  On a graph in
    which no node has the empty string as its id and no id names a member
    of [Object.prototype], and for a start that names none: the path of a
    result of [findNearestExit] is a list of ids on which
    [generateDirections] gives one step per hop and
    [generateVoiceDirections] does not raise; unless the start is itself
    the target, the steps of the latter name the ids of the path, one by
    one, ending with the target. *)
Theorem findNearestExit_route_has_directions
    (nodes : list (node num)) (edges : list edge) (wheelchairMode : bool)
    (blockedEdges : list blocked_edge) (startId : string) (b : Proto.exit_route num) :
  plain_graph nodes edges = true -> plain startId = true ->
  ids_nonempty nodes = true ->
  Proto.findNearestExit source startId nodes edges wheelchairMode blockedEdges
  = Proto.Returns (Some b) ->
  exists p,
    Proto.x_path b = map Proto.Str p
    /\ List.length (generateDirections p nodes) = List.length p - 1
    /\ exists l,
        generateVoiceDirections p nodes = Some l
        /\ (startId <> Proto.targetId b ->
            map nodeId l = p /\ last (map nodeId l) startId = Proto.targetId b).
Proof.
  intros Hg Hs Hids.
  rewrite (findNearestExit_plain_keys source nodes edges wheelchairMode blockedEdges startId
             Hg Hs).
  destruct (findNearestExit startId nodes edges wheelchairMode blockedEdges) as [[b0|]|] eqn:Hb;
    simpl; try discriminate.
  intros Heq. inversion Heq. exists (x_path b0). split; [reflexivity|].
  exact (exit_route_directions nodes edges wheelchairMode blockedEdges startId b0 Hids Hb).
Qed.

Context {inf : InfLaws num}.

(** X5. Filters only lengthen.  On a graph in which no node has the empty
    string as its id and no id names a member of [Object.prototype], for
    a start that names none and a target of the node list: when a query
    finds a route, the same query with wheelchair mode off or with fewer
    blocked edges finds one too, and its distance is not larger. *)
Theorem dijkstra_fewer_filters_not_longer
    (nodes : list (node num)) (edges : list edge) (wm wm' : bool)
    (bl bl' : list blocked_edge) (startId endId : string) (r' : Proto.route num) :
  plain_graph nodes edges = true -> plain startId = true ->
  ids_nonempty nodes = true -> is_node nodes endId = true ->
  (wm = true -> wm' = true) -> incl bl bl' ->
  Proto.dijkstra source startId endId nodes edges wm' bl' = Proto.Returns (Some r') ->
  exists r d d',
    Proto.dijkstra source startId endId nodes edges wm bl = Proto.Returns (Some r)
    /\ Proto.distance r = Proto.Own (Fin d) /\ Proto.distance r' = Proto.Own (Fin d')
    /\ le d d'.
Proof.
  intros Hg Hs Hids He Hwm Hi.
  pose proof (plain_graph_id nodes edges endId Hg He) as Hpe.
  rewrite !(dijkstra_plain_keys source nodes edges _ _ startId endId Hg Hs Hpe).
  destruct (dijkstra startId endId nodes edges wm' bl') as [[r0'|]|] eqn:Hr'; simpl;
    try discriminate.
  intros Heq. inversion Heq; subst r'.
  destruct (fewer_filters_not_longer nodes edges wm wm' bl bl' startId endId r0'
              Hids He Hwm Hi Hr') as (r0 & d & d' & Hr0 & Hd & Hd' & Hle).
  exists (plain_route r0), d, d'. rewrite Hr0. simpl. rewrite Hd, Hd'. auto.
Qed.

(** X6. The filtered graph is undirected.  On a graph in which no node
    has the empty string as its id and no id of a node names a member of
    [Object.prototype], for a start that names none: when [dijkstra]
    finds a route from [startId] to a node [endId], and the length of
    that route walked backwards is not [Infinity], it finds a route from
    [endId] to [startId] as well. *)
Theorem dijkstra_reachability_symmetric
    (nodes : list (node num)) (edges : list edge) (wheelchairMode : bool)
    (blockedEdges : list blocked_edge) (startId endId : string)
    (r : Proto.route num) (p : list string) :
  plain_nodes nodes = true -> plain startId = true ->
  ids_nonempty nodes = true -> is_node nodes endId = true ->
  Proto.dijkstra source startId endId nodes edges wheelchairMode blockedEdges
  = Proto.Returns (Some r) ->
  Proto.path r = map Proto.Str p ->
  is_inf (path_length nodes (rev p)) = false ->
  exists p' d',
    Proto.dijkstra source endId startId nodes edges wheelchairMode blockedEdges
    = Proto.Returns (Some (Proto.mkRoute (map Proto.Str p') d'))
    /\ is_route nodes edges wheelchairMode blockedEdges endId startId p' = true.
Proof.
  intros Hn Hs Hids He.
  pose proof (plain_nodes_id nodes endId Hn He) as Hpe.
  rewrite (dijkstra_plain_nodes source nodes edges wheelchairMode blockedEdges startId endId
             Hn Hs Hpe),
    (dijkstra_plain_nodes source nodes edges wheelchairMode blockedEdges endId startId
       Hn Hpe Hs).
  destruct (Proto.build_adj nodes edges wheelchairMode blockedEdges); try discriminate.
  destruct (dijkstra startId endId nodes edges wheelchairMode blockedEdges) as [[r0|]|] eqn:Hr;
    simpl; try discriminate.
  intros Heq Hp Hfin. inversion Heq; subst r. simpl in Hp.
  assert (Hpp : path r0 = p).
  { clear - Hp. revert p Hp. induction (path r0) as [|a l IH]; intros [|b p] Hp;
      try discriminate; [reflexivity|].
    simpl in Hp. inversion Hp. f_equal. now apply IH. }
  rewrite <- Hpp in Hfin.
  destruct (reachability_symmetric nodes edges wheelchairMode blockedEdges startId endId r0
              Hids He Hr Hfin) as (r' & Hr' & Hroute').
  exists (path r'), (Proto.of_option (distance r')). rewrite Hr'. auto.
Qed.

End KeyMore.

(* ================================================================== *)
(** ** Properties of the step handlers *)

Section WalkMore.

Context {num : Type} {ops : NumOps num} {laws : NumLaws num}.

Variables (voiceEnabled vibrationEnabled hasDot : bool) (nodes : list (node num)).

Local Abbreviation next := (handleNextStep voiceEnabled vibrationEnabled hasDot nodes).
Local Abbreviation prev := (handlePrevStep voiceEnabled vibrationEnabled hasDot nodes).
Local Abbreviation say := (announce voiceEnabled vibrationEnabled hasDot nodes).

Lemma next_cases (directions : list voice_direction) (c : nat) :
  (c + 1 < List.length directions
   /\ exists step, nth_error directions (c + 1) = Some step
                   /\ next directions c = Some (c + 1, Some (say step)))
  \/ (List.length directions <= c + 1 /\ next directions c = Some (c, None)).
Proof.
  unfold handleNextStep. destruct (c <? List.length directions - 1) eqn:Hc.
  - apply Nat.ltb_lt in Hc. left. split; [lia|]. cbv zeta.
    destruct (nth_error directions (c + 1)) as [step|] eqn:Hs; [eauto|].
    apply nth_error_None in Hs. lia.
  - apply Nat.ltb_ge in Hc. right. split; [lia | reflexivity].
Qed.

Lemma prev_cases (directions : list voice_direction) (c : nat) :
  (0 < c /\ c <= List.length directions
   /\ exists step, nth_error directions (c - 1) = Some step
                   /\ prev directions c = Some (c - 1, Some (say step)))
  \/ (c = 0 /\ prev directions c = Some (c, None))
  \/ (List.length directions < c /\ prev directions c = None).
Proof.
  unfold handlePrevStep. destruct (0 <? c) eqn:Hc.
  - apply Nat.ltb_lt in Hc. cbv zeta.
    destruct (nth_error directions (c - 1)) as [step|] eqn:Hs.
    + left. split; [exact Hc|]. split; [|eauto].
      assert (c - 1 < List.length directions)
        by (apply nth_error_Some; congruence). lia.
    + right. right. apply nth_error_None in Hs. split; [lia | reflexivity].
  - apply Nat.ltb_ge in Hc. right. left. split; [lia | reflexivity].
Qed.

Lemma walk_in_range (directions : list voice_direction) (presses : list press) (c : nat) :
  c < List.length directions \/ c = 0 ->
  exists c', walk voiceEnabled vibrationEnabled hasDot nodes directions presses c = Some c'
             /\ (c' < List.length directions \/ c' = 0)
             /\ c' <= c + List.length (filter (fun b => match b with Next => true | Prev => false end)
                                              presses).
Proof.
  revert c. induction presses as [|b rest IH]; intros c Hc.
  - exists c. split; [reflexivity|]. split; [exact Hc | simpl; lia].
  - cbn [walk]. destruct b.
    + destruct (next_cases directions c) as [(Hlt & step & _ & ->) | (Hge & ->)].
      * destruct (IH (c + 1)) as (c' & Hw & Hr & Hn); [lia|].
        exists c'. split; [exact Hw|]. split; [exact Hr | simpl; lia].
      * destruct (IH c Hc) as (c' & Hw & Hr & Hn).
        exists c'. split; [exact Hw|]. split; [exact Hr | simpl; lia].
    + destruct (prev_cases directions c)
        as [(Hpos & Hle & step & _ & ->) | [(Hz & ->) | (Hgt & _)]].
      * destruct (IH (c - 1)) as (c' & Hw & Hr & Hn); [lia|].
        exists c'. split; [exact Hw|]. split; [exact Hr | simpl; lia].
      * destruct (IH c Hc) as (c' & Hw & Hr & Hn).
        exists c'. split; [exact Hw|]. split; [exact Hr | simpl; lia].
      * lia.
Qed.

(** X16. The step buttons keep the current step on the list.  From a
    current step that is an index of [directions], or [0] for an empty
    list, no sequence of presses of Next and Previous makes a handler
    raise; the current step after it is again such an index, and it has
    gone forward by no more than the number of presses of Next. *)
Theorem step_buttons_stay_in_range
    (directions : list voice_direction) (presses : list press) (currentStep : nat) :
  currentStep < List.length directions \/ currentStep = 0 ->
  exists c', walk voiceEnabled vibrationEnabled hasDot nodes directions presses currentStep
             = Some c'
             /\ (c' < List.length directions \/ c' = 0)
             /\ c' <= currentStep
                      + List.length (filter (fun b => match b with Next => true | Prev => false end)
                                            presses).
Proof. apply walk_in_range. Qed.

(** X17. [handleNextStep] never raises, at whatever current step: it
    moves one step forward, and announces that step, when the step after
    the current one exists, and does nothing otherwise.  [handlePrevStep]
    raises exactly when the current step is more than one past the end of
    the list. *)
Theorem step_handlers_raise_iff (directions : list voice_direction) (currentStep : nat) :
  (exists c' fb,
      next directions currentStep = Some (c', fb)
      /\ (currentStep + 1 < List.length directions ->
          c' = currentStep + 1
          /\ exists step, nth_error directions c' = Some step /\ fb = Some (say step))
      /\ (List.length directions <= currentStep + 1 -> c' = currentStep /\ fb = None))
  /\ (prev directions currentStep = None <-> List.length directions < currentStep).
Proof.
  split.
  - destruct (next_cases directions currentStep) as [(Hlt & step & Hs & Hn) | (Hge & Hn)];
      rewrite Hn; do 2 eexists; (split; [reflexivity|]); split; intros Hc; try lia.
    + split; [reflexivity | eauto].
    + split; reflexivity.
  - destruct (prev_cases directions currentStep)
      as [(Hpos & Hle & step & _ & Hp) | [(Hz & Hp) | (Hgt & Hp)]]; rewrite Hp;
      split; try discriminate; try lia; auto.
Qed.

(** X18. Previous undoes Next, and Next undoes Previous.  When
    [handleNextStep] has moved, [handlePrevStep] moves back to the step
    before and announces it; when [handlePrevStep] has moved from an index
    of the list, [handleNextStep] moves back to it and announces it. *)
Theorem prev_undoes_next (directions : list voice_direction) (currentStep c' : nat)
    (fb : feedback) :
  (next directions currentStep = Some (c', Some fb) ->
   exists step, nth_error directions currentStep = Some step
                /\ prev directions c' = Some (currentStep, Some (say step)))
  /\ (currentStep < List.length directions ->
      prev directions currentStep = Some (c', Some fb) ->
      exists step, nth_error directions currentStep = Some step
                   /\ next directions c' = Some (currentStep, Some (say step))).
Proof.
  split.
  - destruct (next_cases directions currentStep) as [(Hlt & step & Hs & Hn) | (Hge & Hn)];
      rewrite Hn; intros Heq; inversion Heq; subst c'.
    destruct (prev_cases directions (currentStep + 1))
      as [(Hpos & Hle & st & Hst & Hp) | [(Hz & _) | (Hgt & _)]]; try lia.
    replace (currentStep + 1 - 1) with currentStep in * by lia.
    exists st. split; [exact Hst | exact Hp].
  - intros Hin.
    destruct (prev_cases directions currentStep)
      as [(Hpos & Hle & step & Hs & Hp) | [(Hz & Hp) | (Hgt & Hp)]];
      rewrite Hp; intros Heq; inversion Heq; subst c'.
    destruct (next_cases directions (currentStep - 1))
      as [(Hlt & st & Hst & Hn) | (Hge & _)]; try lia.
    replace (currentStep - 1 + 1) with currentStep in * by lia.
    exists st. split; [exact Hst | exact Hn].
Qed.


End WalkMore.

Section WalkRoute.

Context {num : Type} {ops : NumOps num} {laws : NumLaws num}.


End WalkRoute.

(* ================================================================== *)
(** ** Properties of the selection *)

Section SelectionMore.

Lemma act_keeps_selection_ok (a : action) (st0 : selection) :
  selection_ok st0 -> selection_ok (act a st0).
Proof.
  unfold selection_ok.
  destruct st0 as [s e em bl]. cbn [selectedStart selectedEnd emergencyMode blockedEdges].
  intros (He & Hs0 & He0 & Hbl).
  pose proof (conj He (conj Hs0 (conj He0 Hbl))) as Hsame.
  destruct a as [[k|] | |]; cbn [act handleNodeClick simulateFire clearAll].
  - destruct (truthy k) eqn:Hk; cbn [negb]; [|(cbn [selectedStart selectedEnd emergencyMode blockedEdges]; exact Hsame)].
    assert (Hk0 : Some k <> Some "").
    { intros Heq. inversion Heq; subst k. discriminate Hk. }
    unfold choose. cbn [selectedStart selectedEnd emergencyMode blockedEdges].
    destruct (is_set s) eqn:Hs; cbn [negb].
    + destruct (negb (is_set e) && negb em) eqn:Hb.
      * destruct (differs k s) eqn:Hd;
          [|cbn [selectedStart selectedEnd emergencyMode blockedEdges]; rewrite Hs; exact Hsame].
        cbn [selectedStart selectedEnd emergencyMode blockedEdges].
        split; [|split; [exact Hs0 | split; [exact Hk0 | exact Hbl]]].
        intros _. split; [exact Hs|].
        intros Heq. rewrite <- Heq in Hd. simpl in Hd. now rewrite String.eqb_refl in Hd.
      * cbn [selectedStart selectedEnd emergencyMode blockedEdges is_set].
        split; [discriminate|]. split; [exact Hk0|]. split; [discriminate | exact Hbl].
    + cbn [selectedStart selectedEnd emergencyMode blockedEdges].
      split; [|split; [exact Hk0 | split; [exact He0 | exact Hbl]]].
      intros Hset. destruct (He Hset) as [Hs' _]. discriminate Hs'.
  - (cbn [selectedStart selectedEnd emergencyMode blockedEdges]; exact Hsame).
  - cbn [selectedStart selectedEnd emergencyMode blockedEdges].
    split; [exact He|]. split; [exact Hs0|]. split; [exact He0 | reflexivity].
  - cbn [selectedStart selectedEnd emergencyMode blockedEdges is_set].
    split; [discriminate|]. split; [discriminate|]. split; [discriminate | reflexivity].
Qed.

Lemma selection_inv (actions : list action) : selection_ok (after actions).
Proof.
  unfold after.
  assert (Hinit : selection_ok initial_selection).
  { unfold selection_ok. simpl. repeat split; discriminate. }
  revert Hinit. generalize initial_selection as st0.
  induction actions as [|a rest IH]; intros st0 Hinv; [exact Hinv|].
  cbn [fold_left]. apply IH. now apply act_keeps_selection_ok.
Qed.

(** X20. The destination is never the start.  In every state that clicks
    on nodes, [simulateFire] and [clearAll] reach from the first render, a
    destination is selected only together with a start, and differs from
    it; neither is the empty string; and the blocked edges are the two of
    the simulated fire in emergency mode and none otherwise. *)
Theorem selection_end_differs_from_start (actions : list action) :
  let st := after actions in
  (is_set (selectedEnd st) = true ->
   is_set (selectedStart st) = true /\ selectedEnd st <> selectedStart st)
  /\ selectedStart st <> Some ""
  /\ selectedEnd st <> Some ""
  /\ blockedEdges st = (if emergencyMode st then FIRE else []).
Proof. apply selection_inv. Qed.

(** X21. In emergency mode a click chooses the start only: after a click
    on a node with a non-empty id in a state reached with the fire
    simulated, that node is the start and no destination is selected. *)
Theorem emergency_click_sets_start (actions : list action) (k : string) :
  emergencyMode (after actions) = true -> truthy k = true ->
  let st := handleNodeClick (Some k) (after actions) in
  selectedStart st = Some k
  /\ is_set (selectedEnd st) = false
  /\ emergencyMode st = true
  /\ blockedEdges st = FIRE.
Proof.
  intros Hem Hk. destruct (selection_inv actions) as (He & _ & _ & Hbl).
  cbv zeta. rewrite Hem in Hbl.
  unfold handleNodeClick, choose. rewrite Hk, Hem. cbn [negb].
  rewrite andb_false_r.
  destruct (is_set (selectedStart (after actions))) eqn:Hs; cbn [negb];
    cbn [selectedStart selectedEnd emergencyMode blockedEdges];
    (split; [reflexivity|]); (split; [|split; [reflexivity | exact Hbl]]);
    [reflexivity|].
  destruct (is_set (selectedEnd (after actions))) eqn:Hend; [|reflexivity].
  destruct (He eq_refl) as [Hs' _]. congruence.
Qed.

End SelectionMore.

(* ================================================================== *)
(** ** Properties of the node under the pointer *)

Section PointerMore.

Context {num : Type} {ops : NumOps num} {laws : NumLaws num}.

Variables (two wx wy : num).

Local Abbreviation d := (pointer_dist wx wy).

(** The invariant of the scan over the nodes seen so far. *)
Lemma closest_scan (nodes seen : list (node num)) (acc : option (node num) * jsnum num) :
  match acc with
  | (None, Infinity) => forall m, In m seen -> ltb (d m) two = false
  | (Some c, Fin dc) =>
      In c seen /\ dc = d c /\ ltb dc two = true /\ forall m, In m seen -> le dc (d m)
  | _ => False
  end ->
  match fold_left (closest_step two wx wy) nodes acc with
  | (None, Infinity) => forall m, In m (seen ++ nodes) -> ltb (d m) two = false
  | (Some c, Fin dc) =>
      In c (seen ++ nodes) /\ dc = d c /\ ltb dc two = true
      /\ forall m, In m (seen ++ nodes) -> le dc (d m)
  | _ => False
  end.
Proof.
  revert seen acc. induction nodes as [|n rest IH]; intros seen acc Hacc.
  - rewrite app_nil_r. exact Hacc.
  - cbn [fold_left].
    replace (seen ++ n :: rest) with ((seen ++ [n]) ++ rest)
      by (now rewrite <- app_assoc).
    apply IH. unfold closest_step. cbv zeta.
    destruct acc as [[c|] [dc|]]; try contradiction; cbn [snd jlt].
    + destruct Hacc as (Hin & Hdc & Hlt & Hmin).
      destruct (ltb (d n) dc) eqn:Hn; cbn [andb].
      * destruct (ltb (d n) two) eqn:Hr.
        -- split; [apply in_or_app; right; left; reflexivity|].
           split; [reflexivity|]. split; [exact Hr|].
           intros m Hm. apply in_app_or in Hm. destruct Hm as [Hm | [<- | []]].
           ++ eapply le_trans; [apply lt_le; exact Hn | now apply Hmin].
           ++ apply le_refl.
        -- split; [apply in_or_app; now left|]. split; [exact Hdc|]. split; [exact Hlt|].
           intros m Hm. apply in_app_or in Hm. destruct Hm as [Hm | [<- | []]].
           ++ now apply Hmin.
           ++ eapply le_trans; [apply lt_le; exact Hlt | exact Hr].
      * split; [apply in_or_app; now left|]. split; [exact Hdc|]. split; [exact Hlt|].
        intros m Hm. apply in_app_or in Hm. destruct Hm as [Hm | [<- | []]].
        -- now apply Hmin.
        -- exact Hn.
    + cbn [andb]. destruct (ltb (d n) two) eqn:Hr.
      * split; [apply in_or_app; right; left; reflexivity|].
        split; [reflexivity|]. split; [exact Hr|].
        intros m Hm. apply in_app_or in Hm. destruct Hm as [Hm | [<- | []]].
        -- apply Hacc in Hm. eapply le_trans; [apply lt_le; exact Hr | exact Hm].
        -- apply le_refl.
      * intros m Hm. apply in_app_or in Hm. destruct Hm as [Hm | [<- | []]].
        -- now apply Hacc.
        -- exact Hr.
Qed.

(** X22. The node under the pointer is a nearest one.  The scan of
    [handleClick], and of the hover detection, picks a node of the list
    that lies at a distance below the radius from the world point and to
    which no node of the list is nearer; it picks none exactly when no
    node lies at a distance below the radius. *)
Theorem closest_node_is_nearest (nodes : list (node num)) :
  (forall c, closest_node two wx wy nodes = Some c ->
             In c nodes
             /\ ltb (pointer_dist wx wy c) two = true
             /\ forall m, In m nodes -> le (pointer_dist wx wy c) (pointer_dist wx wy m))
  /\ (closest_node two wx wy nodes = None
      <-> forall m, In m nodes -> ltb (pointer_dist wx wy m) two = false).
Proof.
  pose proof (closest_scan nodes [] (None, Infinity)) as Hscan.
  cbn [app] in Hscan. specialize (Hscan (fun m (Hm : In m []) => match Hm with end)).
  unfold closest_node.
  destruct (fold_left (closest_step two wx wy) nodes (None, Infinity)) as [[c|] [dc|]];
    try contradiction; cbn [fst].
  - destruct Hscan as (Hin & -> & Hlt & Hmin). split.
    + intros c' Heq. inversion Heq; subst c'. auto.
    + split; [discriminate|]. intros Hall. rewrite (Hall c Hin) in Hlt. discriminate.
  - split; [discriminate|]. split; [intros _; exact Hscan | reflexivity].
Qed.

End PointerMore.

(* ================================================================== *)
(** ** Properties of the profile *)

Section ProfileMore.

Lemma flag_set_eq (k : string) (v : bool) (o : obj bool) : flag k (obj_set k v o) = v.
Proof. unfold flag. now rewrite JsFacts.obj_get_set_eq. Qed.

Lemma flag_set_neq (k k' : string) (v : bool) (o : obj bool) :
  k <> k' -> flag k' (obj_set k v o) = flag k' o.
Proof. intros Hne. unfold flag. now rewrite JsFacts.obj_get_set_neq. Qed.

(** X23. [none] excludes the rest.  Whatever the selection was, after
    [handleDisabilityChange] the member [none] is set only if no other
    member is; a change of a key other than [none] flips that member,
    clears [none] and leaves every other member as it was, so that two
    changes of the same key restore every member but [none]. *)
Theorem none_excludes_the_rest (key k : string) (prev : obj bool) :
  let next := handleDisabilityChange key prev in
  (flag "none" next = true -> k <> "none" -> flag k next = false)
  /\ (key <> "none" ->
      flag key next = negb (flag key prev)
      /\ flag "none" next = false
      /\ (k <> key -> k <> "none" -> flag k next = flag k prev)
      /\ (k <> "none" -> flag k (handleDisabilityChange key next) = flag k prev)).
Proof.
  cbv zeta. unfold handleDisabilityChange.
  destruct (String.eqb key "none") eqn:Hkey.
  - apply String.eqb_eq in Hkey. split; [|congruence].
    intros _ Hk. unfold flag. cbn [obj_get].
    repeat (match goal with
            | |- context [String.eqb ?a k] => destruct (String.eqb a k) eqn:?; [reflexivity|]
            end).
    destruct (String.eqb "none" k) eqn:Hn; [|reflexivity].
    apply String.eqb_eq in Hn. congruence.
  - apply String.eqb_neq in Hkey.
    assert (Hnone : forall o, flag "none" (obj_set "none" false o) = false)
      by (intros o; apply flag_set_eq).
    assert (Hkeyflag : forall o v, flag key (obj_set "none" false (obj_set key v o)) = v).
    { intros o v. rewrite flag_set_neq by congruence. apply flag_set_eq. }
    assert (Hother : forall o v, k <> key -> k <> "none" ->
                flag k (obj_set "none" false (obj_set key v o)) = flag k o).
    { intros o v Hk Hn. rewrite flag_set_neq by congruence.
      apply flag_set_neq. congruence. }
    split.
    + intros Ht. rewrite Hnone in Ht. discriminate.
    + intros _. split; [apply Hkeyflag|]. split; [apply Hnone|].
      split; [apply Hother|]. intros Hn.
      destruct (String.eqb k key) eqn:Hk.
      * apply String.eqb_eq in Hk. subst k. rewrite !Hkeyflag. apply negb_involutive.
      * apply String.eqb_neq in Hk. rewrite !Hother by assumption. reflexivity.
Qed.

End ProfileMore.

(* ================================================================== *)
(** ** The click of the flat view *)

Section ClickMore.

Context {num : Type} {ops : NumOps num} {laws : NumLaws num}.

(** X24. A click of the flat view acts as a click on the nearest node.
    When no node has the empty string as its id: in view mode
    [handleClick] leaves the selection as it is; in the other modes it
    leaves it as it is when no node lies below the radius from the world
    point, and when one does it does what [handleNodeClick] does for the
    id of a node below the radius to which no node is nearer.  In every
    case it keeps the destination different from the start. *)
Theorem handleClick_is_click_on_nearest
    (two wx wy : num) (view : bool) (nodes : list (node num)) (st : selection) :
  ids_nonempty nodes = true ->
  (view = true -> handleClick two view wx wy nodes st = st)
  /\ (view = false ->
      ((forall m, In m nodes -> ltb (pointer_dist wx wy m) two = false) ->
       handleClick two view wx wy nodes st = st)
      /\ ((exists m, In m nodes /\ ltb (pointer_dist wx wy m) two = true) ->
          exists c, In c nodes
                    /\ ltb (pointer_dist wx wy c) two = true
                    /\ (forall m, In m nodes ->
                                  le (pointer_dist wx wy c) (pointer_dist wx wy m))
                    /\ handleClick two view wx wy nodes st
                       = handleNodeClick (Some (id c)) st))
  /\ (selection_ok st -> selection_ok (handleClick two view wx wy nodes st)).
Proof.
  intros Hids.
  pose proof (closest_scan two wx wy nodes [] (None, Infinity)) as Hscan.
  cbn [app] in Hscan. specialize (Hscan (fun m (Hm : In m []) => match Hm with end)).
  unfold handleClick, closest_node.
  destruct (fold_left (closest_step two wx wy) nodes (None, Infinity)) as [[c|] [dc|]];
    try contradiction; cbn [fst].
  - destruct Hscan as (Hin & -> & Hlt & Hmin).
    assert (Hclick : choose (id c) st = handleNodeClick (Some (id c)) st).
    { unfold handleNodeClick.
      assert (Htr : truthy (id c) = true).
      { apply (ids_nonempty_truthy nodes); [exact Hids | now apply In_is_node]. }
      now rewrite Htr. }
    split; [intros ->; reflexivity|]. split.
    + intros ->. split.
      * intros Hall. rewrite (Hall c Hin) in Hlt. discriminate.
      * intros _. exists c. auto.
    + intros Hok. destruct view; [exact Hok|]. rewrite Hclick.
      apply (act_keeps_selection_ok (Click (Some (id c)))). exact Hok.
  - split; [intros ->; reflexivity|]. split.
    + intros ->. split; [reflexivity|].
      intros (m & Hm & Hlt). rewrite (Hscan m Hm) in Hlt. discriminate.
    + intros Hok. now destruct view.
Qed.

End ClickMore.

(* ================================================================== *)
(** ** The further properties on concrete inputs *)

Module MoreChecks.

Import Rat Examples.

Local Abbreviation QL := RatFacts.laws.
Local Abbreviation QI := RatFacts.inf_laws.

(** Three steps from [A] by [B] to [C]. *)
Local Abbreviation abc :=
  [mkVoice "Route calculated. Head east." "A" "start";
   mkVoice "Turn left." "B" "left";
   mkVoice "You have arrived at intersection." "C" "arrive"].

Lemma dijkstra_result_sound_witness :
  exists r,
    Proto.dijkstra native_source "A" "C" triangle_nodes triangle_edges false []
    = Proto.Returns (Some r)
    /\ exists p,
        Proto.path r = map Proto.Str p
        /\ is_route triangle_nodes triangle_edges false [] "A" "C" p = true
        /\ NoDup p
        /\ Proto.distance r = Proto.Own (Fin (path_length triangle_nodes p)).
Proof.
  match eval vm_compute in
    (Proto.dijkstra native_source "A" "C" triangle_nodes triangle_edges false [])
  with Proto.Returns (Some ?r) => exists r end.
  split; [vm_compute; reflexivity|].
  apply (dijkstra_result_sound (laws := QL) native_source
           triangle_nodes triangle_edges false [] "A" "C");
    vm_compute; reflexivity.
Defined.

Lemma dijkstra_unknown_start_witness :
  is_node triangle_nodes "Z" = false /\ is_node triangle_nodes "C" = true
  /\ Proto.dijkstra native_source "Z" "C" triangle_nodes triangle_edges false []
     = Proto.Returns None.
Proof.
  split; [reflexivity|]. split; [reflexivity|].
  apply (dijkstra_unknown_start (laws := QL)); reflexivity.
Defined.

Lemma dijkstra_skips_dangling_edges_witness :
  plain_edges (mkEdge "Z" "A" "corridor" true :: triangle_edges) = true
  /\ filter (fun e => is_node triangle_nodes (from e) && is_node triangle_nodes (to e))
            (mkEdge "Z" "A" "corridor" true :: triangle_edges)
     = triangle_edges
  /\ Proto.dijkstra native_source "A" "C" triangle_nodes
                    (mkEdge "Z" "A" "corridor" true :: triangle_edges) false []
     = Proto.dijkstra native_source "A" "C" triangle_nodes triangle_edges false [].
Proof.
  split; [reflexivity|]. split; [reflexivity|].
  exact (dijkstra_skips_dangling_edges native_source triangle_nodes
           (mkEdge "Z" "A" "corridor" true :: triangle_edges) false [] "A" "C"
           eq_refl eq_refl).
Defined.

Lemma dijkstra_fewer_filters_not_longer_witness :
  exists r',
    Proto.dijkstra native_source "A" "C" triangle_nodes triangle_edges true fire_at_D
    = Proto.Returns (Some r')
    /\ exists r d d',
        Proto.dijkstra native_source "A" "C" triangle_nodes triangle_edges false []
        = Proto.Returns (Some r)
        /\ Proto.distance r = Proto.Own (Fin d) /\ Proto.distance r' = Proto.Own (Fin d')
        /\ le d d'.
Proof.
  match eval vm_compute in
    (Proto.dijkstra native_source "A" "C" triangle_nodes triangle_edges true fire_at_D)
  with Proto.Returns (Some ?r) => exists r end.
  split; [vm_compute; reflexivity|].
  apply (dijkstra_fewer_filters_not_longer (laws := QL) (inf := QI) native_source
           triangle_nodes triangle_edges false true [] fire_at_D "A" "C").
  - reflexivity.
  - reflexivity.
  - reflexivity.
  - reflexivity.
  - intros _. reflexivity.
  - intros b Hb. destruct Hb.
  - vm_compute. reflexivity.
Defined.

Lemma dijkstra_reachability_symmetric_witness :
  exists r,
    Proto.dijkstra native_source "A" "D" triangle_nodes triangle_edges false []
    = Proto.Returns (Some r)
    /\ exists p' d',
        Proto.dijkstra native_source "D" "A" triangle_nodes triangle_edges false []
        = Proto.Returns (Some (Proto.mkRoute (map Proto.Str p') d'))
        /\ is_route triangle_nodes triangle_edges false [] "D" "A" p' = true.
Proof.
  match eval vm_compute in
    (Proto.dijkstra native_source "A" "D" triangle_nodes triangle_edges false [])
  with Proto.Returns (Some ?r) =>
    exists r; split; [vm_compute; reflexivity|];
    apply (dijkstra_reachability_symmetric (laws := QL) (inf := QI) native_source
             triangle_nodes triangle_edges false [] "A" "D" r ["A"; "C"; "D"])
  end; vm_compute; reflexivity.
Defined.


Lemma generateDirections_one_step_per_hop_witness :
  all_resolve tour_nodes tour = true
  /\ List.length (generateDirections tour tour_nodes) = List.length tour - 1
  /\ forall j step,
      nth_error (generateDirections tour tour_nodes) j = Some step ->
      exists curr,
        node_at (build_nodeMap tour_nodes) tour (S j) = Some curr
        /\ String.prefix "Head " (text step) = false
        /\ if S j =? List.length tour - 1
           then text step = ("Arrive at " ++ label_of curr)%string
                /\ d_type step = "arrive"
           else (text step = ("Turn left at " ++ label_of curr)%string
                 /\ d_type step = "left")
                \/ (text step = ("Turn right at " ++ label_of curr)%string
                    /\ d_type step = "right")
                \/ (text step = ("Continue straight at " ++ label_of curr)%string
                    /\ d_type step = "straight").
Proof.
  split; [reflexivity|].
  apply (generateDirections_one_step_per_hop tour_nodes tour). reflexivity.
Defined.

Lemma heading_phrase_only_before_unknown_node_witness :
  exists step,
    direction_at (build_nodeMap tour_nodes) ["P0"; "P1"; "ZZ"] 1 = Some step
    /\ String.prefix "Head " (text step) = true
    /\ (String.prefix "Head " (text step) = true
        <-> 1 < List.length ["P0"; "P1"; "ZZ"] - 1
            /\ node_at (build_nodeMap tour_nodes) ["P0"; "P1"; "ZZ"] (1 + 1) = None).
Proof.
  match eval vm_compute in (direction_at (build_nodeMap tour_nodes) ["P0"; "P1"; "ZZ"] 1)
  with Some ?s => exists s end.
  split; [vm_compute; reflexivity|]. split; [reflexivity|].
  apply (heading_phrase_only_before_unknown_node tour_nodes
           ["P0"; "P1"; "ZZ"] 1 (pt "P0" 0 0 "intersection") (pt "P1" 4 0 "intersection"));
    try (vm_compute; reflexivity).
  intros k Hk _. vm_compute in Hk. inversion Hk. reflexivity.
Defined.

Lemma generateVoiceDirections_one_step_per_node_witness :
  all_resolve tour_nodes tour = true /\ 2 <= List.length tour
  /\ exists l,
      generateVoiceDirections tour tour_nodes = Some l
      /\ map nodeId l = tour
      /\ (forall j step,
             nth_error l j = Some step ->
             (v_type step = "start" <-> j = 0)
             /\ (v_type step = "arrive" <-> j = List.length tour - 1))
      /\ forall step curr,
          nth_error l (List.length tour - 1) = Some step ->
          node_at (build_nodeMap tour_nodes) tour (List.length tour - 1) = Some curr ->
          v_text step
          = if String.eqb (type curr) "refuge"
            then "You have reached the refuge area. Help is on the way."
            else if String.eqb (type curr) "exit"
            then ("You have reached " ++ voice_label curr
                  ++ ". Exit the building now.")%string
            else ("You have arrived at " ++ voice_label curr ++ ".")%string.
Proof.
  split; [reflexivity|]. split; [simpl; lia|].
  apply (generateVoiceDirections_one_step_per_node tour_nodes tour);
    [reflexivity | simpl; lia].
Defined.


Lemma voice_special_node_override_witness :
  exists step,
    voice_at (build_nodeMap tour_nodes) tour 3 = Some step
    /\ In "elevator" ["elevator"; "stairs"; "ramp"; "refuge"]
    /\ v_text step = specialText_of "elevator" /\ v_text step <> "".
Proof.
  match eval vm_compute in (voice_at (build_nodeMap tour_nodes) tour 3)
  with Some ?s => exists s end.
  split; [vm_compute; reflexivity|]. split; [simpl; auto|].
  apply (proj1 (voice_special_node_override (laws := QL) tour_nodes tour 3
                  (pt "P2" 4 3 "intersection") (pt "P3" 8 3 "elevator")
                  (pt "P4" 12 3 "intersection") _
                  ltac:(lia) ltac:(simpl; lia) ltac:(vm_compute; reflexivity)
                  ltac:(vm_compute; reflexivity) ltac:(vm_compute; reflexivity)
                  ltac:(vm_compute; reflexivity))).
  simpl. auto.
Defined.

Lemma vibrate_tells_steps_apart_witness :
  exists l step step',
    generateVoiceDirections tour tour_nodes = Some l /\ In step l /\ In step' l
    /\ v_type step <> v_type step'
    /\ obj_get (v_type step) VIBRATION_PATTERNS = Some (pattern_of (v_type step))
    /\ vibrate true (v_type step) = Some (pattern_of (v_type step))
    /\ (v_type step <> v_type step' ->
        pattern_of (v_type step) <> pattern_of (v_type step')
        /\ (v_type step <> "arrive" -> v_type step' <> "arrive" ->
            buzzes (pattern_of (v_type step)) <> buzzes (pattern_of (v_type step')))).
Proof.
  match eval vm_compute in (generateVoiceDirections tour tour_nodes)
  with Some (?a :: ?b :: ?r) =>
    exists (a :: b :: r), a, b;
    split; [vm_compute; reflexivity|];
    split; [left; reflexivity|]; split; [right; left; reflexivity|];
    split; [discriminate|];
    apply (vibrate_tells_steps_apart tour_nodes tour (a :: b :: r))
  end.
  - vm_compute. reflexivity.
  - left. reflexivity.
  - right. left. reflexivity.
Defined.

Lemma dijkstra_route_has_directions_witness :
  exists r,
    Proto.dijkstra native_source "A" "C" triangle_nodes triangle_edges true []
    = Proto.Returns (Some r)
    /\ exists p,
        Proto.path r = map Proto.Str p
        /\ List.length (generateDirections p triangle_nodes) = List.length p - 1
        /\ exists l,
            generateVoiceDirections p triangle_nodes = Some l
            /\ ("A" = "C" -> l = [] /\ generateDirections p triangle_nodes = [])
            /\ ("A" <> "C" -> map nodeId l = p
                              /\ generateDirections p triangle_nodes <> []).
Proof.
  match eval vm_compute in
    (Proto.dijkstra native_source "A" "C" triangle_nodes triangle_edges true [])
  with Proto.Returns (Some ?r) => exists r end.
  split; [vm_compute; reflexivity|].
  apply (dijkstra_route_has_directions (laws := QL) native_source
           triangle_nodes triangle_edges true [] "A" "C");
    vm_compute; reflexivity.
Defined.

Lemma findNearestExit_route_has_directions_witness :
  exists b,
    Proto.findNearestExit native_source "H" hall_nodes hall_edges false []
    = Proto.Returns (Some b)
    /\ exists p,
        Proto.x_path b = map Proto.Str p
        /\ List.length (generateDirections p hall_nodes) = List.length p - 1
        /\ exists l,
            generateVoiceDirections p hall_nodes = Some l
            /\ ("H" <> Proto.targetId b ->
                map nodeId l = p /\ last (map nodeId l) "H" = Proto.targetId b).
Proof.
  match eval vm_compute in
    (Proto.findNearestExit native_source "H" hall_nodes hall_edges false [])
  with Proto.Returns (Some ?b) => exists b end.
  split; [vm_compute; reflexivity|].
  apply (findNearestExit_route_has_directions (laws := QL) native_source
           hall_nodes hall_edges false [] "H");
    vm_compute; reflexivity.
Defined.

Lemma step_buttons_stay_in_range_witness :
  exists c',
    walk true true true triangle_nodes abc [Next; Next; Next; Prev] 0 = Some c'
    /\ (c' < List.length abc \/ c' = 0)
    /\ c' <= 0 + List.length (filter (fun b => match b with Next => true | Prev => false end)
                                     [Next; Next; Next; Prev]).
Proof.
  apply (step_buttons_stay_in_range true true true triangle_nodes abc
           [Next; Next; Next; Prev] 0).
  left. simpl. lia.
Defined.

Lemma step_handlers_raise_iff_witness :
  handlePrevStep true true true triangle_nodes abc 5 = None.
Proof.
  apply (proj2 (step_handlers_raise_iff true true true triangle_nodes abc 5)).
  simpl. lia.
Defined.

Lemma prev_undoes_next_witness :
  exists step,
    nth_error abc 1 = Some step
    /\ handlePrevStep true true true triangle_nodes abc 2
       = Some (1, Some (announce true true true triangle_nodes step)).
Proof.
  match eval vm_compute in (handleNextStep true true true triangle_nodes abc 1)
  with Some (_, Some ?fb) =>
    apply (proj1 (prev_undoes_next true true true triangle_nodes abc 1 2 fb))
  end.
  vm_compute. reflexivity.
Defined.


Lemma selection_end_differs_from_start_witness :
  let st := after [Click (Some "A"); Click (Some "A"); Click (Some "B"); Fire] in
  is_set (selectedEnd st) = true
  /\ is_set (selectedStart st) = true /\ selectedEnd st <> selectedStart st.
Proof.
  split; [reflexivity|].
  apply (proj1 (selection_end_differs_from_start
                  [Click (Some "A"); Click (Some "A"); Click (Some "B"); Fire])).
  reflexivity.
Defined.

Lemma emergency_click_sets_start_witness :
  let st := handleNodeClick (Some "C") (after [Click (Some "A"); Click (Some "B"); Fire]) in
  selectedStart st = Some "C"
  /\ is_set (selectedEnd st) = false
  /\ emergencyMode st = true
  /\ blockedEdges st = FIRE.
Proof.
  apply (emergency_click_sets_start [Click (Some "A"); Click (Some "B"); Fire] "C");
    reflexivity.
Defined.

Lemma closest_node_is_nearest_witness :
  closest_node 2%Q 3%Q 1%Q triangle_nodes = Some (pt "B" 3 0 "intersection")
  /\ In (pt "B" 3 0 "intersection") triangle_nodes
  /\ ltb (pointer_dist 3%Q 1%Q (pt "B" 3 0 "intersection")) 2%Q = true
  /\ forall m, In m triangle_nodes ->
               le (pointer_dist 3%Q 1%Q (pt "B" 3 0 "intersection"))
                  (pointer_dist 3%Q 1%Q m).
Proof.
  split; [vm_compute; reflexivity|].
  apply (proj1 (closest_node_is_nearest (laws := QL) 2%Q 3%Q 1%Q triangle_nodes)).
  vm_compute. reflexivity.
Defined.

Lemma none_excludes_the_rest_witness :
  flag "wheelchair" (handleDisabilityChange "wheelchair" no_choice) = true
  /\ flag "none" (handleDisabilityChange "wheelchair" no_choice) = false
  /\ flag "wheelchair" (handleDisabilityChange "none"
                          (handleDisabilityChange "wheelchair" no_choice)) = false.
Proof.
  destruct (none_excludes_the_rest "wheelchair" "anxiety" no_choice) as [_ Hflip].
  destruct (Hflip ltac:(discriminate)) as (Hset & Hnone & _).
  destruct (none_excludes_the_rest "none" "wheelchair"
              (handleDisabilityChange "wheelchair" no_choice)) as [Hclear _].
  split; [exact Hset|]. split; [exact Hnone|].
  apply Hclear; [reflexivity | discriminate].
Defined.

Lemma handleClick_is_click_on_nearest_witness :
  ids_nonempty triangle_nodes = true
  /\ exists c,
      In c triangle_nodes
      /\ ltb (pointer_dist 3%Q 1%Q c) 2%Q = true
      /\ (forall m, In m triangle_nodes ->
                    le (pointer_dist 3%Q 1%Q c) (pointer_dist 3%Q 1%Q m))
      /\ handleClick 2%Q false 3%Q 1%Q triangle_nodes (after [Click (Some "A")])
         = handleNodeClick (Some (id c)) (after [Click (Some "A")]).
Proof.
  split; [reflexivity|].
  destruct (handleClick_is_click_on_nearest (laws := QL) 2%Q 3%Q 1%Q false triangle_nodes
              (after [Click (Some "A")]) eq_refl) as (_ & Hclick & _).
  destruct (Hclick eq_refl) as [_ Hhit]. apply Hhit.
  exists (pt "B" 3 0 "intersection"). split; [right; left; reflexivity|].
  vm_compute. reflexivity.
Defined.

End MoreChecks.
